(** * Auspice: map helpers and the v1-to-v2 schema migrator

    A shallow embedding of two source files of the repository:

    - [src/components/map/mapHelpersLatLong.js] (module [MapHelpers]): the
      deme and transmission aggregation for the map panel and the
      incremental colour/visibility patchers;
    - the legacy schema migrator whose entry point is [convertFromV1]
      (module [Convert]).

    Each module first transcribes the source functions, then gives the
    vocabulary in which their properties are stated together with the sample
    inputs, and only then the lemmas and theorems.

    Conventions of the embedding.

    - JavaScript numbers are exact rationals ([Q]); a number that may be
      [undefined] or [NaN] is a [jsnum := option Q] on which every
      comparison with [None] is false, as comparisons with [NaN] are.
      Rounding of doubles is not modelled: [Math.log10] and [toFixed] are
      computed exactly, which agrees with the engine on the small decimal
      inputs used below but may differ from it next to large powers of ten.
      A theorem that turns on a sum or a difference being exactly some
      value is stated for whole numbers, on which doubles are exact.
    - JavaScript strings are [string]s of ASCII characters.
    - Objects used as dictionaries are [gmap]s where only lookups matter and
      association lists in insertion order where the code enumerates them.
      Only own properties are modelled (no prototype chain), and keys that
      look like array indices are enumerated where they were inserted, not
      ahead of the other keys. A theorem that turns on a key having no
      entry is stated for keys outside [objectPrototypeNames], the names
      every object inherits.
    - The source files are not in strict mode: an assignment to a property
      of a string, a number or a boolean is silently dropped.
    - Arrays filled by [push] inside [forEach] are lists threaded through
      [fold_left]. *)

From Stdlib Require Import QArith Qabs Qround Lqa Ascii String.

From stdpp Require Import gmap strings list fin_maps pretty.

Set Warnings "-register-all".

(** ** Numbers shared by both modules *)

Definition Qltb (a b : Q) : bool := negb (Qle_bool b a).

(** [undefined] / [NaN] or a rational. *)
Definition jsnum : Type := option Q.

(** [a + b], exact: the sum of two doubles may be rounded. *)
Definition num_add (a : jsnum) (b : Q) : jsnum := (λ x, (x + b)%Q) <$> a.

Definition num_sub (a b : jsnum) : jsnum :=
  match a, b with
  | Some x, Some y => Some (x - y)%Q
  | _, _ => None
  end.

Definition num_abs (a : jsnum) : jsnum := Qabs <$> a.

(** [a > b] and [a < b]: false as soon as [a] is [NaN]. *)
Definition num_gt (a : jsnum) (b : Q) : bool :=
  match a with Some x => Qltb b x | None => false end.

Definition num_lt (a : jsnum) (b : Q) : bool :=
  match a with Some x => Qltb x b | None => false end.

(** ** Objects enumerated in insertion order *)

(** [o[k]] on an association list: the first binding of [k]. *)
Fixpoint alookup {A} (k : string) (o : list (string * A)) : option A :=
  match o with
  | [] => None
  | (k', v) :: o' => if String.eqb k k' then Some v else alookup k o'
  end.

(** [o[k] = v]: an existing key keeps its place, a new one goes last. *)
Fixpoint aset {A} (k : string) (v : A) (o : list (string * A))
  : list (string * A) :=
  match o with
  | [] => [(k, v)]
  | (k', v') :: o' =>
      if String.eqb k k' then (k', v) :: o' else (k', v') :: aset k v o'
  end.

(** [delete o[k]] *)
Definition adelete {A} (k : string) (o : list (string * A))
  : list (string * A) :=
  filter (λ kv, kv.1 ≠ k) o.

(** Left fold of a step that may fail: the failure ends the loop. *)
Fixpoint foldlM {S A} (f : S → A → option S) (s : S) (l : list A) : option S :=
  match l with
  | [] => Some s
  | x :: l' => match f s x with Some s' => foldlM f s' l' | None => None end
  end.

(** ** Names every object inherits *)

(** The names of the members of [Object.prototype]. Reading one of them on
    an object without an own property of that name gives the inherited
    member, which is truthy, where any other name gives [undefined]. The
    dictionaries of this development hold own properties only. *)
Definition objectPrototypeNames : list string :=
  ["constructor"; "__defineGetter__"; "__defineSetter__"; "hasOwnProperty";
   "__lookupGetter__"; "__lookupSetter__"; "isPrototypeOf";
   "propertyIsEnumerable"; "toString"; "valueOf"; "__proto__";
   "toLocaleString"].

(** ** Facts about comparisons and insertion-ordered objects *)

Lemma Qltb_lt a b : Qltb a b = true ↔ (a < b)%Q.
Proof.
  unfold Qltb. rewrite negb_true_iff. split.
  - intros H. apply Qnot_le_lt. intros Hle.
    apply Qle_bool_iff in Hle. congruence.
  - intros H. destruct (Qle_bool b a) eqn:E; [|done].
    apply Qle_bool_iff in E. exfalso. revert E. by apply Qlt_not_le.
Qed.

Lemma Qltb_ge a b : Qltb a b = false ↔ (b <= a)%Q.
Proof.
  unfold Qltb. rewrite negb_false_iff. apply Qle_bool_iff.
Qed.

Lemma alookup_aset_eq {A} k (v : A) o : alookup k (aset k v o) = Some v.
Proof.
  induction o as [|[k' v'] o IH]; simpl.
  - by rewrite String.eqb_refl.
  - destruct (String.eqb k k') eqn:E; simpl; by rewrite E.
Qed.

Lemma alookup_aset_ne {A} k k' (v : A) o :
  k ≠ k' → alookup k (aset k' v o) = alookup k o.
Proof.
  intros Hne. induction o as [|[k0 v0] o IH]; simpl.
  - by apply String.eqb_neq in Hne as ->.
  - destruct (String.eqb k' k0) eqn:E; simpl.
    + apply String.eqb_eq in E as ->. by apply String.eqb_neq in Hne as ->.
    + by rewrite IH.
Qed.

Lemma alookup_adelete_eq {A} k (o : list (string * A)) :
  alookup k (adelete k o) = None.
Proof.
  unfold adelete. induction o as [|[k' v'] o IH]; [done|].
  rewrite filter_cons. simpl. destruct (decide (k' ≠ k)) as [Hne|Heq]; [|done].
  simpl. apply not_eq_sym, String.eqb_neq in Hne. by rewrite Hne.
Qed.

Lemma alookup_adelete_ne {A} k k' (o : list (string * A)) :
  k ≠ k' → alookup k (adelete k' o) = alookup k o.
Proof.
  intros Hne. unfold adelete. induction o as [|[k0 v0] o IH]; [done|].
  rewrite filter_cons. simpl. destruct (decide (k0 ≠ k')) as [Hne'|Heq].
  - simpl. by rewrite IH.
  - apply dec_stable in Heq as ->. rewrite IH.
    by apply String.eqb_neq in Hne as ->.
Qed.

Lemma alookup_filter_keys {A} (f : string * A → bool) k (o : list (string * A)) :
  (∀ v, f (k, v) = true) → alookup k (List.filter f o) = alookup k o.
Proof.
  intros Hf. induction o as [|[k0 v0] o IH]; [done|]. simpl.
  destruct (f (k0, v0)) eqn:E; simpl.
  - by rewrite IH.
  - destruct (String.eqb k k0) eqn:Ek; [|done].
    apply String.eqb_eq in Ek as ->. by rewrite Hf in E.
Qed.

Lemma alookup_Some_keys {A} k (v : A) o : alookup k o = Some v → k ∈ map fst o.
Proof.
  induction o as [|[k0 v0] o IH]; [done|]. simpl.
  destruct (String.eqb k k0) eqn:E.
  - apply String.eqb_eq in E as ->. intros _. by left.
  - intros H. right. by apply IH.
Qed.

Lemma alookup_keys_Some {A} k (o : list (string * A)) :
  k ∈ map fst o → is_Some (alookup k o).
Proof.
  induction o as [|[k0 v0] o IH]; simpl.
  - by intros ?%elem_of_nil.
  - destruct (String.eqb k k0) eqn:E; [by eexists|].
    intros [->|H]%elem_of_cons; [|by apply IH].
    by rewrite String.eqb_refl in E.
Qed.

(** ** mapHelpersLatLong.js *)

Module MapHelpers.

(** longs of original map are -180 to 180, longs of fully triplicated map are
    -540 to 540, restrict to longs between -360 to 360 *)
Definition westBound : Q := (-360)%Q.

Definition eastBound : Q := 360%Q.

(** A tree node as the map helpers read it: [arrayIdx], [num_date.value],
    [children] (absent for tips) and the attributes the trait resolver
    looks into. *)
Inductive node : Type := mkNode {
  arrayIdx : nat;
  num_date : Q;
  attrs : list (string * string);
  children : option (list node) }.

(** A Leaflet layer point. *)
Record point : Type := mkPoint { px : Q; py : Q }.

(** One entry of [metadata.geographicInfo[resolution]]. *)
Record geoEntry : Type := mkGeo { latitude : Q; longitude : Q }.

(** A TransmissionEvent record (fields carry the prefix [t_]). *)
Record transmission : Type := mkTransmission {
  t_id : string;
  t_originNode : node;
  t_destinationNode : node;
  t_bezierCurve : list point;
  t_bezierDates : list jsnum;
  t_originName : option string;
  t_destinationName : option string;
  t_originCoords : point;
  t_destinationCoords : point;
  t_originLatitude : jsnum;
  t_destinationLatitude : jsnum;
  t_originLongitude : jsnum;
  t_destinationLongitude : jsnum;
  t_originNumDate : Q;
  t_destinationNumDate : Q;
  t_color : option string;
  t_visible : string;
  t_extend : nat }.

(** A Deme record (prefix [d_]). *)
Record deme : Type := mkDeme {
  d_name : string;
  d_count : nat;
  d_color : string;
  d_latitude : Q;
  d_longitude : Q;
  d_coords : point }.

(** What d3's [pie] returns for one datum. *)
Record pieArc : Type := mkPieArc { startAngle : Q; endAngle : Q }.

(** An ArcSector record (prefix [a_]). *)
Record arc : Type := mkArc {
  a_pie : pieArc;
  a_color : string;
  a_count : nat;
  a_latitude : Q;
  a_longitude : Q;
  a_coords : point }.

(** Truthiness of a trait value ([undefined] and the empty string are falsy). *)
Definition truthy (v : option string) : bool :=
  match v with
  | Some s => negb (String.eqb s "")
  | None => false
  end.

(** [v1 !== v2] on trait values. *)
Definition trait_neq (a b : option string) : bool :=
  negb (bool_decide (a = b)).

(** A value used as a property key: [undefined] becomes ["undefined"]. *)
Definition propKey (v : option string) : string :=
  match v with
  | Some s => s
  | None => "undefined"
  end.

(** The key an array [[a, b]] turns into when it indexes an object:
    [Array.prototype.toString] joins the elements with a comma. *)
Definition pairKey (a b : option string) : string :=
  default "" a +:+ "," +:+ default "" b.

(** lodash's [_minBy]: the first element whose computed value is strictly
    below the computed values of all elements before it. *)
Definition minBy {A} (f : A → Q) (l : list A) : option A :=
  fold_left (λ acc x,
    match acc with
    | None => Some x
    | Some best => if Qltb (f x) (f best) then Some x else Some best
    end) l None.

(** [visibility[i] !== NODE_NOT_VISIBLE]; out of range the left side is
    [undefined], which differs from every number. *)
Definition isVisible (NODE_NOT_VISIBLE : nat) (visibility : list nat) (i : nat) : bool :=
  match visibility !! i with
  | Some v => negb (v =? NODE_NOT_VISIBLE)
  | None => true
  end.

Definition visibleString (b : bool) : string :=
  if b then "visible" else "hidden".

(** [a.toString() + "-" + b.toString()] *)
Definition edgeId (a b : nat) : string := pretty a +:+ "-" +:+ pretty b.

Fixpoint hasChar (c : ascii) (s : string) : bool :=
  match s with
  | EmptyString => false
  | String c' s' => bool_decide (c' = c) || hasChar c s'
  end.

(** *** A concrete map: collaborators and inputs *)

(** The trait resolver reads the node's attribute list. *)
Definition sampleTrait (n : node) (key : string) : option string :=
  alookup key (attrs n).

(** A flat projection: [x] is the longitude, [y] the latitude. *)
Definition sampleProject (lat long : jsnum) : point :=
  {| px := default 0%Q long; py := default 0%Q lat |}.

Definition sampleBezier (o d : point) (extend : nat) : list point := [o; d].

(** d3's [interpolateNumber]. *)
Definition sampleInterpolate (a b : Q) (t : jsnum) : jsnum :=
  (λ t, a * (1 - t) + b * t)%Q <$> t.

Definition tip (idx : nat) (location : string) : node :=
  {| arrayIdx := idx; num_date := 2015%Q;
     attrs := [("country", location)]; children := None |}.

Definition inner (idx : nat) (location : string) (cs : list node) : node :=
  {| arrayIdx := idx; num_date := 2014%Q;
     attrs := [("country", location)]; children := Some cs |}.

Definition sampleGeo : gmap string (gmap string geoEntry) :=
  {[ "country" :=
       {[ "east" := mkGeo 10 170; "west" := mkGeo 20 (-170);
          "a,b" := mkGeo 0 0; "c" := mkGeo 0 10;
          "a" := mkGeo 0 20; "b,c" := mkGeo 0 30;
          "near east" := mkGeo 0 (-5) ]} ]}.

(** Two locations half a turn apart. *)
Definition halfTurnGeo : gmap string (gmap string geoEntry) :=
  {[ "country" := {[ "here" := mkGeo 0 (-90); "there" := mkGeo 0 90 ]} ]}.

(** One edge from "east" (longitude 170) to "west" (longitude -170). *)
Definition dateLineNodes : list node :=
  [inner 0 "east" [tip 1 "west"]; tip 1 "west"].

(** Two edges whose ordered location pairs differ and whose comma-joined
    keys are both "a,b,c". *)
Definition commaNodes : list node :=
  [inner 0 "a,b" [tip 1 "c"]; tip 1 "c"; inner 2 "a" [tip 3 "b,c"]; tip 3 "b,c"].

(** Two edges from "a" to "c", the second a repeat of the first. *)
Definition repeatNodes : list node :=
  [inner 0 "a" [tip 1 "c"; tip 2 "c"]; tip 1 "c"; tip 2 "c"].

Definition sampleAverage (value : list (string * nat)) : string :=
  match value with
  | (c, _) :: _ => c
  | [] => ""
  end.

Definition samplePie (data : list nat) : list pieArc :=
  map (λ _, {| startAngle := 0; endAngle := 1 |}) data.

(** Three tips: "east" (longitude 170), "west" (-170) and a location the
    table does not know. *)
Definition demeNodes : list node :=
  [tip 0 "east"; tip 1 "west"; tip 2 "nowhere"].

(** *** The source functions, over their collaborators *)

Section Collaborators.

#[local] Set Default Proof Using "Type".

(** Imported from elsewhere in the application or from libraries. *)
Variable NODE_NOT_VISIBLE : nat.

Variable getTraitFromNode : node → string → option string.

(** [map.latLngToLayerPoint(new L.LatLng(lat, long))] for the map at hand. *)
Variable latLngToLayerPoint : jsnum → jsnum → point.

Variable bezier : point → point → nat → list point.

(** [interpolateNumber(a, b)(t)], [t] possibly [NaN]. *)
Variable interpolateNumber : Q → Q → jsnum → jsnum.

Variable averageColorsDict : list (string * nat) → string.

Variable pie : list nat → list pieArc.

Definition leafletLatLongToLayerPoint (lat long : jsnum) : point :=
  latLngToLayerPoint lat long.

(** if transmission pair is legal, return a leaflet LatLng origin / dest pair
    otherwise return null *)
Definition maybeGetTransmissionPair (latOrig longOrig latDest longDest : jsnum)
  : option (point * point) :=
  if (num_gt longOrig westBound || num_gt longDest westBound) &&
     (num_lt longOrig eastBound || num_lt longDest eastBound) &&
     num_lt (num_abs (num_sub longOrig longDest)) 180
  then Some (leafletLatLongToLayerPoint latOrig longOrig,
             leafletLatLongToLayerPoint latDest longDest)
  else None.

Definition constructBcurve (o d : point) (extend : nat) : list point :=
  bezier o d extend.

Abbreviation geoTable := (gmap string (gmap string geoEntry)).

(** [metadataGeoLookupTable[geoResolution][location]] over own entries;
    [None] when reading a field of the result would throw, which is so for
    a missing entry whose name is outside [objectPrototypeNames]. *)
Definition geoLookup (tbl : geoTable) (geoResolution : string)
    (location : option string) : option geoEntry :=
  tbl !! geoResolution ≫= λ t, t !! propKey location.

(** [i / (n - 1)], [NaN] for the division of zero by zero. *)
Definition fraction (i n : nat) : jsnum :=
  if (n - 1 =? 0)%nat then None
  else Some (inject_Z (Z.of_nat i) / inject_Z (Z.of_nat (n - 1)))%Q.

Definition maybeConstructTransmissionEvent
    (nd child : node) (metadataGeoLookupTable : geoTable) (geoResolution : string)
    (nodeColors : list string) (visibility : list nat)
    (offsetOrig offsetDest : Q) (demesMissingLatLongs : gset (option string))
    (extend : nat) : option transmission * gset (option string) :=
  let nodeLocation := getTraitFromNode nd geoResolution in
  let childLocation := getTraitFromNode child geoResolution in
  let '(latOrig, longOrig, missing1) :=
    match geoLookup metadataGeoLookupTable geoResolution nodeLocation with
    | Some e => (Some (latitude e), Some (longitude e), demesMissingLatLongs)
    | None => (None, None, {[nodeLocation]} ∪ demesMissingLatLongs)
    end in
  let '(latDest, longDest, missing2) :=
    match geoLookup metadataGeoLookupTable geoResolution childLocation with
    | Some e => (Some (latitude e), Some (longitude e), missing1)
    | None => (None, None, {[childLocation]} ∪ missing1)
    end in
  let validLatLongPair :=
    maybeGetTransmissionPair latOrig (num_add longOrig offsetOrig)
                             latDest (num_add longDest offsetDest) in
  match validLatLongPair with
  | Some (o, d) =>
      let Bcurve := constructBcurve o d extend in
      let interpolator := interpolateNumber (num_date nd) (num_date child) in
      let Bdates := imap (λ i _, interpolator (fraction i (length Bcurve))) Bcurve in
      (Some {| t_id := edgeId (arrayIdx nd) (arrayIdx child);
               t_originNode := nd;
               t_destinationNode := child;
               t_bezierCurve := Bcurve;
               t_bezierDates := Bdates;
               t_originName := getTraitFromNode nd geoResolution;
               t_destinationName := getTraitFromNode child geoResolution;
               t_originCoords := o;
               t_destinationCoords := d;
               t_originLatitude := latOrig;
               t_destinationLatitude := latDest;
               t_originLongitude := num_add longOrig offsetOrig;
               t_destinationLongitude := num_add longDest offsetDest;
               t_originNumDate := num_date nd;
               t_destinationNumDate := num_date child;
               t_color := nodeColors !! arrayIdx nd;
               t_visible := visibleString
                 (isVisible NODE_NOT_VISIBLE visibility (arrayIdx child));
               t_extend := extend |}, missing2)
  | None => (None, missing2)
  end.

(** [Math.abs(event.destinationCoords.x - event.originCoords.x)] *)
Definition separation (event : transmission) : Q :=
  Qabs (px (t_destinationCoords event) - px (t_originCoords event)).

Definition destOffsets : list Q := [(-360)%Q; 0%Q; 360%Q].

Definition maybeGetClosestTransmissionEvent
    (nd child : node) (metadataGeoLookupTable : geoTable) (geoResolution : string)
    (nodeColors : list string) (visibility : list nat)
    (offsetOrig : Q) (demesMissingLatLongs : gset (option string))
    (extend : nat) : option transmission * gset (option string) :=
  let '(possibleEvents, missing) :=
    fold_left (λ '(events, missing) offsetDest,
      let '(t, missing') :=
        maybeConstructTransmissionEvent nd child metadataGeoLookupTable
          geoResolution nodeColors visibility offsetOrig offsetDest missing extend in
      match t with
      | Some t => (events ++ [t], missing')
      | None => (events, missing')
      end) destOffsets ([], demesMissingLatLongs) in
  if (0 <? length possibleEvents)%nat
  then (minBy separation possibleEvents, missing)
  else (None, missing).

Definition offsetsOf (triplicate : bool) : list Q :=
  if triplicate then [(-360)%Q; 0%Q; 360%Q] else [0%Q].

(** The three accumulators of [setupTransmissionData]. *)
Record tstate : Type := mkTState {
  demeToDemeCounts : gmap string nat;
  transmissionData : list transmission;
  demesMissingLatLongs : gset (option string) }.

(** Body of [n.children.forEach((child) => ...)]. *)
Definition transmissionChildStep
    (metadataGeoLookupTable : geoTable) (geoResolution : string)
    (nodeColors : list string) (visibility : list nat) (offsets : list Q)
    (n : node) (st : tstate) (child : node) : tstate :=
  let nodeDeme := getTraitFromNode n geoResolution in
  let childDeme := getTraitFromNode child geoResolution in
  if truthy nodeDeme && truthy childDeme && trait_neq nodeDeme childDeme then
    let key := pairKey nodeDeme childDeme in
    let counts :=
      match demeToDemeCounts st !! key with
      | Some c => <[key := c + 1]> (demeToDemeCounts st)
      | None => <[key := 1]> (demeToDemeCounts st)
      end in
    let extend := default 0 (counts !! key) in
    let '(data, missing) :=
      fold_left (λ '(data, missing) offsetOrig,
        let '(t, missing') :=
          maybeGetClosestTransmissionEvent n child metadataGeoLookupTable
            geoResolution nodeColors visibility offsetOrig missing extend in
        match t with
        | Some t => (data ++ [t], missing')
        | None => (data, missing')
        end) offsets (transmissionData st, demesMissingLatLongs st) in
    {| demeToDemeCounts := counts;
       transmissionData := data;
       demesMissingLatLongs := missing |}
  else st.

(** Body of [nodes.forEach((n) => ...)]. *)
Definition transmissionNodeStep
    (metadataGeoLookupTable : geoTable) (geoResolution : string)
    (nodeColors : list string) (visibility : list nat) (offsets : list Q)
    (st : tstate) (n : node) : tstate :=
  match children n with
  | Some cs =>
      fold_left (transmissionChildStep metadataGeoLookupTable geoResolution
                   nodeColors visibility offsets n) cs st
  | None => st
  end.

(** [transmissionData.forEach((transmission, index) => ...)] *)
Definition indexStep (indices : gmap string (list nat))
    (it : nat * transmission) : gmap string (list nat) :=
  match indices !! t_id it.2 with
  | None => <[t_id it.2 := [it.1]]> indices
  | Some l => <[t_id it.2 := l ++ [it.1]]> indices
  end.

Definition buildTransmissionIndices (data : list transmission)
  : gmap string (list nat) :=
  fold_left indexStep (zip (seq 0 (length data)) data) ∅.

Record transmissionResult : Type := mkTransmissionResult {
  r_transmissionData : list transmission;
  r_transmissionIndices : gmap string (list nat);
  r_demesMissingLatLongs : gset (option string) }.

Definition setupTransmissionData (nodes : list node) (visibility : list nat)
    (geoResolution : string) (nodeColors : list string) (triplicate : bool)
    (geographicInfo : geoTable) : transmissionResult :=
  let offsets := offsetsOf triplicate in
  let st :=
    fold_left (transmissionNodeStep geographicInfo geoResolution nodeColors
                 visibility offsets)
      nodes {| demeToDemeCounts := ∅; transmissionData := [];
               demesMissingLatLongs := ∅ |} in
  {| r_transmissionData := transmissionData st;
     r_transmissionIndices := buildTransmissionIndices (transmissionData st);
     r_demesMissingLatLongs := demesMissingLatLongs st |}.

(** *** Update of colour and visibility *)

(** [transmissionIndices[id].forEach((index) => ...)] inside the [try]: the
    first index with no record raises a [TypeError], which ends the loop. *)
Fixpoint patchIndices (col : option string) (vis : string) (indices : list nat)
    (copy : list transmission) : list transmission :=
  match indices with
  | [] => copy
  | index :: rest =>
      match copy !! index with
      | Some t =>
          patchIndices col vis rest
            (<[index := {| t_id := t_id t;
                 t_originNode := t_originNode t;
                 t_destinationNode := t_destinationNode t;
                 t_bezierCurve := t_bezierCurve t;
                 t_bezierDates := t_bezierDates t;
                 t_originName := t_originName t;
                 t_destinationName := t_destinationName t;
                 t_originCoords := t_originCoords t;
                 t_destinationCoords := t_destinationCoords t;
                 t_originLatitude := t_originLatitude t;
                 t_destinationLatitude := t_destinationLatitude t;
                 t_originLongitude := t_originLongitude t;
                 t_destinationLongitude := t_destinationLongitude t;
                 t_originNumDate := t_originNumDate t;
                 t_destinationNumDate := t_destinationNumDate t;
                 t_color := col;
                 t_visible := vis;
                 t_extend := t_extend t |}]> copy)
      | None => copy
      end
  end.

Definition updateChildStep (transmissionIndices : gmap string (list nat))
    (visibility : list nat) (geoResolution : string) (nodeColors : list string)
    (nd : node) (copy : list transmission) (child : node) : list transmission :=
  let nodeLocation := getTraitFromNode nd geoResolution in
  let childLocation := getTraitFromNode nd geoResolution in
  if truthy nodeLocation && truthy childLocation
     && trait_neq nodeLocation childLocation then
    let id := edgeId (arrayIdx nd) (arrayIdx child) in
    let col := nodeColors !! arrayIdx nd in
    let vis := visibleString
                 (isVisible NODE_NOT_VISIBLE visibility (arrayIdx child)) in
    match transmissionIndices !! id with
    | Some indices => patchIndices col vis indices copy
    | None => copy
    end
  else copy.

Definition updateTransmissionDataColAndVis
    (transmissionData : list transmission)
    (transmissionIndices : gmap string (list nat)) (nodes : list node)
    (visibility : list nat) (geoResolution : string) (nodeColors : list string)
  : list transmission :=
  fold_left (λ copy nd,
    match children nd with
    | Some cs =>
        fold_left (updateChildStep transmissionIndices visibility geoResolution
                     nodeColors nd) cs copy
    | None => copy
    end) nodes transmissionData.

(** *** Demes *)

(** [demeMap[location][color] (+)= 1] *)
Definition bumpColor (color : string) (bucket : list (string * nat))
  : list (string * nat) :=
  match alookup color bucket with
  | Some c => if (c =? 0)%nat then aset color 1 bucket
              else aset color (c + 1) bucket
  | None => aset color 1 bucket
  end.

(** [demeMap] and its buckets hold own properties only: for a tip located
    at a name of [objectPrototypeNames] the source finds the inherited
    member and creates no bucket, where this definition creates one (see
    [ownLocations]). *)
Definition getDemeColors (nodes : list node) (visibility : list nat)
    (geoResolution : string) (nodeColors : list string)
  : list (string * list (string * nat)) :=
  (* do aggregation as intermediate step *)
  let demeMap :=
    fold_left (λ demeMap n,
      match children n with
      | None =>
          let location := getTraitFromNode n geoResolution in
          if truthy location then
            match alookup (propKey location) demeMap with
            | None => aset (propKey location) [] demeMap
            | Some _ => demeMap
            end
          else demeMap
      | Some _ => demeMap
      end) nodes [] in
  (* second pass to fill vectors *)
  fold_left (λ demeMap '(i, n),
    match children n with
    | None =>
        if isVisible NODE_NOT_VISIBLE visibility i then
          let location := getTraitFromNode n geoResolution in
          if truthy location then
            match alookup (propKey location) demeMap with
            | Some bucket =>
                aset (propKey location)
                  (bumpColor (propKey (nodeColors !! i)) bucket) demeMap
            | None => demeMap
            end
          else demeMap
        else demeMap
    | Some _ => demeMap
    end) (zip (seq 0 (length nodes)) nodes) demeMap.

(** The four accumulators of [setupDemeData]. *)
Record dstate : Type := mkDState {
  demeData : list deme;
  arcData : list arc;
  demeIndices : gmap string (list nat);
  index : nat }.

(** The [for] loop over [colors]; [arcs[i]] must exist, otherwise the
    assignment to [arcs[i].color] raises a [TypeError] ([None]). *)
Fixpoint pushArcs (colors : list string) (arcs : list pieArc) (total : nat)
    (lat long : Q) (coords : point) (arcData : list arc) : option (list arc) :=
  match colors with
  | [] => Some arcData
  | c :: colors' =>
      match arcs with
      | a :: arcs' =>
          pushArcs colors' arcs' total lat long coords
            (arcData ++ [{| a_pie := a; a_color := c; a_count := total;
                            a_latitude := lat; a_longitude := long;
                            a_coords := coords |}])
      | [] => None
      end
  end.

(** Body of [_forOwn(demeMap, (value, key) => ...)] for one [OFFSET];
    [None] is an uncaught [TypeError]. *)
Definition demeStep (geo : geoTable) (geoResolution : string) (OFFSET : Q)
    (st : dstate) (kv : string * list (string * nat)) : option dstate :=
  let key := kv.1 in
  let value := kv.2 in
  let colors := map fst value in
  let nDataPoints := map (λ c, default 0 (alookup c value)) colors in
  let arcs := pie nDataPoints in
  table ← geo !! geoResolution;
  let '(lat, long, goodDeme) :=
    match table !! key with
    | Some e => (latitude e, (longitude e + OFFSET)%Q, true)
    | None => (0%Q, 0%Q, false)
    end in
  let coords := leafletLatLongToLayerPoint (Some lat) (Some long) in
  let total := if (0 <? length nDataPoints)%nat
               then foldr Nat.add 0 nDataPoints else 0 in
  arcData' ← pushArcs colors arcs total lat long coords (arcData st);
  if Qltb westBound long && Qltb long eastBound && goodDeme then
    Some {| demeData := demeData st ++
              [{| d_name := key; d_count := total;
                  d_color := averageColorsDict value;
                  d_latitude := lat; d_longitude := long;
                  d_coords := coords |}];
            arcData := arcData';
            demeIndices :=
              match demeIndices st !! key with
              | None => <[key := [index st]]> (demeIndices st)
              | Some l => <[key := l ++ [index st]]> (demeIndices st)
              end;
            index := index st + 1 |}
  else
    Some {| demeData := demeData st; arcData := arcData';
            demeIndices := demeIndices st; index := index st |}.

Record demeResult : Type := mkDemeResult {
  r_demeData : list deme;
  r_demeIndices : gmap string (list nat);
  r_arcData : list arc }.

Definition setupDemeData (nodes : list node) (visibility : list nat)
    (geoResolution : string) (nodeColors : list string) (triplicate : bool)
    (geographicInfo : geoTable) : option demeResult :=
  let demeMap := getDemeColors nodes visibility geoResolution nodeColors in
  let offsets := offsetsOf triplicate in
  let geo := geographicInfo in
  st ← foldlM (λ st OFFSET, foldlM (demeStep geo geoResolution OFFSET) st demeMap)
         {| demeData := []; arcData := []; demeIndices := ∅; index := 0 |}
         offsets;
  Some {| r_demeData := demeData st;
          r_demeIndices := demeIndices st;
          r_arcData := arcData st |}.

(** *** The exported aggregation *)

Record mapData : Type := mkMapData {
  m_demeData : list deme;
  m_transmissionData : list transmission;
  m_arcData : list arc;
  m_demeIndices : gmap string (list nat);
  m_transmissionIndices : gmap string (list nat);
  m_demesMissingLatLongs : gset (option string) }.

(** [None] when [setupDemeData] throws. *)
Definition createDemeAndTransmissionData (nodes : list node)
    (visibility : list nat) (geoResolution : string) (nodeColors : list string)
    (triplicate : bool) (geographicInfo : geoTable) : option mapData :=
  d ← setupDemeData nodes visibility geoResolution nodeColors triplicate
         geographicInfo;
  let t := setupTransmissionData nodes visibility geoResolution nodeColors
             triplicate geographicInfo in
  Some {| m_demeData := r_demeData d;
          m_transmissionData := r_transmissionData t;
          m_arcData := r_arcData d;
          m_demeIndices := r_demeIndices d;
          m_transmissionIndices := r_transmissionIndices t;
          m_demesMissingLatLongs := r_demesMissingLatLongs t |}.

(** *** Update of the demes *)

(** [demeIndices[name].forEach((index) => ...)]: an index with no record
    raises a [TypeError] ([None]), and nothing catches it. The records of
    the copy are those of [demeData]; the model returns the patched list. *)
Fixpoint patchDemes (total : nat) (color : string) (indices : list nat)
    (copy : list deme) : option (list deme) :=
  match indices with
  | [] => Some copy
  | index :: rest =>
      match copy !! index with
      | Some d =>
          patchDemes total color rest
            (<[index := {| d_name := d_name d; d_count := total;
                           d_color := color; d_latitude := d_latitude d;
                           d_longitude := d_longitude d;
                           d_coords := d_coords d |}]> copy)
      | None => None
      end
  end.

(** Body of [_forOwn(demeMap, (value, key) => ...)]; a name without an entry
    in [demeIndices] raises a [TypeError]. *)
Definition updateDemeStep (demeIndices : gmap string (list nat))
    (copy : list deme) (kv : string * list (string * nat))
  : option (list deme) :=
  let name := kv.1 in
  let value := kv.2 in
  let total := if (0 <? length (map fst value))%nat
               then foldr Nat.add 0 (map snd value) else 0 in
  indices ← demeIndices !! name;
  patchDemes total (averageColorsDict value) indices copy.

Definition updateDemeDataColAndVis (demeData : list deme)
    (demeIndices : gmap string (list nat)) (nodes : list node)
    (visibility : list nat) (geoResolution : string) (nodeColors : list string)
  : option (list deme) :=
  let demeMap := getDemeColors nodes visibility geoResolution nodeColors in
  foldlM (updateDemeStep demeIndices) demeData demeMap.

(** *** Zoom level change *)

(** interchange for all demes *)
Definition updateDemeDataLatLong (demeData : list deme) : list deme :=
  map (λ d,
    {| d_name := d_name d; d_count := d_count d; d_color := d_color d;
       d_latitude := d_latitude d; d_longitude := d_longitude d;
       d_coords := leafletLatLongToLayerPoint (Some (d_latitude d))
                     (Some (d_longitude d)) |}) demeData.

(** interchange for all transmissions *)
Definition updateTransmissionDataLatLong (transmissionData : list transmission)
  : list transmission :=
  map (λ t,
    let originCoords :=
      leafletLatLongToLayerPoint (t_originLatitude t) (t_originLongitude t) in
    let destinationCoords :=
      leafletLatLongToLayerPoint (t_destinationLatitude t)
        (t_destinationLongitude t) in
    {| t_id := t_id t;
       t_originNode := t_originNode t;
       t_destinationNode := t_destinationNode t;
       t_bezierCurve :=
         constructBcurve originCoords destinationCoords (t_extend t);
       t_bezierDates := t_bezierDates t;
       t_originName := t_originName t;
       t_destinationName := t_destinationName t;
       t_originCoords := originCoords;
       t_destinationCoords := destinationCoords;
       t_originLatitude := t_originLatitude t;
       t_destinationLatitude := t_destinationLatitude t;
       t_originLongitude := t_originLongitude t;
       t_destinationLongitude := t_destinationLongitude t;
       t_originNumDate := t_originNumDate t;
       t_destinationNumDate := t_destinationNumDate t;
       t_color := t_color t;
       t_visible := t_visible t;
       t_extend := t_extend t |}) transmissionData.

(** [undefined] arguments are [None]; an array, even an empty one, is
    truthy. *)
Definition updateDemeAndTransmissionDataLatLong
    (demeData : option (list deme))
    (transmissionData : option (list transmission))
  : option (list deme) * option (list transmission) :=
  match demeData, transmissionData with
  | Some demeData, Some transmissionData =>
      (Some (updateDemeDataLatLong demeData),
       Some (updateTransmissionDataLatLong transmissionData))
  | _, _ => (None, None)
  end.

(** *** The legality test on a pair of longitudes *)

Definition inBand (x : Q) : Prop := (westBound < x)%Q ∧ (x < eastBound)%Q.

Definition legalPair (lo ld : Q) : bool :=
  (Qltb westBound lo || Qltb westBound ld) &&
  (Qltb lo eastBound || Qltb ld eastBound) &&
  Qltb (Qabs (lo - ld)) 180.

(** The rule as C3 words it: both longitudes in the band. *)
Definition bothInBandRule (lo ld : Q) : Prop :=
  inBand lo ∧ inBand ld ∧ (Qabs (lo - ld) < 180)%Q.

(** *** Candidate events of one parent-child pair *)

(** The candidates of one origin offset, in the order of the destination
    offsets. *)
Definition candidates nd child tbl res colors vis (oo : Q) (ext : nat)
  : list transmission :=
  omap (λ od,
    (maybeConstructTransmissionEvent nd child tbl res colors vis oo od ∅ ext).1)
    destOffsets.

(** *** The traversal of [setupTransmissionData] as a list of edges *)

Abbreviation edge := (node * node)%type.

(** Parent-child pairs in the order the two nested [forEach] visit them. *)
Definition edges (nodes : list node) : list edge :=
  concat (map (λ n,
    match children n with
    | Some cs => map (pair n) cs
    | None => []
    end) nodes).

(** Both locations are truthy and they differ. *)
Definition crossing (res : string) (e : edge) : bool :=
  truthy (getTraitFromNode e.1 res) && truthy (getTraitFromNode e.2 res)
  && trait_neq (getTraitFromNode e.1 res) (getTraitFromNode e.2 res).

Definition crossingEdges (res : string) (nodes : list node) : list edge :=
  filter (λ e, crossing res e) (edges nodes).

(** The resolved locations of an edge, and the key of its counter. *)
Definition edgeLocations (res : string) (e : edge)
  : option string * option string :=
  (getTraitFromNode e.1 res, getTraitFromNode e.2 res).

Definition edgeKey (res : string) (e : edge) : string :=
  pairKey (getTraitFromNode e.1 res) (getTraitFromNode e.2 res).

Definition edgeIndices (e : edge) : nat * nat := (arrayIdx e.1, arrayIdx e.2).

Definition edgeIdOf (e : edge) : string := edgeId (arrayIdx e.1) (arrayIdx e.2).

(** The events one edge contributes: one per origin offset that has a
    closest event. *)
Definition eventBlock tbl res colors vis (offsets : list Q) (e : edge)
    (ext : nat) : list transmission :=
  omap (λ oo,
    (maybeGetClosestTransmissionEvent e.1 e.2 tbl res colors vis oo ∅ ext).1)
    offsets.

Definition edgeStep tbl res colors vis offsets (st : tstate) (e : edge) : tstate :=
  transmissionChildStep tbl res colors vis offsets e.1 st e.2.

(** The running counter: the values [extend] takes along a list of keys. *)
Fixpoint extendsFrom (counts : gmap string nat) (keys : list string) : list nat :=
  match keys with
  | [] => []
  | k :: ks =>
      let c := S (default 0 (counts !! k)) in
      c :: extendsFrom (<[k := c]> counts) ks
  end.

(** One more than the number of crossing edges before position [i] whose
    counter key is that of [e]. *)
Definition extendOf (res : string) (ces : list edge) (i : nat) (e : edge) : nat :=
  S (length (filter (λ e', edgeKey res e' = edgeKey res e) (take i ces))).

(** The events of every crossing edge, edge by edge. *)
Definition eventBlocks tbl res colors vis (offsets : list Q) (nodes : list node)
  : list (list transmission) :=
  imap (λ i e, eventBlock tbl res colors vis offsets e
                 (extendOf res (crossingEdges res nodes) i e))
       (crossingEdges res nodes).

(** The count as C2 words it: 0 or 1 without triplication, 0, 1 or 3 with
    it. *)
Definition claimedRecordCount (triplicate : bool) (n : nat) : Prop :=
  if triplicate then n = 0 ∨ n = 1 ∨ n = 3 else n = 0 ∨ n = 1.

(** The repeat-edge counter as C7 words it: the [extend] of every record of
    a crossing edge is one more than the number of earlier crossing edges
    with the same ordered pair of locations. *)
Definition extendCountsOrderedPairs (nodes : list node) (vis : list nat)
    (res : string) (colors : list string) (triplicate : bool)
    (geo : geoTable) : Prop :=
  ∀ i e t,
    crossingEdges res nodes !! i = Some e →
    t ∈ r_transmissionData
          (setupTransmissionData nodes vis res colors triplicate geo) →
    t_id t = edgeIdOf e →
    t_extend t =
    S (length (filter (λ e', edgeLocations res e' = edgeLocations res e)
                 (take i (crossingEdges res nodes)))).

(** *** Demes: what one bucket contributes for one offset *)

Abbreviation bucket := (string * list (string * nat))%type.

Definition bucketPoints (b : bucket) : list nat :=
  map (λ c, default 0 (alookup c b.2)) (map fst b.2).

Definition bucketTotal (b : bucket) : nat :=
  if (0 <? length (bucketPoints b))%nat then foldr Nat.add 0 (bucketPoints b)
  else 0.

(** Latitude and longitude [setupDemeData] uses for a bucket: those of the
    table, the longitude shifted by the offset, or [0, 0] when the table has
    no entry. *)
Definition bucketLatLong (geo : geoTable) (res : string) (OFFSET : Q)
    (b : bucket) : Q * Q :=
  match geoLookup geo res (Some b.1) with
  | Some e => (latitude e, (longitude e + OFFSET)%Q)
  | None => (0%Q, 0%Q)
  end.

(** The Deme record of a bucket for an offset, if it gets one. *)
Definition demeFor (geo : geoTable) (res : string) (OFFSET : Q) (b : bucket)
  : option deme :=
  match geoLookup geo res (Some b.1) with
  | Some e =>
      if Qltb westBound (longitude e + OFFSET)
         && Qltb (longitude e + OFFSET) eastBound
      then Some {| d_name := b.1; d_count := bucketTotal b;
                   d_color := averageColorsDict b.2;
                   d_latitude := latitude e;
                   d_longitude := (longitude e + OFFSET)%Q;
                   d_coords := leafletLatLongToLayerPoint
                                 (Some (latitude e))
                                 (Some (longitude e + OFFSET)%Q) |}
      else None
  | None => None
  end.

(** The ArcSector records of a bucket for an offset. *)
Definition arcsFor (geo : geoTable) (res : string) (OFFSET : Q) (b : bucket)
  : list arc :=
  let '(lat, long) := bucketLatLong geo res OFFSET b in
  zip_with (λ c a,
    {| a_pie := a; a_color := c; a_count := bucketTotal b;
       a_latitude := lat; a_longitude := long;
       a_coords := leafletLatLongToLayerPoint (Some lat) (Some long) |})
    (map fst b.2) (pie (bucketPoints b)).

(** The positions of the records named [key]. *)
Definition positionsOf (key : string) (data : list deme) : list nat :=
  filter (λ i, d_name <$> data !! i = Some key) (seq 0 (length data)).

(** [demeIndices] lists, for each name, the positions of its records. *)
Definition indexed (st : dstate) : Prop :=
  index st = length (demeData st) ∧
  ∀ key, demeIndices st !! key =
         match positionsOf key (demeData st) with
         | [] => None
         | l => Some l
         end.

(** The exclusion rule as C6 words it: the aggregation returns whatever the
    table holds, and a bucket that gets no Deme record for an offset still
    has its arcs emitted for that offset. *)
Definition arcsStillEmitted (nodes : list node) (vis : list nat)
    (res : string) (colors : list string) (triplicate : bool)
    (geo : geoTable) : Prop :=
  ∃ r, setupDemeData nodes vis res colors triplicate geo = Some r ∧
    ∀ OFFSET b a,
      OFFSET ∈ offsetsOf triplicate →
      b ∈ getDemeColors nodes vis res colors →
      demeFor geo res OFFSET b = None →
      a ∈ arcsFor geo res OFFSET b → a ∈ r_arcData r.

(** *** Vocabulary for the indices, the missing locations and the counts *)

(** No tip is located at a name that objects inherit: [demeMap[location]]
    is then [undefined] until the location gets its bucket. *)
Definition ownLocations (nodes : list node) (res : string) : Prop :=
  ∀ n, n ∈ nodes → children n = None →
       propKey (getTraitFromNode n res) ∉ objectPrototypeNames.

(** A whole number of degrees: the sums and differences of such longitudes
    and of the offsets are exact in double precision. *)
Definition wholeDegrees (q : Q) : Prop := ∃ z : Z, (q == inject_Z z)%Q.

(** The positions of the records whose id is [id]. *)
Definition positionsOfId (id : string) (data : list transmission) : list nat :=
  filter (λ i, t_id <$> data !! i = Some id) (seq 0 (length data)).

(** The locations of an edge for which the table has no entry. *)
Definition missingOf (geo : geoTable) (res : string) (e : edge)
  : gset (option string) :=
  match geoLookup geo res (getTraitFromNode e.1 res) with
  | Some _ => ∅
  | None => {[getTraitFromNode e.1 res]}
  end ∪
  match geoLookup geo res (getTraitFromNode e.2 res) with
  | Some _ => ∅
  | None => {[getTraitFromNode e.2 res]}
  end.

Definition isTip (n : node) : bool :=
  match children n with
  | None => true
  | Some _ => false
  end.

(** The nodes with their positions in the array. *)
Definition indexedNodes (nodes : list node) : list (nat * node) :=
  zip (seq 0 (length nodes)) nodes.




(** A location that gets a Deme record for at least one of the offsets. *)
Definition hasDeme (geo : geoTable) (res : string) (offsets : list Q)
    (k : string) : Prop :=
  ∃ OFFSET e, OFFSET ∈ offsets ∧ geoLookup geo res (Some k) = Some e ∧
              inBand (longitude e + OFFSET).

(** The two passes of [getDemeColors], step by step. *)
Definition demeKeyStep (res : string) (demeMap : list (string * list (string * nat)))
    (n : node) : list (string * list (string * nat)) :=
  match children n with
  | None =>
      let location := getTraitFromNode n res in
      if truthy location then
        match alookup (propKey location) demeMap with
        | None => aset (propKey location) [] demeMap
        | Some _ => demeMap
        end
      else demeMap
  | Some _ => demeMap
  end.

Definition demeCountStep (vis : list nat) (res : string) (colors : list string)
    (demeMap : list (string * list (string * nat))) (it : nat * node)
  : list (string * list (string * nat)) :=
  match children it.2 with
  | None =>
      if isVisible NODE_NOT_VISIBLE vis it.1 then
        let location := getTraitFromNode it.2 res in
        if truthy location then
          match alookup (propKey location) demeMap with
          | Some bucket =>
              aset (propKey location)
                (bumpColor (propKey (colors !! it.1)) bucket) demeMap
          | None => demeMap
          end
        else demeMap
      else demeMap
  | Some _ => demeMap
  end.



(** What [patchDemes] writes into a record. *)
Definition patched (total : nat) (color : string) (d : deme) : deme :=
  {| d_name := d_name d; d_count := total; d_color := color;
     d_latitude := d_latitude d; d_longitude := d_longitude d;
     d_coords := d_coords d |}.


(** *** Facts about [minBy] *)

Lemma minBy_acc {A} (f : A → Q) (l : list A) (b : A) :
  ∃ x, fold_left (λ acc x,
    match acc with
    | None => Some x
    | Some best => if Qltb (f x) (f best) then Some x else Some best
    end) l (Some b) = Some x ∧ (x = b ∨ x ∈ l) ∧ (f x <= f b)%Q ∧
    ∀ y, y ∈ l → (f x <= f y)%Q.
Proof.
  revert b. induction l as [|a l IH]; intros b; simpl.
  - exists b. split; [done|]. split; [by left|]. split; [apply Qle_refl|].
    intros y Hy. by apply elem_of_nil in Hy.
  - destruct (Qltb (f a) (f b)) eqn:E.
    + destruct (IH a) as (x & Hx & Hin & Hle & Hall).
      exists x. split; [done|]. apply Qltb_lt in E.
      split; [|split].
      * right. destruct Hin as [->|Hin]; [left|by right].
      * eapply Qle_trans; [exact Hle|]. by apply Qlt_le_weak.
      * intros y [->|Hy]%elem_of_cons; auto.
    + destruct (IH b) as (x & Hx & Hin & Hle & Hall).
      exists x. split; [done|]. apply Qltb_ge in E.
      split; [|split].
      * destruct Hin as [->|Hin]; [by left|right; by right].
      * done.
      * intros y [->|Hy]%elem_of_cons; auto.
        eapply Qle_trans; [exact Hle|done].
Qed.

Lemma minBy_nil {A} (f : A → Q) : minBy f [] = None.
Proof. done. Qed.

Lemma minBy_Some {A} (f : A → Q) (l : list A) (x : A) :
  minBy f l = Some x → x ∈ l ∧ ∀ y, y ∈ l → (f x <= f y)%Q.
Proof.
  destruct l as [|a l]; [done|]. unfold minBy. simpl.
  destruct (minBy_acc f l a) as (x' & Hx & Hin & Hle & Hall).
  rewrite Hx. intros [= <-]. split.
  - destruct Hin as [->|Hin]; [left|by right].
  - intros y [->|Hy]%elem_of_cons; auto.
Qed.

Lemma minBy_None {A} (f : A → Q) (l : list A) :
  minBy f l = None ↔ l = [].
Proof.
  split; [|by intros ->].
  destruct l as [|a l]; [done|]. unfold minBy. simpl.
  destruct (minBy_acc f l a) as (x' & Hx & _). by rewrite Hx.
Qed.

(** *** Facts about the legality test *)

Lemma legalPair_spec lo ld :
  legalPair lo ld = true ↔
  (inBand lo ∨ inBand ld) ∧ (Qabs (lo - ld) < 180)%Q.
Proof.
  unfold legalPair, inBand, westBound, eastBound.
  rewrite !andb_true_iff, !orb_true_iff, !Qltb_lt.
  rewrite Qabs_Qlt_condition.
  split.
  - intros [[Hw He] [H1 H2]]. split; [|done].
    destruct Hw as [Hw|Hw], He as [He|He]; try (by left); try (by right).
    + destruct (Qlt_le_dec lo 360) as [Hlt|Hge]; [by left|].
      right. split; [lra|done].
    + destruct (Qlt_le_dec (-360) lo) as [Hlt|Hge]; [by left|].
      right. split; [done|lra].
  - intros [Hb [H1 H2]]. split; [split|done].
    + destruct Hb as [[? ?]|[? ?]]; [by left|by right].
    + destruct Hb as [[? ?]|[? ?]]; [by left|by right].
Qed.

Lemma maybeGetTransmissionPair_Some latOrig lo latDest ld :
  maybeGetTransmissionPair latOrig (Some lo) latDest (Some ld) =
  if legalPair lo ld
  then Some (leafletLatLongToLayerPoint latOrig (Some lo),
             leafletLatLongToLayerPoint latDest (Some ld))
  else None.
Proof. done. Qed.

Lemma maybeGetTransmissionPair_NaN_l latOrig latDest longDest :
  maybeGetTransmissionPair latOrig None latDest longDest = None.
Proof.
  unfold maybeGetTransmissionPair. simpl.
  by rewrite andb_false_r.
Qed.

Lemma maybeGetTransmissionPair_NaN_r latOrig longOrig latDest :
  maybeGetTransmissionPair latOrig longOrig latDest None = None.
Proof.
  unfold maybeGetTransmissionPair.
  destruct longOrig; simpl; by rewrite ?andb_false_r.
Qed.

(** *** One candidate event *)

Lemma construct_event_indep nd child tbl res colors vis oo od m1 m2 ext :
  (maybeConstructTransmissionEvent nd child tbl res colors vis oo od m1 ext).1 =
  (maybeConstructTransmissionEvent nd child tbl res colors vis oo od m2 ext).1.
Proof.
  unfold maybeConstructTransmissionEvent.
  destruct (geoLookup tbl res (getTraitFromNode nd res)),
           (geoLookup tbl res (getTraitFromNode child res));
    by destruct (maybeGetTransmissionPair _ _ _ _) as [[??]|].
Qed.

Lemma construct_event_Some_iff nd child tbl res colors vis oo od m ext :
  is_Some (maybeConstructTransmissionEvent nd child tbl res colors vis oo od m ext).1
  ↔ ∃ eo ed,
      geoLookup tbl res (getTraitFromNode nd res) = Some eo ∧
      geoLookup tbl res (getTraitFromNode child res) = Some ed ∧
      (inBand (longitude eo + oo) ∨ inBand (longitude ed + od)) ∧
      (Qabs ((longitude eo + oo) - (longitude ed + od)) < 180)%Q.
Proof.
  unfold maybeConstructTransmissionEvent.
  destruct (geoLookup tbl res (getTraitFromNode nd res)) as [eo|] eqn:Eo,
           (geoLookup tbl res (getTraitFromNode child res)) as [ed|] eqn:Ed.
  - unfold num_add. simpl. rewrite maybeGetTransmissionPair_Some.
    destruct (legalPair _ _) eqn:El; simpl.
    + apply legalPair_spec in El. split; [|by eauto].
      intros _. by exists eo, ed.
    + split; [by intros [? ?]|].
      intros (eo' & ed' & [= <-] & [= <-] & Hb).
      apply legalPair_spec in Hb. congruence.
  - change (num_add None od) with (@None Q).
    rewrite maybeGetTransmissionPair_NaN_r. simpl.
    split; [by intros [? ?]|]. by intros (? & ? & ? & ? & ?).
  - change (num_add None oo) with (@None Q).
    rewrite maybeGetTransmissionPair_NaN_l. simpl.
    split; [by intros [? ?]|]. by intros (? & ? & ? & ? & ?).
  - change (num_add None oo) with (@None Q).
    rewrite maybeGetTransmissionPair_NaN_l. simpl.
    split; [by intros [? ?]|]. by intros (? & ? & ? & ? & ?).
Qed.

Lemma construct_event_fields nd child tbl res colors vis oo od m ext t :
  (maybeConstructTransmissionEvent nd child tbl res colors vis oo od m ext).1 = Some t →
  t_id t = edgeId (arrayIdx nd) (arrayIdx child) ∧
  t_extend t = ext ∧
  t_originNode t = nd ∧ t_destinationNode t = child ∧
  t_color t = colors !! arrayIdx nd ∧
  t_visible t = visibleString (isVisible NODE_NOT_VISIBLE vis (arrayIdx child)).
Proof.
  unfold maybeConstructTransmissionEvent.
  destruct (geoLookup tbl res (getTraitFromNode nd res)),
           (geoLookup tbl res (getTraitFromNode child res));
    destruct (maybeGetTransmissionPair _ _ _ _) as [[??]|]; simpl;
    intros [= <-]; done.
Qed.

Lemma closest_fold nd child tbl res colors vis oo ext offs ev m :
  (fold_left (λ '(events, missing) offsetDest,
      let '(t, missing') :=
        maybeConstructTransmissionEvent nd child tbl res colors vis oo
          offsetDest missing ext in
      match t with
      | Some t => (events ++ [t], missing')
      | None => (events, missing')
      end) offs (ev, m)).1
  = ev ++ omap (λ od,
      (maybeConstructTransmissionEvent nd child tbl res colors vis oo od ∅ ext).1)
      offs.
Proof.
  revert ev m. induction offs as [|od offs IH]; intros ev m.
  - simpl. by rewrite app_nil_r.
  - pose proof (construct_event_indep nd child tbl res colors vis oo od ∅ m ext)
      as Hc.
    simpl. rewrite Hc.
    destruct (maybeConstructTransmissionEvent _ _ _ _ _ _ _ od m _) as [[t|] m'].
    + rewrite IH. simpl. by rewrite <- app_assoc.
    + by rewrite IH.
Qed.

Lemma closest_event_spec nd child tbl res colors vis oo m ext :
  (maybeGetClosestTransmissionEvent nd child tbl res colors vis oo m ext).1 =
  minBy separation (candidates nd child tbl res colors vis oo ext).
Proof.
  unfold maybeGetClosestTransmissionEvent, candidates.
  pose proof (closest_fold nd child tbl res colors vis oo ext destOffsets [] m) as H.
  destruct (fold_left _ destOffsets _) as [ev m'].
  cbn [fst app] in H. subst ev.
  by destruct (omap _ destOffsets).
Qed.

(** *** [setupTransmissionData] as a fold over edges *)

Lemma closest_event_indep nd child tbl res colors vis oo m1 m2 ext :
  (maybeGetClosestTransmissionEvent nd child tbl res colors vis oo m1 ext).1 =
  (maybeGetClosestTransmissionEvent nd child tbl res colors vis oo m2 ext).1.
Proof. by rewrite !closest_event_spec. Qed.

Lemma offsets_fold nd child tbl res colors vis ext offsets data m :
  (fold_left (λ '(data, missing) offsetOrig,
      let '(t, missing') :=
        maybeGetClosestTransmissionEvent nd child tbl res colors vis
          offsetOrig missing ext in
      match t with
      | Some t => (data ++ [t], missing')
      | None => (data, missing')
      end) offsets (data, m)).1
  = data ++ eventBlock tbl res colors vis offsets (nd, child) ext.
Proof.
  unfold eventBlock.
  revert data m. induction offsets as [|oo offsets IH]; intros data m.
  - simpl. by rewrite app_nil_r.
  - pose proof (closest_event_indep nd child tbl res colors vis oo ∅ m ext) as Hc.
    simpl in *. rewrite Hc.
    destruct (maybeGetClosestTransmissionEvent _ _ _ _ _ _ oo m _) as [[t|] m'].
    + rewrite IH. simpl. by rewrite <- app_assoc.
    + by rewrite IH.
Qed.

Lemma fold_nodes_edges tbl res colors vis offsets nodes st :
  fold_left (transmissionNodeStep tbl res colors vis offsets) nodes st =
  fold_left (edgeStep tbl res colors vis offsets) (edges nodes) st.
Proof.
  revert st. induction nodes as [|n nodes IH]; intros st; [done|].
  unfold edges. cbn [map concat fold_left].
  rewrite fold_left_app. fold (edges nodes). rewrite <- IH. f_equal.
  unfold transmissionNodeStep. destruct (children n) as [cs|]; [|done].
  generalize st. induction cs as [|c cs IHc]; intros st'; [done|].
  simpl. by rewrite IHc.
Qed.

Lemma edgeStep_skip tbl res colors vis offsets st e :
  crossing res e = false → edgeStep tbl res colors vis offsets st e = st.
Proof.
  unfold edgeStep, transmissionChildStep, crossing. by intros ->.
Qed.

Lemma edgeStep_crossing tbl res colors vis offsets st e :
  crossing res e = true →
  let ext := S (default 0 (demeToDemeCounts st !! edgeKey res e)) in
  demeToDemeCounts (edgeStep tbl res colors vis offsets st e)
    = <[edgeKey res e := ext]> (demeToDemeCounts st) ∧
  transmissionData (edgeStep tbl res colors vis offsets st e)
    = transmissionData st ++ eventBlock tbl res colors vis offsets e ext.
Proof.
  intros Hc. unfold edgeStep, transmissionChildStep.
  unfold crossing in Hc. rewrite Hc. fold (edgeKey res e).
  set (counts := match demeToDemeCounts st !! edgeKey res e with
                 | Some c => <[edgeKey res e := c + 1]> (demeToDemeCounts st)
                 | None => <[edgeKey res e := 1]> (demeToDemeCounts st)
                 end).
  assert (counts = <[edgeKey res e := S (default 0 (demeToDemeCounts st !! edgeKey res e))]>
                     (demeToDemeCounts st)) as Hcounts.
  { unfold counts. destruct (demeToDemeCounts st !! edgeKey res e); simpl; [|done].
    by rewrite Nat.add_1_r. }
  assert (default 0 (counts !! edgeKey res e)
          = S (default 0 (demeToDemeCounts st !! edgeKey res e))) as Hext.
  { rewrite Hcounts. by rewrite lookup_insert_eq. }
  rewrite Hext.
  pose proof (offsets_fold e.1 e.2 tbl res colors vis
    (S (default 0 (demeToDemeCounts st !! edgeKey res e))) offsets
    (transmissionData st) (demesMissingLatLongs st)) as Hf.
  destruct (fold_left _ offsets _) as [data m]. simpl in *.
  split; [done|]. rewrite Hf. by destruct e.
Qed.

Lemma fold_edges_data tbl res colors vis offsets es st :
  transmissionData (fold_left (edgeStep tbl res colors vis offsets) es st) =
  transmissionData st ++
  concat (zip_with (eventBlock tbl res colors vis offsets)
            (filter (λ e, crossing res e) es)
            (extendsFrom (demeToDemeCounts st)
               (map (edgeKey res) (filter (λ e, crossing res e) es)))).
Proof.
  revert st. induction es as [|e es IH]; intros st.
  - simpl. by rewrite app_nil_r.
  - cbn [fold_left]. rewrite IH. destruct (crossing res e) eqn:Hc.
    + rewrite filter_cons_True by (by rewrite Hc).
      destruct (edgeStep_crossing tbl res colors vis offsets st e Hc) as [-> ->].
      simpl. by rewrite <- app_assoc.
    + rewrite filter_cons_False by (rewrite Hc; exact id).
      by rewrite edgeStep_skip.
Qed.

Lemma extendsFrom_length counts keys :
  length (extendsFrom counts keys) = length keys.
Proof.
  revert counts. induction keys as [|k ks IH]; intros counts; [done|].
  simpl. by rewrite IH.
Qed.

Lemma extendsFrom_lookup counts keys i k :
  keys !! i = Some k →
  extendsFrom counts keys !! i =
  Some (S (default 0 (counts !! k)
           + length (filter (λ k', k' = k) (take i keys)))).
Proof.
  revert counts i. induction keys as [|k0 ks IH]; intros counts i Hi; [done|].
  destruct i as [|i].
  - simpl in Hi. injection Hi as ->. simpl. by rewrite Nat.add_0_r.
  - simpl in Hi. cbn [extendsFrom lookup list_lookup take].
    rewrite (IH _ _ Hi). f_equal.
    destruct (decide (k0 = k)) as [->|Hne].
    + rewrite lookup_insert_eq, filter_cons_True by done. simpl. lia.
    + by rewrite lookup_insert_ne, filter_cons_False by done.
Qed.

Lemma filter_fmap_length {A B} (f : A → B) (P : B → Prop) (Q : A → Prop)
    `{!∀ x, Decision (P x)} `{!∀ x, Decision (Q x)} (l : list A) :
  (∀ x, P (f x) ↔ Q x) →
  length (filter P (f <$> l)) = length (filter Q l).
Proof.
  intros HPQ. induction l as [|x l IH]; [done|]. rewrite fmap_cons.
  destruct (decide (Q x)) as [Hq|Hq].
  - rewrite (filter_cons_True Q) by done.
    rewrite (filter_cons_True P) by (by apply HPQ).
    simpl. by rewrite IH.
  - rewrite (filter_cons_False Q) by done.
    rewrite (filter_cons_False P) by (by rewrite HPQ).
    done.
Qed.

Lemma extendsFrom_extendOf res ces i e :
  ces !! i = Some e →
  extendsFrom ∅ (map (edgeKey res) ces) !! i = Some (extendOf res ces i e).
Proof.
  intros Hi.
  rewrite (extendsFrom_lookup _ _ i (edgeKey res e)).
  - rewrite lookup_empty. simpl. unfold extendOf. do 2 f_equal.
    change (map (edgeKey res) ces) with (edgeKey res <$> ces).
    rewrite <- fmap_take.
    by apply filter_fmap_length.
  - change (map (edgeKey res) ces) with (edgeKey res <$> ces).
    by rewrite list_lookup_fmap, Hi.
Qed.

Lemma setup_transmissionData nodes vis res colors triplicate geo :
  r_transmissionData (setupTransmissionData nodes vis res colors triplicate geo)
  = concat (eventBlocks geo res colors vis (offsetsOf triplicate) nodes).
Proof.
  unfold setupTransmissionData. cbn [r_transmissionData].
  rewrite fold_nodes_edges, fold_edges_data. cbn [transmissionData app demeToDemeCounts].
  f_equal. unfold eventBlocks. fold (crossingEdges res nodes).
  apply list_eq. intros i.
  rewrite lookup_zip_with, list_lookup_imap.
  destruct (crossingEdges res nodes !! i) as [e|] eqn:Hi; [|done].
  simpl. by rewrite (extendsFrom_extendOf res _ i e Hi).
Qed.

(** *** Keys and ids determine the pair they were built from *)

Lemma append_separator_inj (c : ascii) (a a' b b' : string) :
  hasChar c a = false → hasChar c a' = false →
  a +:+ String c b = a' +:+ String c b' → a = a' ∧ b = b'.
Proof.
  revert a'. induction a as [|x a IH]; intros [|x' a'] Ha Ha' H; simpl in *.
  - by injection H as ->.
  - injection H as -> _. by rewrite bool_decide_eq_true_2 in Ha'.
  - injection H as -> _. by rewrite bool_decide_eq_true_2 in Ha.
  - injection H as -> H.
    apply orb_false_iff in Ha as [_ Ha]. apply orb_false_iff in Ha' as [_ Ha'].
    destruct (IH a' Ha Ha' H) as [-> ->]. done.
Qed.

Lemma pretty_N_go_no_dash (x : N) (s : string) :
  hasChar "-" s = false → hasChar "-" (pretty_N_go x s) = false.
Proof.
  revert s. induction (N.lt_wf_0 x) as [x _ IH]; intros s Hs.
  destruct (decide (x = 0%N)) as [->|Hx]; [by rewrite pretty_N_go_0|].
  rewrite pretty_N_go_step by lia. apply IH; [apply N.div_lt; lia|].
  simpl. rewrite Hs, orb_false_r. apply bool_decide_eq_false.
  unfold pretty_N_char. by repeat case_match.
Qed.

Lemma pretty_nat_no_dash (n : nat) : hasChar "-" (pretty n) = false.
Proof.
  unfold pretty, pretty_nat, pretty, pretty_N.
  case_decide; [done|]. by apply pretty_N_go_no_dash.
Qed.

(** The id of an edge determines the two array indices. *)
Lemma edgeId_inj a b a' b' : edgeId a b = edgeId a' b' → a = a' ∧ b = b'.
Proof.
  unfold edgeId. intros H.
  apply append_separator_inj in H as [Ha Hb]; [|apply pretty_nat_no_dash..].
  split; by apply (inj pretty).
Qed.

(** The counter key determines the ordered pair of locations when the two
    origin names contain no comma. *)
Lemma pairKey_inj a b a' b' :
  hasChar "," a = false → hasChar "," a' = false →
  pairKey (Some a) (Some b) = pairKey (Some a') (Some b') →
  a = a' ∧ b = b'.
Proof. unfold pairKey. simpl. apply append_separator_inj. Qed.

(** *** What an emitted event carries *)

Lemma NoDup_edgeIds (es : list edge) :
  NoDup (edgeIndices <$> es) → NoDup (edgeIdOf <$> es).
Proof.
  intros H.
  assert (Inj (=) (=) (λ ab : nat * nat, edgeId ab.1 ab.2)) as Hinj.
  { intros [a b] [a' b'] Hab. simpl in Hab.
    by apply edgeId_inj in Hab as [-> ->]. }
  apply (NoDup_fmap_2 (λ ab : nat * nat, edgeId ab.1 ab.2)) in H.
  by rewrite <- list_fmap_compose in H.
Qed.

(** With comma-free origin names, equal counter keys mean equal ordered
    pairs of locations. *)
Lemma edgeKey_inj res (e e' : edge) a a' b b' :
  edgeLocations res e = (Some a, Some b) →
  edgeLocations res e' = (Some a', Some b') →
  hasChar "," a = false → hasChar "," a' = false →
  edgeKey res e' = edgeKey res e →
  edgeLocations res e' = edgeLocations res e.
Proof.
  unfold edgeLocations, edgeKey. intros [= -> ->] [= -> ->] Ha Ha' Hk.
  by apply pairKey_inj in Hk as [-> ->].
Qed.

Lemma candidates_elem nd child tbl res colors vis oo ext t :
  t ∈ candidates nd child tbl res colors vis oo ext →
  ∃ od, od ∈ destOffsets ∧
    (maybeConstructTransmissionEvent nd child tbl res colors vis oo od ∅ ext).1
    = Some t.
Proof. unfold candidates. by rewrite list_elem_of_omap. Qed.

Lemma eventBlock_elem tbl res colors vis offsets e ext t :
  t ∈ eventBlock tbl res colors vis offsets e ext →
  ∃ oo, oo ∈ offsets ∧
    minBy separation (candidates e.1 e.2 tbl res colors vis oo ext) = Some t.
Proof.
  unfold eventBlock. rewrite list_elem_of_omap.
  intros (oo & Hoo & Ht). exists oo.
  by rewrite <- (closest_event_spec _ _ _ _ _ _ _ ∅).
Qed.

Lemma eventBlock_fields tbl res colors vis offsets e ext t :
  t ∈ eventBlock tbl res colors vis offsets e ext →
  t_id t = edgeIdOf e ∧ t_extend t = ext.
Proof.
  intros (oo & _ & Hmin)%eventBlock_elem.
  apply minBy_Some in Hmin as [(od & _ & Hc)%candidates_elem _].
  apply construct_event_fields in Hc as (Hid & Hext & _). by unfold edgeIdOf.
Qed.

Lemma eventBlock_spec tbl res colors vis offsets e ext :
  eventBlock tbl res colors vis offsets e ext =
  omap (λ oo, minBy separation (candidates e.1 e.2 tbl res colors vis oo ext))
       offsets.
Proof.
  unfold eventBlock. apply list_omap_ext, Forall_Forall2_diag, Forall_true.
  intros oo. apply closest_event_spec.
Qed.

Lemma omap_length_filter {A B} (f : A → option B) (l : list A) :
  length (omap f l) = length (filter (λ x, is_Some (f x)) l).
Proof.
  induction l as [|x l IH]; [done|]. csimpl.
  destruct (f x) as [y|] eqn:E.
  - rewrite filter_cons_True by (by rewrite E). simpl. by rewrite IH.
  - rewrite filter_cons_False; [done|]. rewrite E. by intros [? ?].
Qed.

Lemma omap_length_le {A B} (f : A → option B) (l : list A) :
  length (omap f l) ≤ length l.
Proof.
  induction l as [|x l IH]; [done|]. csimpl. destruct (f x); simpl; lia.
Qed.

Lemma filter_all {A} (P : A → Prop) `{!∀ x, Decision (P x)} (l : list A) :
  Forall P l → filter P l = l.
Proof.
  induction 1 as [|x l Hx _ IH]; [done|].
  by rewrite filter_cons_True, IH.
Qed.

Lemma filter_none {A} (P : A → Prop) `{!∀ x, Decision (P x)} (l : list A) :
  Forall (λ x, ¬ P x) l → filter P l = [].
Proof.
  induction 1 as [|x l Hx _ IH]; [done|].
  by rewrite filter_cons_False.
Qed.

Lemma filter_iff_on {A} (P1 P2 : A → Prop)
    `{!∀ x, Decision (P1 x), !∀ x, Decision (P2 x)} (l : list A) :
  (∀ x, x ∈ l → P1 x ↔ P2 x) → filter P1 l = filter P2 l.
Proof.
  induction l as [|a l IH]; intros Hiff; [done|].
  assert (filter P1 l = filter P2 l) as Hl.
  { apply IH. intros x Hx. apply Hiff. by right. }
  destruct (decide (P1 a)) as [Ha|Ha].
  - rewrite (filter_cons_True P1) by done.
    rewrite (filter_cons_True P2) by (apply Hiff; [left|done]).
    by rewrite Hl.
  - rewrite (filter_cons_False P1) by done.
    rewrite (filter_cons_False P2); [done|].
    intros Ha'. apply Ha. apply Hiff; [left|done].
Qed.

Lemma filter_concat_unique {A} (P : A → Prop) `{!∀ x, Decision (P x)}
    (bs : list (list A)) (i : nat) (b : list A) :
  bs !! i = Some b →
  Forall P b →
  (∀ j b', bs !! j = Some b' → j ≠ i → Forall (λ x, ¬ P x) b') →
  filter P (concat bs) = b.
Proof.
  revert i. induction bs as [|b0 bs IH]; intros i Hi Hb Hothers; [done|].
  simpl. rewrite filter_app. destruct i as [|i].
  - simpl in Hi. injection Hi as ->.
    rewrite (filter_all P b) by done.
    assert (filter P (concat bs) = []) as ->; [|by rewrite app_nil_r].
    apply filter_none, Forall_concat, Forall_forall.
    intros b' [j Hj]%list_elem_of_lookup.
    by apply (Hothers (S j)).
  - simpl in Hi. rewrite (filter_none P b0).
    + simpl. apply (IH i); [done..|].
      intros j b' Hj Hne. apply (Hothers (S j)); [done|lia].
    + by apply (Hothers 0).
Qed.

Lemma eventBlocks_lookup tbl res colors vis offsets nodes i e :
  crossingEdges res nodes !! i = Some e →
  eventBlocks tbl res colors vis offsets nodes !! i =
  Some (eventBlock tbl res colors vis offsets e
          (extendOf res (crossingEdges res nodes) i e)).
Proof.
  intros Hi. unfold eventBlocks. by rewrite list_lookup_imap, Hi.
Qed.

Lemma eventBlock_extend tbl res colors vis offsets e ext :
  Forall (λ t, t_extend t = ext) (eventBlock tbl res colors vis offsets e ext).
Proof.
  apply Forall_forall. intros t Ht. by apply eventBlock_fields in Ht as [_ ?].
Qed.

(** *** Claims about [maybeGetClosestTransmissionEvent] *)

(** C3, as amended. A candidate is built for a destination offset exactly
    when both locations have coordinates, AT LEAST ONE of the two
    offset-adjusted longitudes lies strictly inside (-360, 360) and the
    absolute difference of the two is strictly below 180; the event returned
    for an origin offset is one of the candidates built and no candidate has
    a smaller |destinationCoords.x - originCoords.x|; nothing is returned
    exactly when no candidate was built. *)
Theorem closest_candidate_rule nd child tbl res colors vis oo m ext :
  (∀ od,
     is_Some (maybeConstructTransmissionEvent nd child tbl res colors vis
                oo od m ext).1
     ↔ ∃ eo ed,
         geoLookup tbl res (getTraitFromNode nd res) = Some eo ∧
         geoLookup tbl res (getTraitFromNode child res) = Some ed ∧
         (inBand (longitude eo + oo) ∨ inBand (longitude ed + od)) ∧
         (Qabs ((longitude eo + oo) - (longitude ed + od)) < 180)%Q) ∧
  (∀ t,
     (maybeGetClosestTransmissionEvent nd child tbl res colors vis oo m ext).1
       = Some t →
     t ∈ candidates nd child tbl res colors vis oo ext ∧
     ∀ c, c ∈ candidates nd child tbl res colors vis oo ext →
          (separation t <= separation c)%Q) ∧
  ((maybeGetClosestTransmissionEvent nd child tbl res colors vis oo m ext).1
     = None ↔ candidates nd child tbl res colors vis oo ext = []).
Proof.
  split; [|split].
  - intros od. apply construct_event_Some_iff.
  - intros t. rewrite closest_event_spec. apply minBy_Some.
  - rewrite closest_event_spec. apply minBy_None.
Qed.

(** *** Claims about [setupTransmissionData] *)

(** C2, as amended. When no two crossing edges join the same pair of array
    indices (so that their ids are pairwise distinct), the records carrying
    the id of a crossing edge are exactly the closest events of the origin
    offsets that have at least one candidate, one per such offset and in the
    order of the offsets: at most 1 without triplication, at most 3 (0, 1, 2
    or 3) with it; each record is a candidate of its origin offset with the
    smallest horizontal separation. *)
Theorem events_per_edge nodes vis res colors triplicate geo i e :
  crossingEdges res nodes !! i = Some e →
  NoDup (edgeIndices <$> crossingEdges res nodes) →
  let recs :=
    filter (λ t, t_id t = edgeIdOf e)
      (r_transmissionData
         (setupTransmissionData nodes vis res colors triplicate geo)) in
  let cands oo :=
    candidates e.1 e.2 geo res colors vis oo
      (extendOf res (crossingEdges res nodes) i e) in
  recs = omap (λ oo, minBy separation (cands oo)) (offsetsOf triplicate) ∧
  length recs
    = length (filter (λ oo, 0 < length (cands oo)) (offsetsOf triplicate)) ∧
  length recs ≤ (if triplicate then 3 else 1) ∧
  ∀ t, t ∈ recs →
    ∃ oo, oo ∈ offsetsOf triplicate ∧ t ∈ cands oo ∧
          ∀ c, c ∈ cands oo → (separation t <= separation c)%Q.
Proof.
  intros Hi Hnd. apply NoDup_edgeIds in Hnd. cbv zeta.
  set (ext := extendOf res (crossingEdges res nodes) i e).
  set (recs := filter _ _).
  assert (recs = eventBlock geo res colors vis (offsetsOf triplicate) e ext)
    as Hrecs.
  { unfold recs. rewrite setup_transmissionData.
    apply (filter_concat_unique _ _ i).
    - by apply eventBlocks_lookup.
    - apply Forall_forall. intros t Ht. by apply eventBlock_fields in Ht as [? _].
    - intros j b' Hj Hne. unfold eventBlocks in Hj.
      rewrite list_lookup_imap in Hj.
      destruct (crossingEdges res nodes !! j) as [e'|] eqn:Hj'; [|done].
      simpl in Hj. injection Hj as <-.
      apply Forall_forall. intros t Ht. apply eventBlock_fields in Ht as [-> _].
      intros Heq. apply Hne.
      apply (NoDup_lookup _ j i (edgeIdOf e)) in Hnd; [done|..].
      + rewrite list_lookup_fmap, Hj'. simpl. by rewrite Heq.
      + by rewrite list_lookup_fmap, Hi. }
  rewrite eventBlock_spec in Hrecs.
  split; [done|]. split; [|split].
  - rewrite Hrecs, omap_length_filter. f_equal.
    apply list_filter_iff. intros oo.
    destruct (minBy separation (candidates e.1 e.2 geo res colors vis oo ext))
      as [t|] eqn:Em.
    + apply minBy_Some in Em as [Hin _]. split; [intros _|by eauto].
      destruct (candidates _ _ _ _ _ _ _ _);
        [by apply elem_of_nil in Hin|simpl; lia].
    + apply minBy_None in Em. rewrite Em. simpl.
      split; [by intros [? ?]|lia].
  - rewrite Hrecs. etrans; [apply omap_length_le|]. by destruct triplicate.
  - intros t Ht. rewrite Hrecs in Ht.
    apply list_elem_of_omap in Ht as (oo & Hoo & Hmin).
    exists oo. split; [done|]. by apply minBy_Some.
Qed.


(** C7, as amended. The [extend] of a crossing edge is one more than the
    number of crossing edges met before it (in node-array and children
    order) with the same ordered pair of locations, PROVIDED no edge met
    before it has the same comma-joined key with a different ordered pair;
    the pair (A, B) is then counted apart from (B, A), and every offset
    variant of the edge carries that value. *)
Theorem extend_running_count nodes vis res colors triplicate geo i e :
  crossingEdges res nodes !! i = Some e →
  (∀ e', e' ∈ take i (crossingEdges res nodes) →
         edgeKey res e' = edgeKey res e →
         edgeLocations res e' = edgeLocations res e) →
  let ces := crossingEdges res nodes in
  let offsets := offsetsOf triplicate in
  let ext :=
    S (length (filter (λ e', edgeLocations res e' = edgeLocations res e)
                 (take i ces))) in
  r_transmissionData (setupTransmissionData nodes vis res colors triplicate geo)
    = concat (eventBlocks geo res colors vis offsets nodes) ∧
  eventBlocks geo res colors vis offsets nodes !! i
    = Some (eventBlock geo res colors vis offsets e ext) ∧
  Forall (λ t, t_extend t = ext) (eventBlock geo res colors vis offsets e ext).
Proof.
  intros Hi Hinj ces offsets ext.
  split; [apply setup_transmissionData|].
  split; [|apply eventBlock_extend].
  rewrite (eventBlocks_lookup _ _ _ _ _ _ i e Hi).
  do 2 f_equal. unfold extendOf, ext. fold ces. do 2 f_equal.
  apply filter_iff_on. intros e' He'. split.
  - by apply Hinj.
  - unfold edgeLocations, edgeKey. by intros [= -> ->].
Qed.

(** *** Facts about [setupDemeData] *)

Lemma demeFor_None geo res OFFSET b :
  demeFor geo res OFFSET b = None ↔
  geoLookup geo res (Some b.1) = None ∨
  ∃ e, geoLookup geo res (Some b.1) = Some e ∧ ¬ inBand (longitude e + OFFSET).
Proof.
  unfold demeFor, inBand.
  destruct (geoLookup geo res (Some b.1)) as [e|]; [|by split; [left|]].
  destruct (Qltb westBound _ && Qltb _ eastBound) eqn:E.
  - apply andb_true_iff in E as [E1%Qltb_lt E2%Qltb_lt].
    split; [done|]. intros [?|(e' & [= <-] & Hn)]; [done|]. by destruct Hn.
  - split; [|done]. intros _. right. exists e. split; [done|].
    intros [H1%Qltb_lt H2%Qltb_lt]. by rewrite H1, H2 in E.
Qed.

Lemma pushArcs_spec colors arcs total lat long coords acc acc' :
  pushArcs colors arcs total lat long coords acc = Some acc' →
  length colors ≤ length arcs ∧
  acc' = acc ++ zip_with (λ c a,
    {| a_pie := a; a_color := c; a_count := total;
       a_latitude := lat; a_longitude := long; a_coords := coords |})
    colors arcs.
Proof.
  revert arcs acc. induction colors as [|c colors IH]; intros arcs acc.
  - simpl. intros [= <-]. split; [lia|]. by rewrite app_nil_r.
  - destruct arcs as [|a arcs]; [done|]. simpl. intros H.
    apply IH in H as [Hlen ->]. split; [lia|]. by rewrite <- app_assoc.
Qed.

Lemma pushArcs_total colors arcs total lat long coords acc :
  length colors ≤ length arcs →
  is_Some (pushArcs colors arcs total lat long coords acc).
Proof.
  revert arcs acc. induction colors as [|c colors IH]; intros arcs acc Hlen.
  - by eexists.
  - destruct arcs as [|a arcs]; [simpl in Hlen; lia|]. simpl.
    apply IH. simpl in Hlen. lia.
Qed.

Lemma positionsOf_snoc key data d :
  positionsOf key (data ++ [d]) =
  positionsOf key data ++ (if decide (d_name d = key) then [length data] else []).
Proof.
  unfold positionsOf. rewrite length_app. simpl.
  rewrite Nat.add_1_r, seq_S, filter_app. simpl. f_equal.
  - apply filter_iff_on. intros i Hi.
    apply elem_of_seq in Hi. by rewrite lookup_app_l by lia.
  - rewrite filter_cons, filter_nil.
    rewrite lookup_app_r, Nat.sub_diag by lia. simpl.
    destruct (decide (d_name d = key)) as [->|Hne].
    + by rewrite decide_True.
    + rewrite decide_False; [done|]. by intros [= ?].
Qed.

Lemma demeStep_spec geo res OFFSET st b st' :
  demeStep geo res OFFSET st b = Some st' →
  demeData st' = demeData st ++ option_list (demeFor geo res OFFSET b) ∧
  arcData st' = arcData st ++ arcsFor geo res OFFSET b ∧
  length (arcsFor geo res OFFSET b) = length b.2 ∧
  (indexed st → indexed st').
Proof.
  unfold demeStep, demeFor, arcsFor, bucketLatLong, geoLookup.
  fold (bucketPoints b). simpl.
  destruct (geo !! res) as [table|]; [|done]. simpl.
  fold (bucketTotal b).
  assert (∀ d, indexed st → d_name d = b.1 →
    indexed {| demeData := demeData st ++ [d]; arcData := arcData st';
               demeIndices :=
                 match demeIndices st !! b.1 with
                 | Some l => <[b.1 := l ++ [index st]]> (demeIndices st)
                 | None => <[b.1 := [index st]]> (demeIndices st)
                 end;
               index := index st + 1 |}) as Hidx.
  { intros d [Hi Hk] Hd. split; simpl.
    - rewrite length_app. simpl. lia.
    - intros key. rewrite positionsOf_snoc, Hd.
      destruct (decide (b.1 = key)) as [<-|Hne].
      + rewrite Hk. destruct (positionsOf b.1 (demeData st)) as [|p l].
        * by rewrite lookup_insert_eq, Hi.
        * by rewrite lookup_insert_eq, Hi.
      + rewrite app_nil_r, <- Hk.
        destruct (demeIndices st !! b.1); by rewrite lookup_insert_ne. }
  destruct (table !! b.1) as [e|]; simpl.
  - destruct (pushArcs _ _ _ _ _ _ _) as [arcs'|] eqn:Ep; [|done]. simpl.
    apply pushArcs_spec in Ep as [Hlen ->].
    rewrite length_zip_with_l by done. rewrite length_map.
    rewrite andb_true_r.
    destruct (Qltb westBound _ && Qltb _ eastBound); intros [= <-]; simpl.
    + split; [done|]. split; [done|]. split; [done|].
      intros Hst. by apply Hidx.
    + rewrite app_nil_r. split; [done|]. split; [done|]. split; [done|].
      by intros [? ?].
  - destruct (pushArcs _ _ _ _ _ _ _) as [arcs'|] eqn:Ep; [|done]. simpl.
    apply pushArcs_spec in Ep as [Hlen ->].
    rewrite length_zip_with_l by done. rewrite length_map.
    rewrite ?andb_false_r. intros [= <-]; simpl.
    rewrite app_nil_r. split; [done|]. split; [done|]. split; [done|].
    by intros [? ?].
Qed.

Lemma demeStep_total geo res OFFSET st b table :
  geo !! res = Some table →
  (∀ l, length (pie l) = length l) →
  is_Some (demeStep geo res OFFSET st b).
Proof.
  intros Ht Hpie. unfold demeStep. rewrite Ht. simpl.
  destruct (table !! b.1) as [e|]; simpl.
  - edestruct pushArcs_total as [arcs' ->];
      [by rewrite Hpie, !length_map|].
    simpl.
    match goal with |- is_Some (if ?c then _ else _) => by destruct c end.
  - edestruct pushArcs_total as [arcs' ->];
      [by rewrite Hpie, !length_map|].
    simpl. rewrite ?andb_false_r. by eexists.
Qed.

Lemma fold_demeStep_spec geo res OFFSET bs st st' :
  foldlM (demeStep geo res OFFSET) st bs = Some st' →
  demeData st' = demeData st ++ omap (demeFor geo res OFFSET) bs ∧
  arcData st' = arcData st ++ concat (map (arcsFor geo res OFFSET) bs) ∧
  Forall (λ b, length (arcsFor geo res OFFSET b) = length b.2) bs ∧
  (indexed st → indexed st').
Proof.
  revert st. induction bs as [|b bs IH]; intros st.
  - simpl. intros [= <-]. by rewrite !app_nil_r.
  - cbn [foldlM]. destruct (demeStep geo res OFFSET st b) as [st1|] eqn:E1; [|done].
    intros H. apply IH in H as (Hd & Ha & Hl & Hi).
    apply demeStep_spec in E1 as (Hd1 & Ha1 & Hl1 & Hi1).
    rewrite Hd, Ha, Hd1, Ha1. csimpl.
    split; [|split; [|split]].
    + rewrite <- app_assoc. f_equal. by destruct (demeFor geo res OFFSET b).
    + by rewrite <- app_assoc.
    + by constructor.
    + auto.
Qed.

Lemma fold_offsets_spec geo res bs offsets st st' :
  foldlM (λ st OFFSET, foldlM (demeStep geo res OFFSET) st bs) st offsets
    = Some st' →
  demeData st' = demeData st ++
    concat (map (λ OFFSET, omap (demeFor geo res OFFSET) bs) offsets) ∧
  arcData st' = arcData st ++
    concat (map (λ OFFSET, concat (map (arcsFor geo res OFFSET) bs)) offsets) ∧
  Forall (λ OFFSET,
    Forall (λ b, length (arcsFor geo res OFFSET b) = length b.2) bs) offsets ∧
  (indexed st → indexed st').
Proof.
  revert st. induction offsets as [|o offsets IH]; intros st.
  - simpl. intros [= <-]. by rewrite !app_nil_r.
  - cbn [foldlM].
    destruct (foldlM (demeStep geo res o) st bs) as [st1|] eqn:E1; [|done].
    intros H. apply IH in H as (Hd & Ha & Hl & Hi).
    apply fold_demeStep_spec in E1 as (Hd1 & Ha1 & Hl1 & Hi1).
    rewrite Hd, Ha, Hd1, Ha1. simpl.
    split; [|split; [|split]].
    + by rewrite <- app_assoc.
    + by rewrite <- app_assoc.
    + by constructor.
    + auto.
Qed.

Lemma fold_demeStep_total geo res OFFSET bs st table :
  geo !! res = Some table →
  (∀ l, length (pie l) = length l) →
  is_Some (foldlM (demeStep geo res OFFSET) st bs).
Proof.
  intros Ht Hpie. revert st. induction bs as [|b bs IH]; intros st.
  - by eexists.
  - cbn [foldlM].
    destruct (demeStep_total geo res OFFSET st b table Ht Hpie) as [st1 ->].
    apply IH.
Qed.

Lemma fold_offsets_total geo res bs offsets st table :
  geo !! res = Some table →
  (∀ l, length (pie l) = length l) →
  is_Some (foldlM (λ st OFFSET, foldlM (demeStep geo res OFFSET) st bs)
             st offsets).
Proof.
  intros Ht Hpie. revert st. induction offsets as [|o offsets IH]; intros st.
  - by eexists.
  - cbn [foldlM].
    destruct (fold_demeStep_total geo res o bs st table Ht Hpie) as [st1 ->].
    apply IH.
Qed.

Lemma indexed_init :
  indexed {| demeData := []; arcData := []; demeIndices := ∅; index := 0 |}.
Proof. split; [done|]. intros key. apply lookup_empty. Qed.

(** The aggregation returns whenever the table has the resolution and [pie]
    returns one arc per datum, as d3's does. *)
Lemma setupDemeData_returns nodes vis res colors triplicate geo table :
  geo !! res = Some table →
  (∀ l, length (pie l) = length l) →
  is_Some (setupDemeData nodes vis res colors triplicate geo).
Proof.
  intros Ht Hpie. unfold setupDemeData.
  edestruct fold_offsets_total as [st ->]; [done..|]. by eexists.
Qed.

(** C6, as amended. The aggregation returns whenever the table has the
    resolution and [pie] gives one arc per datum. When it returns, for each
    longitude offset, a location bucket whose offset-adjusted longitude is
    outside the open band (-360, 360), or whose location has no coordinates
    in the table, contributes no Deme record and no [demeIndices] entry for
    that offset, while its ArcSector records, one per colour of the bucket,
    are still emitted for that offset; what a bucket contributes for one
    offset does not depend on the other offsets. *)
Theorem deme_exclusion_per_offset nodes vis res colors triplicate geo :
  let demeMap := getDemeColors nodes vis res colors in
  let offsets := offsetsOf triplicate in
  (is_Some (geo !! res) → (∀ l, length (pie l) = length l) →
   is_Some (setupDemeData nodes vis res colors triplicate geo)) ∧
  ∀ r, setupDemeData nodes vis res colors triplicate geo = Some r →
  r_demeData r
    = concat (map (λ OFFSET, omap (demeFor geo res OFFSET) demeMap) offsets) ∧
  r_arcData r
    = concat (map (λ OFFSET, concat (map (arcsFor geo res OFFSET) demeMap))
                offsets) ∧
  (∀ OFFSET b, OFFSET ∈ offsets → b ∈ demeMap →
     length (arcsFor geo res OFFSET b) = length b.2 ∧
     (demeFor geo res OFFSET b = None ↔
        geoLookup geo res (Some b.1) = None ∨
        ∃ e, geoLookup geo res (Some b.1) = Some e ∧
             ¬ inBand (longitude e + OFFSET))) ∧
  (∀ key, r_demeIndices r !! key =
          match positionsOf key (r_demeData r) with
          | [] => None
          | l => Some l
          end).
Proof.
  cbv zeta. split.
  { intros [table Ht] Hpie. by apply (setupDemeData_returns _ _ _ _ _ _ table). }
  unfold setupDemeData. intros r H.
  destruct (foldlM _ _ (offsetsOf triplicate)) as [st|] eqn:E; [|done].
  simpl in H. injection H as <-. simpl.
  apply fold_offsets_spec in E as (Hd & Ha & Hl & Hi). simpl in Hd, Ha.
  split; [done|]. split; [done|]. split.
  - intros OFFSET b Ho Hb. split; [|apply demeFor_None].
    rewrite Forall_forall in Hl. specialize (Hl OFFSET Ho).
    rewrite Forall_forall in Hl. by apply Hl.
  - by destruct (Hi indexed_init) as [_ Hk].
Qed.

(** *** The incremental patcher *)

Lemma trait_neq_refl v : trait_neq v v = false.
Proof. unfold trait_neq. by rewrite bool_decide_eq_true_2. Qed.

Lemma updateChildStep_unchanged indices vis res colors nd copy child :
  updateChildStep indices vis res colors nd copy child = copy.
Proof.
  unfold updateChildStep. by rewrite trait_neq_refl, andb_false_r.
Qed.

Lemma update_unchanged data indices nodes vis res colors :
  updateTransmissionDataColAndVis data indices nodes vis res colors = data.
Proof.
  unfold updateTransmissionDataColAndVis.
  revert data. induction nodes as [|nd nodes IH]; intros data; [done|].
  cbn [fold_left].
  assert (match children nd with
          | Some cs =>
              fold_left (updateChildStep indices vis res colors nd) cs data
          | None => data
          end = data) as ->; [|apply IH].
  destruct (children nd) as [cs|]; [|done].
  induction cs as [|c cs IHc]; [done|].
  simpl. by rewrite updateChildStep_unchanged.
Qed.

(** *** The index of the transmission records *)

#[local] Set Warnings "-clear-no-such-hyp".

Ltac sets :=
  try clear pie; try clear averageColorsDict; try clear bezier;
  try clear interpolateNumber; try clear latLngToLayerPoint;
  try clear NODE_NOT_VISIBLE; set_solver.

Lemma positionsOfId_snoc id data t :
  positionsOfId id (data ++ [t]) =
  positionsOfId id data ++ (if decide (t_id t = id) then [length data] else []).
Proof.
  unfold positionsOfId. rewrite length_app. simpl.
  rewrite Nat.add_1_r, seq_S, filter_app. simpl. f_equal.
  - apply filter_iff_on. intros i Hi.
    apply elem_of_seq in Hi. by rewrite lookup_app_l by lia.
  - rewrite filter_cons, filter_nil.
    rewrite lookup_app_r, Nat.sub_diag by lia. simpl.
    destruct (decide (t_id t = id)) as [->|Hne].
    + by rewrite decide_True.
    + rewrite decide_False; [done|]. by intros [= ?].
Qed.

Lemma buildTransmissionIndices_spec data id :
  buildTransmissionIndices data !! id =
  match positionsOfId id data with
  | [] => None
  | l => Some l
  end.
Proof.
  unfold buildTransmissionIndices.
  induction data as [|t data IH] using rev_ind; [apply lookup_empty|].
  rewrite length_app. simpl. rewrite Nat.add_1_r, seq_S. simpl.
  rewrite zip_with_app by (by rewrite length_seq).
  rewrite fold_left_app. simpl. rewrite positionsOfId_snoc.
  unfold indexStep at 1. simpl.
  destruct (decide (t_id t = id)) as [<-|Hne].
  - rewrite IH. destruct (positionsOfId (t_id t) data) as [|p l].
    + by rewrite lookup_insert_eq.
    + by rewrite lookup_insert_eq.
  - rewrite app_nil_r, <- IH.
    destruct (fold_left indexStep _ ∅ !! t_id t); by rewrite lookup_insert_ne.
Qed.

Lemma positionsOfId_elem id data i :
  i ∈ positionsOfId id data ↔ ∃ t, data !! i = Some t ∧ t_id t = id.
Proof.
  unfold positionsOfId. rewrite list_elem_of_filter, elem_of_seq. split.
  - intros [Hid _]. destruct (data !! i) as [t|]; [|done].
    exists t. split; [done|]. by injection Hid.
  - intros (t & Ht & <-). rewrite Ht. split; [done|].
    apply lookup_lt_Some in Ht. lia.
Qed.

(** X1. [transmissionIndices] is the index of [transmissionData] by id: an
    id is a key exactly when some record carries it, and its entry lists, in
    increasing order, the positions of the records that carry it. *)
Theorem transmission_indices_list_positions nodes vis res colors triplicate geo :
  let r := setupTransmissionData nodes vis res colors triplicate geo in
  (∀ id, r_transmissionIndices r !! id =
         match positionsOfId id (r_transmissionData r) with
         | [] => None
         | l => Some l
         end) ∧
  (∀ id l i, r_transmissionIndices r !! id = Some l → i ∈ l →
     ∃ t, r_transmissionData r !! i = Some t ∧ t_id t = id) ∧
  (∀ i t, r_transmissionData r !! i = Some t →
     ∃ l, r_transmissionIndices r !! t_id t = Some l ∧ i ∈ l).
Proof.
  cbv zeta. unfold setupTransmissionData. cbn [r_transmissionData r_transmissionIndices].
  set (data := transmissionData _).
  split; [apply buildTransmissionIndices_spec|]. split.
  - intros id l i Hl Hi. rewrite buildTransmissionIndices_spec in Hl.
    apply positionsOfId_elem.
    destruct (positionsOfId id data); [done|]. by injection Hl as <-.
  - intros i t Ht. rewrite buildTransmissionIndices_spec.
    assert (i ∈ positionsOfId (t_id t) data) as Hi.
    { apply positionsOfId_elem. by exists t. }
    destruct (positionsOfId (t_id t) data) as [|p l] eqn:E.
    + by apply elem_of_nil in Hi.
    + by exists (p :: l).
Qed.

(** *** The locations without coordinates *)

Lemma construct_event_missing nd child tbl res colors vis oo od m ext :
  (maybeConstructTransmissionEvent nd child tbl res colors vis oo od m ext).2
  = missingOf tbl res (nd, child) ∪ m.
Proof.
  unfold maybeConstructTransmissionEvent, missingOf. cbn [fst snd].
  destruct (geoLookup tbl res (getTraitFromNode nd res)),
           (geoLookup tbl res (getTraitFromNode child res));
    destruct (maybeGetTransmissionPair _ _ _ _) as [[??]|]; cbn [snd];
    sets.
Qed.

Lemma closest_fold_missing nd child tbl res colors vis oo ext offs ev m :
  (fold_left (λ '(events, missing) offsetDest,
      let '(t, missing') :=
        maybeConstructTransmissionEvent nd child tbl res colors vis oo
          offsetDest missing ext in
      match t with
      | Some t => (events ++ [t], missing')
      | None => (events, missing')
      end) offs (ev, m)).2
  = match offs with
    | [] => m
    | _ => missingOf tbl res (nd, child) ∪ m
    end.
Proof.
  revert ev m. induction offs as [|od offs IH]; intros ev m; [done|].
  pose proof (construct_event_missing nd child tbl res colors vis oo od m ext)
    as Hc.
  cbn [fold_left].
  destruct (maybeConstructTransmissionEvent _ _ _ _ _ _ _ od m _) as [[t|] m'];
    cbn [snd] in Hc; subst m'; rewrite IH; destruct offs; sets.
Qed.

Lemma closest_event_missing nd child tbl res colors vis oo m ext :
  (maybeGetClosestTransmissionEvent nd child tbl res colors vis oo m ext).2
  = missingOf tbl res (nd, child) ∪ m.
Proof.
  unfold maybeGetClosestTransmissionEvent.
  pose proof (closest_fold_missing nd child tbl res colors vis oo ext
                destOffsets [] m) as H.
  destruct (fold_left _ destOffsets _) as [ev m'].
  cbn [snd destOffsets] in H. subst m'. by destruct (0 <? length ev)%nat.
Qed.

Lemma offsets_fold_missing nd child tbl res colors vis ext offsets data m :
  (fold_left (λ '(data, missing) offsetOrig,
      let '(t, missing') :=
        maybeGetClosestTransmissionEvent nd child tbl res colors vis
          offsetOrig missing ext in
      match t with
      | Some t => (data ++ [t], missing')
      | None => (data, missing')
      end) offsets (data, m)).2
  = match offsets with
    | [] => m
    | _ => missingOf tbl res (nd, child) ∪ m
    end.
Proof.
  revert data m. induction offsets as [|oo offsets IH]; intros data m; [done|].
  pose proof (closest_event_missing nd child tbl res colors vis oo m ext) as Hc.
  cbn [fold_left].
  destruct (maybeGetClosestTransmissionEvent _ _ _ _ _ _ oo m _) as [[t|] m'];
    cbn [snd] in Hc; subst m'; rewrite IH; destruct offsets; sets.
Qed.

Lemma edgeStep_missing tbl res colors vis triplicate st e :
  demesMissingLatLongs (edgeStep tbl res colors vis (offsetsOf triplicate) st e)
  = (if crossing res e then missingOf tbl res e else ∅)
    ∪ demesMissingLatLongs st.
Proof.
  unfold edgeStep, transmissionChildStep. fold (crossing res e).
  destruct (crossing res e); [|sets].
  match goal with
  | |- context [fold_left ?f (offsetsOf triplicate) (?d, ?m)] =>
      pose proof (offsets_fold_missing e.1 e.2 tbl res colors vis
        (default 0
           (match demeToDemeCounts st !! pairKey (getTraitFromNode e.1 res)
                                           (getTraitFromNode e.2 res) with
            | Some c => <[pairKey (getTraitFromNode e.1 res)
                            (getTraitFromNode e.2 res) := c + 1]>
                          (demeToDemeCounts st)
            | None => <[pairKey (getTraitFromNode e.1 res)
                          (getTraitFromNode e.2 res) := 1]>
                        (demeToDemeCounts st)
            end !! pairKey (getTraitFromNode e.1 res)
                     (getTraitFromNode e.2 res)))
        (offsetsOf triplicate) d m) as Hf
  end.
  destruct (fold_left _ (offsetsOf triplicate) _) as [data m'].
  cbn [snd demesMissingLatLongs] in *. subst m'.
  destruct e. by destruct triplicate.
Qed.

Lemma fold_edges_missing tbl res colors vis triplicate es st :
  demesMissingLatLongs
    (fold_left (edgeStep tbl res colors vis (offsetsOf triplicate)) es st)
  = ⋃ (missingOf tbl res <$> filter (λ e, crossing res e) es)
    ∪ demesMissingLatLongs st.
Proof.
  revert st. induction es as [|e es IH]; intros st; [sets|].
  cbn [fold_left]. rewrite IH, edgeStep_missing.
  destruct (crossing res e) eqn:Hc.
  - rewrite filter_cons_True by (by rewrite Hc). sets.
  - rewrite filter_cons_False by (rewrite Hc; exact id). sets.
Qed.

(** X2. A location whose name objects do not inherit is in
    [demesMissingLatLongs] exactly when it is the origin or the destination
    of a crossing edge and the geographic table has no entry for it (the
    resolution, too, being a name that objects do not inherit). *)
Theorem missing_locations_are_those_without_entry
    nodes vis res colors triplicate geo loc :
  res ∉ objectPrototypeNames → propKey loc ∉ objectPrototypeNames →
  loc ∈ r_demesMissingLatLongs
          (setupTransmissionData nodes vis res colors triplicate geo)
  ↔ ∃ e, e ∈ crossingEdges res nodes ∧
         (loc = getTraitFromNode e.1 res ∨ loc = getTraitFromNode e.2 res) ∧
         geoLookup geo res loc = None.
Proof.
  intros _ _.
  unfold setupTransmissionData. cbn [r_demesMissingLatLongs].
  rewrite fold_nodes_edges, fold_edges_missing. cbn [demesMissingLatLongs].
  fold (crossingEdges res nodes).
  rewrite elem_of_union, elem_of_union_list. split.
  - intros [(X & HX & Hloc)|Hloc]; [|sets].
    apply list_elem_of_fmap in HX as (e & -> & He).
    exists e. split; [done|]. unfold missingOf in Hloc.
    destruct (geoLookup geo res (getTraitFromNode e.1 res)) eqn:E1,
             (geoLookup geo res (getTraitFromNode e.2 res)) eqn:E2;
      sets.
  - intros (e & He & Hloc & Hnone). left.
    exists (missingOf geo res e). split; [apply list_elem_of_fmap; eauto|].
    unfold missingOf. destruct Hloc as [->| ->]; rewrite Hnone; sets.
Qed.

(** *** What every emitted record holds *)

Lemma construct_event_inv nd child tbl res colors vis oo od m ext t :
  (maybeConstructTransmissionEvent nd child tbl res colors vis oo od m ext).1
    = Some t →
  ∃ eo ed,
    geoLookup tbl res (getTraitFromNode nd res) = Some eo ∧
    geoLookup tbl res (getTraitFromNode child res) = Some ed ∧
    legalPair (longitude eo + oo) (longitude ed + od) = true ∧
    t_originName t = getTraitFromNode nd res ∧
    t_destinationName t = getTraitFromNode child res ∧
    t_originLatitude t = Some (latitude eo) ∧
    t_originLongitude t = Some (longitude eo + oo)%Q ∧
    t_destinationLatitude t = Some (latitude ed) ∧
    t_destinationLongitude t = Some (longitude ed + od)%Q ∧
    t_originCoords t
      = leafletLatLongToLayerPoint (t_originLatitude t) (t_originLongitude t) ∧
    t_destinationCoords t
      = leafletLatLongToLayerPoint (t_destinationLatitude t)
          (t_destinationLongitude t) ∧
    t_bezierCurve t
      = constructBcurve (t_originCoords t) (t_destinationCoords t) (t_extend t) ∧
    length (t_bezierDates t) = length (t_bezierCurve t) ∧
    t_originNumDate t = num_date nd ∧
    t_destinationNumDate t = num_date child.
Proof.
  unfold maybeConstructTransmissionEvent.
  destruct (geoLookup tbl res (getTraitFromNode nd res)) as [eo|] eqn:Eo,
           (geoLookup tbl res (getTraitFromNode child res)) as [ed|] eqn:Ed.
  - unfold num_add. simpl. rewrite maybeGetTransmissionPair_Some.
    destruct (legalPair _ _) eqn:El; simpl; [|done].
    intros [= <-]. exists eo, ed. simpl. rewrite length_imap. by repeat split.
  - change (num_add None od) with (@None Q).
    by rewrite maybeGetTransmissionPair_NaN_r.
  - change (num_add None oo) with (@None Q).
    by rewrite maybeGetTransmissionPair_NaN_l.
  - change (num_add None oo) with (@None Q).
    by rewrite maybeGetTransmissionPair_NaN_l.
Qed.

Lemma transmissionData_elem nodes vis res colors triplicate geo t :
  t ∈ r_transmissionData
        (setupTransmissionData nodes vis res colors triplicate geo) →
  ∃ e oo od,
    e ∈ crossingEdges res nodes ∧ oo ∈ offsetsOf triplicate ∧
    od ∈ destOffsets ∧
    ∃ ext, (maybeConstructTransmissionEvent e.1 e.2 geo res colors vis oo od
              ∅ ext).1 = Some t.
Proof.
  rewrite setup_transmissionData. intros Ht.
  apply list_elem_of_In, in_concat in Ht as (block & Hblock & Ht).
  apply list_elem_of_In in Ht.
  apply list_elem_of_In, list_elem_of_lookup in Hblock as [i Hi].
  unfold eventBlocks in Hi. rewrite list_lookup_imap in Hi.
  destruct (crossingEdges res nodes !! i) as [e|] eqn:He; [|done].
  simpl in Hi. injection Hi as <-.
  apply eventBlock_elem in Ht as (oo & Hoo & Hmin).
  apply minBy_Some in Hmin as [(od & Hod & Hc)%candidates_elem _].
  exists e, oo, od. split; [by eapply list_elem_of_lookup_2|].
  split; [done|]. split; [done|]. by eexists.
Qed.

(** X3. Every record of [transmissionData] belongs to a crossing edge, both
    of whose locations have coordinates. Its two longitudes are those of the
    table shifted by an origin offset in use and by one of -360, 0, 360;
    they are less than 180 degrees apart and at least one lies strictly
    inside (-360, 360). Its coordinates are the projections of the recorded
    latitudes and longitudes, its curve joins them, and it has one date per
    point of the curve. *)
Theorem records_are_well_formed nodes vis res colors triplicate geo t :
  t ∈ r_transmissionData
        (setupTransmissionData nodes vis res colors triplicate geo) →
  ∃ e eo ed oo od,
    e ∈ crossingEdges res nodes ∧ oo ∈ offsetsOf triplicate ∧
    od ∈ destOffsets ∧
    geoLookup geo res (getTraitFromNode e.1 res) = Some eo ∧
    geoLookup geo res (getTraitFromNode e.2 res) = Some ed ∧
    t_id t = edgeIdOf e ∧
    t_originNode t = e.1 ∧ t_destinationNode t = e.2 ∧
    t_originName t = getTraitFromNode e.1 res ∧
    t_destinationName t = getTraitFromNode e.2 res ∧
    t_originLatitude t = Some (latitude eo) ∧
    t_originLongitude t = Some (longitude eo + oo)%Q ∧
    t_destinationLatitude t = Some (latitude ed) ∧
    t_destinationLongitude t = Some (longitude ed + od)%Q ∧
    (Qabs ((longitude eo + oo) - (longitude ed + od)) < 180)%Q ∧
    (inBand (longitude eo + oo) ∨ inBand (longitude ed + od)) ∧
    t_originCoords t
      = leafletLatLongToLayerPoint (t_originLatitude t) (t_originLongitude t) ∧
    t_destinationCoords t
      = leafletLatLongToLayerPoint (t_destinationLatitude t)
          (t_destinationLongitude t) ∧
    t_bezierCurve t
      = constructBcurve (t_originCoords t) (t_destinationCoords t) (t_extend t) ∧
    length (t_bezierDates t) = length (t_bezierCurve t) ∧
    t_color t = colors !! arrayIdx e.1 ∧
    t_visible t
      = visibleString (isVisible NODE_NOT_VISIBLE vis (arrayIdx e.2)).
Proof.
  intros (e & oo & od & He & Hoo & Hod & ext & Hc)%transmissionData_elem.
  pose proof (construct_event_fields _ _ _ _ _ _ _ _ _ _ _ Hc)
    as (Hid & _ & Hn1 & Hn2 & Hcol & Hvis).
  apply construct_event_inv in Hc
    as (eo & ed & Ho & Hd & Hl & H1 & H2 & H3 & H4 & H5 & H6 & H7 & H8 & H9
        & H10 & _).
  apply legalPair_spec in Hl as [Hband Habs].
  exists e, eo, ed, oo, od. by repeat split.
Qed.

(** *** Edges on a map that is not triplicated *)

Lemma candidates_nil nd child tbl res colors vis oo ext :
  candidates nd child tbl res colors vis oo ext = [] ↔
  ∀ od, od ∈ destOffsets →
    (maybeConstructTransmissionEvent nd child tbl res colors vis oo od ∅ ext).1
    = None.
Proof.
  unfold candidates. split.
  - intros Hnil od Hod.
    destruct (maybeConstructTransmissionEvent _ _ _ _ _ _ _ od _ _).1
      as [t|] eqn:E; [|done].
    assert (t ∈ @nil transmission) as Hin; [|by apply elem_of_nil in Hin].
    rewrite <- Hnil. apply list_elem_of_omap. by exists od.
  - intros Hall.
    destruct (omap _ destOffsets) as [|t l] eqn:E; [done|].
    assert (t ∈ t :: l) as Hin by left. rewrite <- E in Hin.
    apply list_elem_of_omap in Hin as (od & Hod & Ht).
    by rewrite (Hall od Hod) in Ht.
Qed.

(** X4. On a map that is not triplicated (origin offset 0), a parent and a
    child whose locations have longitudes within [-180, 180], in whole
    degrees, get an event unless the two longitudes are exactly 180 degrees
    apart: such an edge has no candidate for any of the three destination
    offsets. *)
Theorem half_turn_edges_get_no_event nd child tbl res colors vis m ext eo ed :
  geoLookup tbl res (getTraitFromNode nd res) = Some eo →
  geoLookup tbl res (getTraitFromNode child res) = Some ed →
  wholeDegrees (longitude eo) → wholeDegrees (longitude ed) →
  (-180 <= longitude eo)%Q → (longitude eo <= 180)%Q →
  (-180 <= longitude ed)%Q → (longitude ed <= 180)%Q →
  (maybeGetClosestTransmissionEvent nd child tbl res colors vis 0 m ext).1
    = None
  ↔ (Qabs (longitude eo - longitude ed) == 180)%Q.
Proof.
  intros Ho Hd _ _ Ho1 Ho2 Hd1 Hd2.
  rewrite closest_event_spec, minBy_None, candidates_nil.
  assert (∀ od, (maybeConstructTransmissionEvent nd child tbl res colors vis
                   0 od ∅ ext).1 = None
                ↔ ¬ (Qabs (longitude eo + 0 - (longitude ed + od)) < 180)%Q)
    as Hnone.
  { intros od. rewrite eq_None_not_Some, construct_event_Some_iff. split.
    - intros Hn Habs. apply Hn. exists eo, ed. repeat split; try done.
      left. unfold inBand, westBound, eastBound. lra.
    - intros Hn (eo' & ed' & Ho' & Hd' & _ & Habs).
      rewrite Ho in Ho'. rewrite Hd in Hd'.
      injection Ho' as <-. injection Hd' as <-. done. }
  split.
  - intros Hall.
    assert ((-360)%Q ∈ destOffsets ∧ 0%Q ∈ destOffsets ∧ 360%Q ∈ destOffsets)
      as (M1 & M2 & M3) by (unfold destOffsets; repeat split; repeat constructor).
    pose proof (proj1 (Hnone (-360)%Q) (Hall _ M1)) as H1.
    pose proof (proj1 (Hnone 0%Q) (Hall _ M2)) as H2.
    pose proof (proj1 (Hnone 360%Q) (Hall _ M3)) as H3.
    rewrite Qabs_Qlt_condition in H1, H2, H3.
    apply Qabs_case; intros Hsign; lra.
  - intros Heq od Hod. apply Hnone. rewrite Qabs_Qlt_condition.
    revert Heq. apply Qabs_case; intros Hsign Heq;
      unfold destOffsets in Hod;
      repeat (apply elem_of_cons in Hod as [->|Hod]); try (by apply elem_of_nil in Hod);
      lra.
Qed.

(** *** The aggregation of the tips by location *)

Lemma fold_left_pointwise {A B} (f g : A → B → A) (l : list B) (a : A) :
  (∀ a b, f a b = g a b) → fold_left f l a = fold_left g l a.
Proof.
  intros Hfg. revert a. induction l as [|b l IH]; intros a; [done|].
  simpl. by rewrite Hfg, IH.
Qed.

Lemma getDemeColors_passes nodes vis res colors :
  getDemeColors nodes vis res colors =
  fold_left (demeCountStep vis res colors) (indexedNodes nodes)
    (fold_left (demeKeyStep res) nodes []).
Proof.
  unfold getDemeColors, indexedNodes.
  apply fold_left_pointwise. by intros dm [i n].
Qed.

Lemma alookup_None_keys {A} k (o : list (string * A)) :
  alookup k o = None ↔ k ∉ map fst o.
Proof.
  split.
  - intros Hn Hin. apply alookup_keys_Some in Hin as [v Hv]. congruence.
  - intros Hn. destruct (alookup k o) as [v|] eqn:E; [|done].
    by apply alookup_Some_keys in E.
Qed.


Lemma aset_absent {A} k (v : A) o :
  alookup k o = None → aset k v o = o ++ [(k, v)].
Proof.
  induction o as [|[k0 v0] o IH]; simpl; [done|].
  destruct (String.eqb k k0); [done|]. intros H. by rewrite IH.
Qed.

Lemma aset_keys_present {A} k (v : A) o :
  is_Some (alookup k o) → map fst (aset k v o) = map fst o.
Proof.
  induction o as [|[k0 v0] o IH]; simpl; [by intros [? ?]|].
  destruct (String.eqb k k0); [done|]. intros H. simpl. by rewrite IH.
Qed.








Lemma demeKeyStep_spec res dm n :
  NoDup (map fst dm) → Forall (λ kv, kv.2 = []) dm → "" ∉ map fst dm →
  NoDup (map fst (demeKeyStep res dm n)) ∧
  Forall (λ kv, kv.2 = []) (demeKeyStep res dm n) ∧
  ("" ∉ map fst (demeKeyStep res dm n)) ∧
  (∀ k, k ∈ map fst (demeKeyStep res dm n) ↔
        k ∈ map fst dm ∨
        (isTip n = true ∧ getTraitFromNode n res = Some k ∧ k ≠ "")).
Proof.
  intros Hnd Hnil He. unfold demeKeyStep, isTip.
  destruct (children n) as [cs|].
  { repeat split; try done. - by left. - by intros [?|[? _]]. }
  destruct (getTraitFromNode n res) as [s|] eqn:Et; simpl.
  2:{ repeat split; try done. - by left. - by intros [?|(_ & ? & _)]. }
  destruct (String.eqb s "") eqn:Es; simpl.
  { apply String.eqb_eq in Es as ->.
    repeat split; try done. - by left. - by intros [?|(_ & [= <-] & ?)]. }
  apply String.eqb_neq in Es.
  destruct (alookup s dm) as [b|] eqn:El.
  - repeat split; try done; [by left|].
    intros [?|(_ & [= <-] & _)]; [done|]. by apply (alookup_Some_keys _ b).
  - rewrite aset_absent by done. rewrite map_app. simpl.
    split; [|split; [|split]].
    + apply NoDup_app. split; [done|]. split; [|apply NoDup_singleton].
      intros x Hx ->%list_elem_of_singleton. by apply alookup_None_keys in El.
    + apply Forall_app. split; [done|]. by constructor.
    + intros [?|Hin%list_elem_of_singleton]%elem_of_app; [done|].
      by apply Es.
    + intros k. rewrite elem_of_app, list_elem_of_singleton. split.
      * intros [?| ->]; [by left|]. by right.
      * intros [?|(_ & [= <-] & _)]; [by left|by right].
Qed.

Lemma fold_demeKeyStep_spec res nodes dm :
  NoDup (map fst dm) → Forall (λ kv, kv.2 = []) dm → "" ∉ map fst dm →
  NoDup (map fst (fold_left (demeKeyStep res) nodes dm)) ∧
  Forall (λ kv, kv.2 = []) (fold_left (demeKeyStep res) nodes dm) ∧
  ("" ∉ map fst (fold_left (demeKeyStep res) nodes dm)) ∧
  (∀ k, k ∈ map fst (fold_left (demeKeyStep res) nodes dm) ↔
        k ∈ map fst dm ∨
        ∃ n, n ∈ nodes ∧ isTip n = true ∧ getTraitFromNode n res = Some k ∧
             k ≠ "").
Proof.
  revert dm. induction nodes as [|n nodes IH]; intros dm Hnd Hnil He.
  - simpl. repeat split; try done; [by left|].
    intros [?|(n & Hn & _)]; [done|]. by apply elem_of_nil in Hn.
  - cbn [fold_left].
    destruct (demeKeyStep_spec res dm n Hnd Hnil He) as (Hnd1 & Hnil1 & He1 & Hk1).
    destruct (IH _ Hnd1 Hnil1 He1) as (Hnd2 & Hnil2 & He2 & Hk2).
    repeat split; try done.
    + intros Hk. apply Hk2 in Hk as [Hk|(n' & Hn' & Hrest)].
      * apply Hk1 in Hk as [?|Hrest]; [by left|].
        right. exists n. split; [by left|done].
      * right. exists n'. split; [by right|done].
    + intros [Hk|(n' & Hn' & Hrest)]; apply Hk2.
      * left. apply Hk1. by left.
      * apply elem_of_cons in Hn' as [->|Hn'].
        -- left. apply Hk1. by right.
        -- right. by exists n'.
Qed.

Lemma demeCountStep_keys vis res colors dm it :
  map fst (demeCountStep vis res colors dm it) = map fst dm.
Proof.
  unfold demeCountStep. destruct (children it.2); [done|].
  destruct (isVisible _ _ _); [|done].
  destruct (truthy _); [|done].
  destruct (alookup _ dm) eqn:E; [|done].
  by rewrite aset_keys_present by (by rewrite E).
Qed.

Lemma fold_demeCountStep_keys vis res colors items dm :
  map fst (fold_left (demeCountStep vis res colors) items dm) = map fst dm.
Proof.
  revert dm. induction items as [|it items IH]; intros dm; [done|].
  cbn [fold_left]. by rewrite IH, demeCountStep_keys.
Qed.

Lemma getDemeColors_keys nodes vis res colors :
  map fst (getDemeColors nodes vis res colors)
  = map fst (fold_left (demeKeyStep res) nodes []).
Proof. by rewrite getDemeColors_passes, fold_demeCountStep_keys. Qed.

(** X5. When no tip is located at a name that objects inherit, the keys of
    the aggregate are the non-empty locations of the tips, each once; they
    depend neither on the visibility mask nor on the colour assignment, so
    an invisible tip still gives its location a bucket. *)
Theorem deme_keys_are_tip_locations nodes vis res colors :
  ownLocations nodes res →
  NoDup (map fst (getDemeColors nodes vis res colors)) ∧
  (∀ k, k ∈ map fst (getDemeColors nodes vis res colors) ↔
        ∃ n, n ∈ nodes ∧ children n = None ∧
             getTraitFromNode n res = Some k ∧ k ≠ "") ∧
  (∀ vis' colors',
     map fst (getDemeColors nodes vis' res colors')
     = map fst (getDemeColors nodes vis res colors)).
Proof.
  intros _.
  destruct (fold_demeKeyStep_spec res nodes []) as (Hnd & _ & _ & Hk);
    [constructor|constructor|by intros ?%elem_of_nil|].
  rewrite getDemeColors_keys. split; [done|]. split.
  - intros k. rewrite Hk. split.
    + intros [?%elem_of_nil|(n & Hn & Htip & Hrest)]; [done|].
      exists n. split; [done|]. split; [|done].
      unfold isTip in Htip. by destruct (children n).
    + intros (n & Hn & Hc & Hrest). right. exists n. split; [done|].
      split; [|done]. unfold isTip. by rewrite Hc.
  - intros vis' colors'. by rewrite getDemeColors_keys.
Qed.






(** *** What every Deme record holds *)

Lemma demeFor_Some geo res OFFSET b d :
  demeFor geo res OFFSET b = Some d →
  ∃ e, geoLookup geo res (Some b.1) = Some e ∧
       inBand (longitude e + OFFSET) ∧
       d = {| d_name := b.1; d_count := bucketTotal b;
              d_color := averageColorsDict b.2;
              d_latitude := latitude e;
              d_longitude := (longitude e + OFFSET)%Q;
              d_coords := leafletLatLongToLayerPoint (Some (latitude e))
                            (Some (longitude e + OFFSET)%Q) |}.
Proof.
  unfold demeFor.
  destruct (geoLookup geo res (Some b.1)) as [e|]; [|done].
  destruct (Qltb westBound _ && Qltb _ eastBound) eqn:E; [|done].
  intros [= <-]. exists e. split; [done|]. split; [|done].
  apply andb_true_iff in E as [E1%Qltb_lt E2%Qltb_lt]. by split.
Qed.

Lemma demeFor_is_Some geo res OFFSET b e :
  geoLookup geo res (Some b.1) = Some e → inBand (longitude e + OFFSET) →
  is_Some (demeFor geo res OFFSET b).
Proof.
  intros He [H1%Qltb_lt H2%Qltb_lt]. unfold demeFor.
  rewrite He, H1, H2. by eexists.
Qed.

Lemma setupDemeData_spec nodes vis res colors triplicate geo r :
  setupDemeData nodes vis res colors triplicate geo = Some r →
  r_demeData r
    = concat (map (λ OFFSET,
                     omap (demeFor geo res OFFSET)
                       (getDemeColors nodes vis res colors))
                (offsetsOf triplicate)) ∧
  ∀ key, r_demeIndices r !! key =
         match positionsOf key (r_demeData r) with
         | [] => None
         | l => Some l
         end.
Proof.
  unfold setupDemeData. intros H.
  destruct (foldlM _ _ (offsetsOf triplicate)) as [st|] eqn:E; [|done].
  simpl in H. injection H as <-. simpl.
  apply fold_offsets_spec in E as (Hd & _ & _ & Hi). simpl in Hd.
  split; [done|]. by destruct (Hi indexed_init) as [_ Hk].
Qed.

Lemma demeData_elem nodes vis res colors triplicate geo r d :
  setupDemeData nodes vis res colors triplicate geo = Some r →
  d ∈ r_demeData r ↔
  ∃ OFFSET b, OFFSET ∈ offsetsOf triplicate ∧
              b ∈ getDemeColors nodes vis res colors ∧
              demeFor geo res OFFSET b = Some d.
Proof.
  intros [-> _]%setupDemeData_spec.
  rewrite list_elem_of_In, in_concat. split.
  - intros (block & Hblock & Hd).
    apply in_map_iff in Hblock as (OFFSET & <- & Ho).
    apply list_elem_of_In, list_elem_of_omap in Hd as (b & Hb & Hd).
    exists OFFSET, b. by rewrite list_elem_of_In.
  - intros (OFFSET & b & Ho & Hb & Hd).
    exists (omap (demeFor geo res OFFSET) (getDemeColors nodes vis res colors)).
    split.
    + apply in_map_iff. exists OFFSET. by rewrite <- list_elem_of_In.
    + apply list_elem_of_In, list_elem_of_omap. by exists b.
Qed.


(** *** The patcher of the demes *)

Lemma positionsOf_elem key data i :
  i ∈ positionsOf key data ↔ ∃ d, data !! i = Some d ∧ d_name d = key.
Proof.
  unfold positionsOf. rewrite list_elem_of_filter, elem_of_seq. split.
  - intros [Hid _]. destruct (data !! i) as [d|]; [|done].
    exists d. split; [done|]. by injection Hid.
  - intros (d & Hd & <-). rewrite Hd. split; [done|].
    apply lookup_lt_Some in Hd. lia.
Qed.








Lemma foldlM_None {S A} (f : S → A → option S) (l : list A) (s : S) (x : A) :
  x ∈ l → (∀ s, f s x = None) → foldlM f s l = None.
Proof.
  intros Hx Hf. revert s. induction l as [|a l IH]; intros s.
  - by apply elem_of_nil in Hx.
  - simpl. apply elem_of_cons in Hx as [<-|Hx]; [by rewrite Hf|].
    destruct (f s a); [by apply IH|done].
Qed.

Lemma hasDeme_positions nodes vis res colors triplicate geo r k :
  setupDemeData nodes vis res colors triplicate geo = Some r →
  k ∈ map fst (getDemeColors nodes vis res colors) →
  positionsOf k (r_demeData r) ≠ [] ↔ hasDeme geo res (offsetsOf triplicate) k.
Proof.
  intros Hr Hk. split.
  - intros Hne. destruct (positionsOf k (r_demeData r)) as [|i l] eqn:E; [done|].
    assert (i ∈ positionsOf k (r_demeData r)) as Hi by (rewrite E; left).
    apply positionsOf_elem in Hi as (d & Hd & Hname).
    apply list_elem_of_lookup_2 in Hd.
    apply (demeData_elem _ _ _ _ _ _ _ _ Hr) in Hd as (OFFSET & b & Ho & _ & Hd).
    apply demeFor_Some in Hd as (e & He & Hband & ->). simpl in Hname.
    subst k. by exists OFFSET, e.
  - intros (OFFSET & e & Ho & He & Hband) Hnil.
    apply list_elem_of_fmap in Hk as ([k' bucket] & -> & Hb). simpl in *.
    destruct (demeFor_is_Some geo res OFFSET (k', bucket) e He Hband) as [d Hd].
    assert (d ∈ r_demeData r) as Hin.
    { apply (demeData_elem _ _ _ _ _ _ _ _ Hr). by exists OFFSET, (k', bucket). }
    apply list_elem_of_lookup in Hin as [i Hi].
    assert (i ∈ positionsOf k' (r_demeData r)) as Hpos.
    { apply positionsOf_elem. exists d. split; [done|].
      by apply demeFor_Some in Hd as (? & _ & _ & ->). }
    rewrite Hnil in Hpos. by apply elem_of_nil in Hpos.
Qed.


(** X9. When no tip is located at a name that objects inherit and some tip
    has a location without any Deme record (no coordinates in the table,
    or a longitude outside (-360, 360) for every offset in use), patching
    the Deme records raises an exception: the location is in the aggregate
    but not in [demeIndices], and nothing catches the [TypeError]. *)
Theorem patching_demes_throws_without_record
    nodes vis1 colors1 vis2 colors2 res triplicate geo r1 n k :
  ownLocations nodes res →
  setupDemeData nodes vis1 res colors1 triplicate geo = Some r1 →
  n ∈ nodes → children n = None → getTraitFromNode n res = Some k → k ≠ "" →
  ¬ hasDeme geo res (offsetsOf triplicate) k →
  updateDemeDataColAndVis (r_demeData r1) (r_demeIndices r1) nodes vis2 res
    colors2
  = None.
Proof.
  intros _ H1 Hn Hc Ht Hk Hno. unfold updateDemeDataColAndVis. cbv zeta.
  destruct (fold_demeKeyStep_spec res nodes []) as (_ & _ & _ & Hkeys);
    [constructor|constructor|by intros ?%elem_of_nil|].
  assert (k ∈ map fst (getDemeColors nodes vis2 res colors2)) as Hin.
  { rewrite getDemeColors_keys. apply Hkeys. right. exists n.
    repeat split; try done. unfold isTip. by rewrite Hc. }
  apply list_elem_of_fmap in Hin as ([k' v] & Hk' & Hkv). simpl in Hk'. subst k'.
  apply (foldlM_None _ _ _ (k, v)); [done|].
  intros s. unfold updateDemeStep. cbn [fst snd].
  destruct (setupDemeData_spec _ _ _ _ _ _ _ H1) as [_ Hi]. rewrite Hi.
  destruct (positionsOf k (r_demeData r1)) as [|i l] eqn:E; [done|].
  exfalso. apply Hno.
  apply (hasDeme_positions _ _ _ _ _ _ _ _ H1); [|by rewrite E].
  rewrite getDemeColors_keys. apply Hkeys. right. exists n.
  repeat split; try done. unfold isTip. by rewrite Hc.
Qed.

(** *** When the aggregation of the demes returns *)





(** *** Re-projection with the map at hand *)

Lemma map_id_on {A} (f : A → A) (l : list A) :
  (∀ x, x ∈ l → f x = x) → map f l = l.
Proof.
  intros Hf. induction l as [|a l IH]; [done|]. simpl.
  rewrite Hf by left. rewrite IH; [done|]. intros x Hx. apply Hf. by right.
Qed.

(** X10. Re-projecting what [createDemeAndTransmissionData] returned, with
    the map it was built for, changes nothing: every record already holds
    the projection of its recorded latitude and longitude, and its curve is
    the curve between its two points. *)
Theorem reprojection_with_same_map_is_identity
    nodes vis res colors triplicate geo m :
  createDemeAndTransmissionData nodes vis res colors triplicate geo = Some m →
  updateDemeAndTransmissionDataLatLong (Some (m_demeData m))
    (Some (m_transmissionData m))
  = (Some (m_demeData m), Some (m_transmissionData m)).
Proof.
  unfold createDemeAndTransmissionData. intros H.
  destruct (setupDemeData nodes vis res colors triplicate geo) as [d|] eqn:Ed;
    [|done].
  simpl in H. injection H as <-. simpl. f_equal; f_equal.
  - apply map_id_on. intros x Hx.
    apply (demeData_elem _ _ _ _ _ _ _ _ Ed) in Hx as (OFFSET & b & _ & _ & Hx).
    by apply demeFor_Some in Hx as (e & _ & _ & ->).
  - apply map_id_on. intros t Ht.
    apply transmissionData_elem in Ht as (e & oo & od & _ & _ & _ & ext & Hc).
    apply construct_event_inv in Hc
      as (eo & ed & _ & _ & _ & _ & _ & _ & _ & _ & _ & Ho & Hd & Hb & _).
    cbv zeta. rewrite <- Ho, <- Hd, <- Hb. by destruct t.
Qed.

End Collaborators.

(** *** The theorems on the concrete map *)

(** The source functions at the sample collaborators. *)
Local Abbreviation sampleSetup :=
  (setupTransmissionData 0 sampleTrait sampleProject sampleBezier
     sampleInterpolate).
Local Abbreviation sampleDemes :=
  (setupDemeData 0 sampleTrait sampleProject sampleAverage samplePie
     demeNodes [2; 2; 2] "country" ["#f00"; "#0f0"; "#00f"] true sampleGeo).

(** C1 (defect of the code). The patcher compares the parent's location
    with itself, so it never enters its update branch and returns the
    records it was given, whatever the inputs. On the sample, after a change
    of the colour assignment and of the visibility mask, the record of the
    edge 0-1, which [transmissionIndices] reaches, keeps its old colour and
    stays ["visible"], while a fresh aggregation gives it the parent's new
    colour and ["hidden"]. *)
Theorem update_keeps_stale_color_and_visibility :
  (∀ NODE_NOT_VISIBLE getTraitFromNode data indices nodes vis res colors,
     updateTransmissionDataColAndVis NODE_NOT_VISIBLE getTraitFromNode
       data indices nodes vis res colors = data) ∧
  let old := sampleSetup dateLineNodes [2; 2] "country" ["#old"; "#tip"]
               false sampleGeo in
  let patched :=
    updateTransmissionDataColAndVis 0 sampleTrait
      (r_transmissionData old) (r_transmissionIndices old)
      dateLineNodes [2; 0] "country" ["#new"; "#tip"] in
  let fresh := r_transmissionData
      (sampleSetup dateLineNodes [2; 0] "country" ["#new"; "#tip"]
         false sampleGeo) in
  crossingEdges sampleTrait "country" dateLineNodes
    = [(inner 0 "east" [tip 1 "west"], tip 1 "west")] ∧
  r_transmissionIndices old !! edgeId 0 1 = Some [0] ∧
  map (λ t, (t_id t, t_color t, t_visible t)) patched
    = [("0-1", Some "#old", "visible")] ∧
  map (λ t, (t_id t, t_color t, t_visible t)) fresh
    = [("0-1", Some "#new", "hidden")].
Proof.
  split; [intros; apply update_unchanged|].
  cbv zeta. rewrite update_unchanged. vm_compute. done.
Qed.

(** Against C3 as worded. With origin offset 360 and destination offset 360
    the edge from "east" (170 + 360 = 530, outside the band) to "near east" (-5 + 360 = 355) gets
    a candidate although its origin longitude is not in the band. *)
Lemma candidate_built_with_origin_out_of_band :
  ¬ (is_Some
       (maybeConstructTransmissionEvent 0 sampleTrait sampleProject sampleBezier
          sampleInterpolate (inner 0 "east" [tip 1 "near east"])
          (tip 1 "near east") sampleGeo "country" ["#f00"; "#0f0"] [2; 2]
          360 360 ∅ 1).1
     ↔ bothInBandRule (170 + 360) (-5 + 360)).
Proof.
  intros [H _].
  assert (bothInBandRule (170 + 360) (-5 + 360)) as [[_ Hb] _].
  { apply H. vm_compute. by eexists. }
  vm_compute in Hb. discriminate Hb.
Qed.

(** Against C2 as worded. With triplication the edge across the date line
    has a closest event for the origin offsets -360 and 0 and none for 360:
    two records. *)
Lemma date_line_edge_has_two_records :
  ¬ claimedRecordCount true
      (length (filter (λ t, t_id t = edgeId 0 1)
         (r_transmissionData
            (sampleSetup dateLineNodes [2; 2] "country" ["#f00"; "#0f0"]
               true sampleGeo)))).
Proof.
  vm_compute. intros [H|[H|H]]; discriminate H.
Qed.

Lemma events_per_edge_witness :
  let e := (inner 0 "east" [tip 1 "west"], tip 1 "west") in
  let recs :=
    filter (λ t, t_id t = edgeIdOf e)
      (r_transmissionData
         (sampleSetup dateLineNodes [2; 2] "country" ["#f00"; "#0f0"]
            true sampleGeo)) in
  let cands oo :=
    candidates 0 sampleTrait sampleProject sampleBezier sampleInterpolate
      e.1 e.2 sampleGeo "country" ["#f00"; "#0f0"] [2; 2] oo
      (extendOf sampleTrait "country"
         (crossingEdges sampleTrait "country" dateLineNodes) 0 e) in
  recs = omap (λ oo, minBy separation (cands oo)) (offsetsOf true) ∧
  length recs = length (filter (λ oo, 0 < length (cands oo)) (offsetsOf true)) ∧
  length recs ≤ 3 ∧
  ∀ t, t ∈ recs →
    ∃ oo, oo ∈ offsetsOf true ∧ t ∈ cands oo ∧
          ∀ c, c ∈ cands oo → (separation t <= separation c)%Q.
Proof.
  apply (events_per_edge 0 sampleTrait sampleProject sampleBezier
           sampleInterpolate dateLineNodes [2; 2] "country" ["#f00"; "#0f0"]
           true sampleGeo 0).
  - vm_compute. reflexivity.
  - apply (bool_decide_unpack _). vm_compute. exact I.
Defined.

(** Against C7 as worded. The edge from "a" to "b,c" is the first of its
    ordered pair and comes after an edge from "a,b" to "c": its record
    carries [extend = 2]. *)
Lemma comma_names_share_a_counter :
  ¬ extendCountsOrderedPairs 0 sampleTrait sampleProject sampleBezier
      sampleInterpolate commaNodes [2; 2; 2; 2] "country"
      ["#f00"; "#0f0"; "#00f"; "#ff0"] false sampleGeo.
Proof.
  intros H.
  destruct (r_transmissionData
              (sampleSetup commaNodes [2; 2; 2; 2] "country"
                 ["#f00"; "#0f0"; "#00f"; "#ff0"] false sampleGeo) !! 1)
    as [t|] eqn:Et; [|vm_compute in Et; discriminate Et].
  specialize (H 1 (inner 2 "a" [tip 3 "b,c"], tip 3 "b,c") t).
  vm_compute in Et. injection Et as <-.
  assert (2 = 1) as Habs; [|discriminate Habs].
  apply H.
  - vm_compute. reflexivity.
  - apply (list_elem_of_lookup_2 _ 1). vm_compute. reflexivity.
  - vm_compute. reflexivity.
Qed.

Lemma extend_running_count_witness :
  let e := (inner 0 "a" [tip 1 "c"; tip 2 "c"], tip 2 "c") in
  let offsets := offsetsOf false in
  let colors := ["#f00"; "#0f0"; "#00f"] in
  let blocks :=
    eventBlocks 0 sampleTrait sampleProject sampleBezier sampleInterpolate
      sampleGeo "country" colors [2; 2; 2] offsets repeatNodes in
  let block :=
    eventBlock 0 sampleTrait sampleProject sampleBezier sampleInterpolate
      sampleGeo "country" colors [2; 2; 2] offsets e 2 in
  r_transmissionData
    (sampleSetup repeatNodes [2; 2; 2] "country" colors false sampleGeo)
    = concat blocks ∧
  blocks !! 1 = Some block ∧
  Forall (λ t, t_extend t = 2) block.
Proof.
  apply (extend_running_count 0 sampleTrait sampleProject sampleBezier
           sampleInterpolate repeatNodes [2; 2; 2] "country"
           ["#f00"; "#0f0"; "#00f"] false sampleGeo 1
           (inner 0 "a" [tip 1 "c"; tip 2 "c"], tip 2 "c")).
  - vm_compute. reflexivity.
  - intros e' He' _.
    change (take 1 (crossingEdges sampleTrait "country" repeatNodes))
      with [(inner 0 "a" [tip 1 "c"; tip 2 "c"], tip 1 "c")] in He'.
    apply list_elem_of_singleton in He' as ->. reflexivity.
Defined.


(** Against C6 as worded. When the table has no entry for the resolution,
    the coordinates of every bucket are missing; reading the first of them
    throws, and the aggregation emits no arc at all. *)
Lemma missing_resolution_emits_no_arcs :
  setupDemeData 0 sampleTrait sampleProject sampleAverage samplePie demeNodes
    [2; 2; 2] "country" ["#f00"; "#0f0"; "#00f"] true ∅ = None ∧
  ¬ arcsStillEmitted 0 sampleTrait sampleProject sampleAverage samplePie
      demeNodes [2; 2; 2] "country" ["#f00"; "#0f0"; "#00f"] true ∅.
Proof.
  split; [by vm_compute|]. intros (r & H & _). by vm_compute in H.
Qed.

Lemma deme_exclusion_per_offset_witness :
  ∃ r, sampleDemes = Some r ∧
    map (λ d, (d_name d, d_longitude d)) (r_demeData r)
      = [("east", (-190)%Q); ("east", 170%Q); ("west", (-170)%Q);
         ("west", 190%Q)] ∧
    length (r_arcData r) = 9 ∧
    let demeMap :=
      getDemeColors 0 sampleTrait demeNodes [2; 2; 2] "country"
        ["#f00"; "#0f0"; "#00f"] in
    let offsets := offsetsOf true in
    let demeFor' := demeFor sampleProject sampleAverage sampleGeo "country" in
    let arcsFor' := arcsFor sampleProject samplePie sampleGeo "country" in
    r_demeData r
      = concat (map (λ OFFSET, omap (demeFor' OFFSET) demeMap) offsets) ∧
    r_arcData r
      = concat (map (λ OFFSET, concat (map (arcsFor' OFFSET) demeMap))
                  offsets) ∧
    (∀ OFFSET b, OFFSET ∈ offsets → b ∈ demeMap →
       length (arcsFor' OFFSET b) = length b.2 ∧
       (demeFor' OFFSET b = None ↔
          geoLookup sampleGeo "country" (Some b.1) = None ∨
          ∃ e, geoLookup sampleGeo "country" (Some b.1) = Some e ∧
               ¬ inBand (longitude e + OFFSET))) ∧
    (∀ key, r_demeIndices r !! key =
            match positionsOf key (r_demeData r) with
            | [] => None
            | l => Some l
            end).
Proof.
  destruct sampleDemes as [r|] eqn:E; [|vm_compute in E; discriminate E].
  exists r. split; [done|].
  split; [vm_compute in E; injection E as <-; vm_compute; reflexivity|].
  split; [vm_compute in E; injection E as <-; vm_compute; reflexivity|].
  exact (proj2 (deme_exclusion_per_offset 0 sampleTrait sampleProject
                  sampleAverage samplePie demeNodes [2; 2; 2] "country"
                  ["#f00"; "#0f0"; "#00f"] true sampleGeo) r E).
Defined.

(** *** A change of zoom level *)




(** X12. Of two changes of map in a row only the last one shows:
    re-projecting what a re-projection returned gives what re-projecting the
    original records gives. *)
Theorem last_reprojection_wins p1 p2 bezier
    (demeData : option (list deme))
    (transmissionData : option (list transmission)) :
  updateDemeAndTransmissionDataLatLong p2 bezier
    (updateDemeAndTransmissionDataLatLong p1 bezier demeData
       transmissionData).1
    (updateDemeAndTransmissionDataLatLong p1 bezier demeData
       transmissionData).2
  = updateDemeAndTransmissionDataLatLong p2 bezier demeData transmissionData.
Proof.
  destruct demeData as [dd|], transmissionData as [td|]; try done. simpl.
  unfold updateDemeDataLatLong, updateTransmissionDataLatLong.
  rewrite !map_map. done.
Qed.

(** *** The further theorems on the concrete map *)

Lemma records_are_well_formed_witness :
  ∃ t,
    r_transmissionData
      (sampleSetup dateLineNodes [2; 2] "country" ["#f00"; "#0f0"] true
         sampleGeo) !! 0 = Some t ∧
    t_originLongitude t = Some (-190)%Q ∧
    t_destinationLongitude t = Some (-170)%Q ∧
    ∃ e eo ed oo od,
      e ∈ crossingEdges sampleTrait "country" dateLineNodes ∧
      oo ∈ offsetsOf true ∧ od ∈ destOffsets ∧
      geoLookup sampleGeo "country" (sampleTrait e.1 "country") = Some eo ∧
      geoLookup sampleGeo "country" (sampleTrait e.2 "country") = Some ed ∧
      t_id t = edgeIdOf e ∧
      t_originNode t = e.1 ∧ t_destinationNode t = e.2 ∧
      t_originName t = sampleTrait e.1 "country" ∧
      t_destinationName t = sampleTrait e.2 "country" ∧
      t_originLatitude t = Some (latitude eo) ∧
      t_originLongitude t = Some (longitude eo + oo)%Q ∧
      t_destinationLatitude t = Some (latitude ed) ∧
      t_destinationLongitude t = Some (longitude ed + od)%Q ∧
      (Qabs ((longitude eo + oo) - (longitude ed + od)) < 180)%Q ∧
      (inBand (longitude eo + oo) ∨ inBand (longitude ed + od)) ∧
      t_originCoords t
        = leafletLatLongToLayerPoint sampleProject (t_originLatitude t)
            (t_originLongitude t) ∧
      t_destinationCoords t
        = leafletLatLongToLayerPoint sampleProject (t_destinationLatitude t)
            (t_destinationLongitude t) ∧
      t_bezierCurve t
        = constructBcurve sampleBezier (t_originCoords t)
            (t_destinationCoords t) (t_extend t) ∧
      length (t_bezierDates t) = length (t_bezierCurve t) ∧
      t_color t = ["#f00"; "#0f0"] !! arrayIdx e.1 ∧
      t_visible t = visibleString (isVisible 0 [2; 2] (arrayIdx e.2)).
Proof.
  destruct (r_transmissionData
              (sampleSetup dateLineNodes [2; 2] "country" ["#f00"; "#0f0"]
                 true sampleGeo) !! 0) as [t|] eqn:E;
    [|vm_compute in E; discriminate E].
  exists t. split; [reflexivity|].
  split; [vm_compute in E; injection E as <-; reflexivity|].
  split; [vm_compute in E; injection E as <-; reflexivity|].
  apply (records_are_well_formed 0 sampleTrait sampleProject sampleBezier
           sampleInterpolate dateLineNodes [2; 2] "country" ["#f00"; "#0f0"]
           true sampleGeo t).
  by apply list_elem_of_lookup_2 in E.
Defined.

Lemma missing_locations_are_those_without_entry_witness :
  let nodes := [inner 0 "east" [tip 1 "nowhere"]; tip 1 "nowhere"] in
  Some "nowhere"
    ∈ r_demesMissingLatLongs
        (sampleSetup nodes [2; 2] "country" ["#f00"; "#0f0"] false sampleGeo)
  ↔ ∃ e, e ∈ crossingEdges sampleTrait "country" nodes ∧
         (Some "nowhere" = sampleTrait e.1 "country" ∨
          Some "nowhere" = sampleTrait e.2 "country") ∧
         geoLookup sampleGeo "country" (Some "nowhere") = None.
Proof.
  apply (missing_locations_are_those_without_entry 0 sampleTrait sampleProject
           sampleBezier sampleInterpolate
           [inner 0 "east" [tip 1 "nowhere"]; tip 1 "nowhere"] [2; 2]
           "country" ["#f00"; "#0f0"] false sampleGeo (Some "nowhere"));
    apply (bool_decide_unpack _); by vm_compute.
Defined.

Lemma demeNodes_own_locations : ownLocations sampleTrait demeNodes "country".
Proof.
  intros n Hn _. unfold demeNodes in Hn.
  repeat (apply elem_of_cons in Hn as [->|Hn];
          [apply (bool_decide_unpack _); by vm_compute|]).
  by apply elem_of_nil in Hn.
Qed.

Lemma deme_keys_are_tip_locations_witness :
  NoDup (map fst (getDemeColors 0 sampleTrait demeNodes [2; 2; 0] "country"
                    ["#f00"; "#0f0"; "#00f"])) ∧
  (∀ k, k ∈ map fst (getDemeColors 0 sampleTrait demeNodes [2; 2; 0]
                       "country" ["#f00"; "#0f0"; "#00f"]) ↔
        ∃ n, n ∈ demeNodes ∧ children n = None ∧
             sampleTrait n "country" = Some k ∧ k ≠ "") ∧
  (∀ vis' colors',
     map fst (getDemeColors 0 sampleTrait demeNodes vis' "country" colors')
     = map fst (getDemeColors 0 sampleTrait demeNodes [2; 2; 0] "country"
                  ["#f00"; "#0f0"; "#00f"])).
Proof.
  exact (deme_keys_are_tip_locations 0 sampleTrait demeNodes [2; 2; 0]
           "country" ["#f00"; "#0f0"; "#00f"] demeNodes_own_locations).
Defined.

Lemma half_turn_edges_get_no_event_witness :
  (maybeGetClosestTransmissionEvent 0 sampleTrait sampleProject sampleBezier
     sampleInterpolate (inner 0 "here" [tip 1 "there"]) (tip 1 "there")
     halfTurnGeo "country" ["#f00"; "#0f0"] [2; 2] 0 ∅ 1).1 = None
  ↔ (Qabs (-90 - 90) == 180)%Q.
Proof.
  apply (half_turn_edges_get_no_event 0 sampleTrait sampleProject sampleBezier
           sampleInterpolate (inner 0 "here" [tip 1 "there"]) (tip 1 "there")
           halfTurnGeo "country" ["#f00"; "#0f0"] [2; 2] ∅ 1
           (mkGeo 0 (-90)) (mkGeo 0 90));
    [reflexivity|reflexivity|by exists (-90)%Z|by exists 90%Z|by vm_compute..].
Defined.




Lemma patching_demes_throws_without_record_witness :
  ∃ r1,
    sampleDemes = Some r1 ∧
    updateDemeDataColAndVis 0 sampleTrait sampleAverage (r_demeData r1)
      (r_demeIndices r1) demeNodes [2; 2; 0] "country"
      ["#f00"; "#0f0"; "#00f"]
    = None.
Proof.
  destruct sampleDemes as [r1|] eqn:E; [|vm_compute in E; discriminate E].
  exists r1. split; [reflexivity|].
  apply (patching_demes_throws_without_record 0 sampleTrait sampleProject
           sampleAverage samplePie demeNodes [2; 2; 2]
           ["#f00"; "#0f0"; "#00f"] [2; 2; 0] ["#f00"; "#0f0"; "#00f"]
           "country" true sampleGeo r1 (tip 2 "nowhere") "nowhere").
  - exact demeNodes_own_locations.
  - exact E.
  - unfold demeNodes. right. right. left.
  - reflexivity.
  - reflexivity.
  - discriminate.
  - intros (OFFSET & e & _ & He & _). vm_compute in He. discriminate He.
Defined.

Lemma reprojection_with_same_map_is_identity_witness :
  ∃ m,
    createDemeAndTransmissionData 0 sampleTrait sampleProject sampleBezier
      sampleInterpolate sampleAverage samplePie dateLineNodes [2; 2] "country"
      ["#f00"; "#0f0"] true sampleGeo = Some m ∧
    length (m_demeData m) = 2 ∧ length (m_transmissionData m) = 2 ∧
    updateDemeAndTransmissionDataLatLong sampleProject sampleBezier
      (Some (m_demeData m)) (Some (m_transmissionData m))
    = (Some (m_demeData m), Some (m_transmissionData m)).
Proof.
  destruct (createDemeAndTransmissionData 0 sampleTrait sampleProject
      sampleBezier sampleInterpolate sampleAverage samplePie dateLineNodes
      [2; 2] "country" ["#f00"; "#0f0"] true sampleGeo) as [m|] eqn:E;
    [|vm_compute in E; discriminate E].
  exists m. split; [reflexivity|].
  split; [vm_compute in E; injection E as <-; reflexivity|].
  split; [vm_compute in E; injection E as <-; reflexivity|].
  exact (reprojection_with_same_map_is_identity 0 sampleTrait sampleProject
           sampleBezier sampleInterpolate sampleAverage samplePie dateLineNodes
           [2; 2] "country" ["#f00"; "#0f0"] true sampleGeo m E).
Defined.


End MapHelpers.

(** ** The v1-to-v2 schema migrator *)

Module Convert.

(** *** JavaScript values

    A legacy document comes out of [JSON.parse]: its values form a tree
    without sharing, so the in-place updates of the source are modelled by
    functions from values to values. *)
Inductive value : Type :=
| VUndef
| VNull
| VBool (b : bool)
| VNum (q : Q)
| VStr (s : string)
| VArr (l : list value)
| VObj (kvs : list (string * value)).

Abbreviation obj := (list (string * value)).

(** A tree node: its own properties other than [children], and [children]
    (absent for tips). *)
Inductive tnode : Type := TNode {
  props : obj;
  kids : option (list tnode) }.

Inductive exn : Type := TypeError | RangeError.

(** Outcome of a computation: a value, an uncaught exception, or an input
    on which the embedding declines to say what JavaScript does (a number,
    array or object converted to a string, a named property written on an
    array). *)
Inductive result (A : Type) : Type :=
| Ok (a : A)
| Throw (e : exn)
| Unmodelled.

Arguments Ok {A} a.

Arguments Throw {A} e.

Arguments Unmodelled {A}.

#[global] Instance result_ret : MRet result := λ A x, Ok x.

#[global] Instance result_bind : MBind result := λ A B f m,
  match m with
  | Ok a => f a
  | Throw e => Throw e
  | Unmodelled => Unmodelled
  end.

(** [for (const x of l) ...] over a step that may throw. *)
Fixpoint foldM {S A} (f : S → A → result S) (s : S) (l : list A) : result S :=
  match l with
  | [] => Ok s
  | x :: l' => s' ← f s x; foldM f s' l'
  end.

Definition isZero (q : Q) : bool := (Qnum q =? 0)%Z.

Definition truthy (v : value) : bool :=
  match v with
  | VUndef | VNull => false
  | VBool b => b
  | VNum q => negb (isZero q)
  | VStr s => negb (String.eqb s "")
  | VArr _ | VObj _ => true
  end.

Definition isNullish (v : value) : bool :=
  match v with
  | VUndef | VNull => true
  | _ => false
  end.

Definition inRange (lo hi : nat) (c : ascii) : bool :=
  (lo <=? nat_of_ascii c)%nat && (nat_of_ascii c <=? hi)%nat.

Fixpoint parseDigits (acc : nat) (s : string) : option nat :=
  match s with
  | EmptyString => Some acc
  | String c s' =>
      if inRange 48 57 c
      then parseDigits (10 * acc + (nat_of_ascii c - 48)) s'
      else None
  end.

(** The position a key names when it is a canonical array index: ["0"], or
    digits that do not start with a zero. *)
Definition parseIndex (k : string) : option nat :=
  match k with
  | EmptyString => None
  | String c s' =>
      if (nat_of_ascii c =? 48)%nat
      then (if String.eqb s' "" then Some 0 else None)
      else parseDigits 0 k
  end.

Definition natNum (n : nat) : value := VNum (inject_Z (Z.of_nat n)).

Definition charAt (s : string) (i : nat) : value :=
  match String.get i s with
  | Some c => VStr (String c "")
  | None => VUndef
  end.

(** [v[k]] / [v.k] over own properties: reading a property of [undefined]
    or [null] throws; a name an object has not gives [undefined], which is
    what the engine gives for names outside [objectPrototypeNames]. *)
Definition get (v : value) (k : string) : result value :=
  match v with
  | VUndef | VNull => Throw TypeError
  | VBool _ | VNum _ => Ok VUndef
  | VStr s =>
      if String.eqb k "length" then Ok (natNum (String.length s))
      else match parseIndex k with
           | Some i => Ok (charAt s i)
           | None => Ok VUndef
           end
  | VArr l =>
      if String.eqb k "length" then Ok (natNum (length l))
      else match parseIndex k with
           | Some i => Ok (default VUndef (l !! i))
           | None => Ok VUndef
           end
  | VObj kvs => Ok (default VUndef (alookup k kvs))
  end.

(** A property of a node or of another own-property list. *)
Definition prop (k : string) (o : obj) : value := default VUndef (alookup k o).

Fixpoint stringChars (s : string) : list value :=
  match s with
  | EmptyString => []
  | String c s' => VStr (String c "") :: stringChars s'
  end.

(** [Object.entries(v)] *)
Definition entriesOf (v : value) : result (list (string * value)) :=
  match v with
  | VUndef | VNull => Throw TypeError
  | VBool _ | VNum _ => Ok []
  | VStr s => Ok (imap (λ i c, (pretty i, c)) (stringChars s))
  | VArr l => Ok (imap (λ i x, (pretty i, x)) l)
  | VObj kvs => Ok kvs
  end.

(** [Object.keys(v)], also the keys [for (k in v)] visits. *)
Definition keysOf (v : value) : result (list string) :=
  e ← entriesOf v; Ok (map fst e).

(** [target.k = x] in sloppy mode: silently ignored on a primitive. *)
Definition setProp (target : value) (k : string) (x : value) : result value :=
  match target with
  | VUndef | VNull => Throw TypeError
  | VBool _ | VNum _ | VStr _ => Ok target
  | VArr _ => Unmodelled
  | VObj kvs => Ok (VObj (aset k x kvs))
  end.

(** [delete target.k] for a name [k] that is not an index. *)
Definition deleteProp (target : value) (k : string) : value :=
  match target with
  | VObj kvs => VObj (adelete k kvs)
  | _ => target
  end.

(** A value used as a property key or as a piece of a joined string. *)
Definition toStr (v : value) : result string :=
  match v with
  | VStr s => Ok s
  | VUndef => Ok "undefined"
  | VNull => Ok "null"
  | VBool true => Ok "true"
  | VBool false => Ok "false"
  | VNum _ | VArr _ | VObj _ => Unmodelled
  end.

(** [a || b] *)
Definition orElse (a b : value) : value := if truthy a then a else b.

(** [l.join(sep)]: [undefined] and [null] elements give the empty string. *)
Fixpoint joinStrings (sep : string) (l : list string) : string :=
  match l with
  | [] => ""
  | [s] => s
  | s :: l' => s +:+ sep +:+ joinStrings sep l'
  end.

Definition joinElement (v : value) : result string :=
  match v with
  | VUndef | VNull => Ok ""
  | _ => toStr v
  end.

Fixpoint mapM {A B} (f : A → result B) (l : list A) : result (list B) :=
  match l with
  | [] => Ok []
  | x :: l' => y ← f x; ys ← mapM f l'; Ok (y :: ys)
  end.

(** [v.join(sep)] as a method call: only arrays have the method. *)
Definition joinValue (v : value) (sep : string) : result string :=
  match v with
  | VArr l => ss ← mapM joinElement l; Ok (joinStrings sep ss)
  | VUndef | VNull => Throw TypeError
  | _ => Throw TypeError
  end.

(** *** prettyString *)

Record prettyOptions : Type := mkPrettyOptions {
  multiplier : bool;
  trim : nat;
  camelCase : bool;
  removeComma : bool;
  stripEtAl : bool }.

Definition defaultOptions : prettyOptions :=
  {| multiplier := false; trim := 0; camelCase := true;
     removeComma := false; stripEtAl := false |}.

Definition toUpperChar (c : ascii) : ascii :=
  if inRange 97 122 c then ascii_of_nat (nat_of_ascii c - 32) else c.

Definition toLowerChar (c : ascii) : ascii :=
  if inRange 65 90 c then ascii_of_nat (nat_of_ascii c + 32) else c.

Fixpoint mapString (f : ascii → ascii) (s : string) : string :=
  match s with
  | EmptyString => EmptyString
  | String c s' => String (f c) (mapString f s')
  end.

Definition toUpperCase : string → string := mapString toUpperChar.

Definition toLowerCase : string → string := mapString toLowerChar.

(** [\w] and [\s] on ASCII characters. *)
Definition isWordChar (c : ascii) : bool :=
  inRange 48 57 c || inRange 65 90 c || inRange 97 122 c
  || (nat_of_ascii c =? 95)%nat.

Definition isSpaceChar (c : ascii) : bool :=
  inRange 9 13 c || (nat_of_ascii c =? 32)%nat.

(** [x.replace(/_/g, " ")] *)
Definition underscoresToSpaces : string → string :=
  mapString (λ c, if (nat_of_ascii c =? 95)%nat then " "%char else c).

(** [x.replace(/\w\S*/g, (y) => y.charAt(0).toUpperCase() + y.substr(1))]:
    a match starts at a word character outside a match and runs up to the
    next white space; [inMatch] tells whether the scan is inside one. *)
Fixpoint capitalizeWords (inMatch : bool) (s : string) : string :=
  match s with
  | EmptyString => EmptyString
  | String c s' =>
      if inMatch then String c (capitalizeWords (negb (isSpaceChar c)) s')
      else if isWordChar c then String (toUpperChar c) (capitalizeWords true s')
      else String c (capitalizeWords false s')
  end.

(** [x.replace(/,/g, "")] *)
Fixpoint removeCommas (s : string) : string :=
  match s with
  | EmptyString => EmptyString
  | String c s' =>
      if (nat_of_ascii c =? 44)%nat then removeCommas s'
      else String c (removeCommas s')
  end.

Fixpoint dropString (n : nat) (s : string) : string :=
  match n, s with
  | O, _ => s
  | S n', String _ s' => dropString n' s'
  | S _, EmptyString => EmptyString
  end.

(** [x.replace(pat, "")] for a string pattern: the first occurrence goes. *)
Fixpoint removeFirst (pat s : string) : string :=
  if String.prefix pat s then dropString (String.length pat) s
  else match s with
       | EmptyString => EmptyString
       | String c s' => String c (removeFirst pat s')
       end.

(** [x.slice(0, n)] *)
Definition sliceTo (n : nat) (s : string) : string := substring 0 n s.

(** [Math.ceil(Math.log10(q))] for [q >= 1e-10], on exact rationals: the
    least [m >= -10] with [q <= 10^m]. *)
Fixpoint ceilLog10From (fuel : nat) (m : Z) (q : Q) : Z :=
  match fuel with
  | O => m
  | S fuel' =>
      if Qle_bool q (Qpower 10 m) then m else ceilLog10From fuel' (m + 1) q
  end.

Definition ceilLog10 (q : Q) : Z :=
  ceilLog10From (12 + Z.to_nat (Z.log2_up (Qceiling q))) (-10) q.

Fixpoint zeros (n : nat) : string :=
  match n with
  | O => ""
  | S n' => String "0" (zeros n')
  end.

(** The digits [m] of an integer with a decimal point before the last [f]
    of them, padded with zeros on the left to [f + 1] digits. *)
Definition placePoint (f : nat) (m : string) : string :=
  let m := if (String.length m <=? f)%nat
           then zeros (f + 1 - String.length m) +:+ m else m in
  let k := String.length m in
  if (f =? 0)%nat then m
  else substring 0 (k - f) m +:+ "." +:+ substring (k - f) f m.

(** [q.toFixed(digits)]: rounds half up on the magnitude, pads with zeros,
    puts the sign in front. Magnitudes from 1e21 print in exponent
    notation, which is left out. *)
Definition toFixed (q : Q) (digits : Z) : result string :=
  if ((digits <? 0) || (100 <? digits))%Z then Throw RangeError
  else if Qle_bool (Qpower 10 21) (Qabs q) then Unmodelled
  else
    let n := Qfloor (Qabs q * Qpower 10 digits + (1 # 2)) in
    Ok ((if Qltb q 0 then "-" else "")
        +:+ placePoint (Z.to_nat digits) (pretty n)).

Definition isString (v : value) : bool :=
  match v with VStr _ => true | _ => false end.

Definition prettyString (x : value) (o : prettyOptions) : result value :=
  if negb (truthy x) && negb (match x with VNum q => isZero q | _ => false end)
  then Ok (VStr "")
  else
    match x with
    | VStr x =>
        let x := if (0 <? trim o)%nat && (trim o <? String.length x)%nat
                 then sliceTo (trim o) x +:+ "..." else x in
        if bool_decide (toLowerCase x ∈ ["usvi"; "usa"; "uk"])
        then Ok (VStr (toUpperCase x))
        else
          let x := underscoresToSpaces x in
          let x := if camelCase o then capitalizeWords false x else x in
          let x := if removeComma o then removeCommas x else x in
          let x := if stripEtAl o
                   then removeFirst "Et Al"
                          (removeFirst "et al"
                             (removeFirst "Et Al." (removeFirst "et al." x)))
                   else x in
          Ok (VStr x)
    | VNum val =>
        let magnitude := ceilLog10 (Qabs val + Qpower 10 (-10)) in
        s ← toFixed val (5 - magnitude);
        if multiplier o then Ok (VStr (s +:+ "×")) else Ok (VStr s)
    | _ => Ok x
    end.

(** *** Tree traversal *)

(** [traverseTree(node, cb)]: [cb] on the node, then on the children in
    order. The callbacks of this file update properties of the node other
    than [children]. *)
Fixpoint traverseTree (cb : obj → result obj) (n : tnode) : result tnode :=
  match n with
  | TNode p ks =>
      p' ← cb p;
      match ks with
      | Some cs =>
          cs' ← (fix each (l : list tnode) : result (list tnode) :=
                   match l with
                   | [] => Ok []
                   | c :: l' =>
                       c' ← traverseTree cb c; r ← each l'; Ok (c' :: r)
                   end) cs;
          Ok (TNode p' (Some cs'))
      | None => Ok (TNode p' None)
      end
  end.

(** *** Colorings *)

(** [v === x] for a string [x]. *)
Definition isStr (x : string) (v : value) : bool :=
  match v with
  | VStr s => String.eqb s x
  | _ => false
  end.

(** Body of the loop over [Object.entries(color_options)]. *)
Definition coloringStep (colorings : obj) (kv : string * value) : result obj :=
  let key := kv.1 in
  let value := kv.2 in
  menuItem ← get value "menuItem";
  legendTitle ← get value "legendTitle";
  let c := aset "title" (orElse menuItem legendTitle) [] in
  ty ← get value "type";
  let c := aset "type"
             (if isStr "continuous" ty then VStr "continuous"
              else VStr "categorical") c in
  color_map ← get value "color_map";
  let c := if truthy color_map then aset "scale" color_map c else c in
  let colorings := aset key (VObj c) colorings in
  if String.eqb key "authors"
  then Ok (adelete key (aset "author" (VObj c) colorings))
  else Ok colorings.

Definition setColorings (v2 : obj) (meta : value) : result obj :=
  color_options ← get meta "color_options";
  entries ← entriesOf color_options;
  colorings ← foldM coloringStep [] entries;
  Ok (aset "colorings" (VObj colorings) v2).

(** *** Top-level metadata *)

Fixpoint isSubstring (pat s : string) : bool :=
  String.prefix pat s ||
  match s with
  | EmptyString => false
  | String _ s' => isSubstring pat s'
  end.

(** [v.includes(x)] as a method call: arrays and strings have the method. *)
Definition includesMethod (v : value) (x : string) : result bool :=
  match v with
  | VArr l => Ok (existsb (isStr x) l)
  | VStr s => Ok (isSubstring x s)
  | _ => Throw TypeError
  end.

Fixpoint replaceFirstStr (x y : string) (l : list value) : list value :=
  match l with
  | [] => []
  | v :: l' => if isStr x v then VStr y :: l' else v :: replaceFirstStr x y l'
  end.

(** [v.splice(v.indexOf(x), 1, y)] when [v] includes [x]: only arrays have
    [splice]. *)
Definition spliceMethod (v : value) (x y : string) : result value :=
  match v with
  | VArr l => Ok (VArr (replaceFirstStr x y l))
  | _ => Throw TypeError
  end.

(** [if (src.from) dst.to = src.from] *)
Definition copyIfTruthy (src : value) (from to : string) (dst : obj) : result obj :=
  x ← get src from;
  if truthy x then Ok (aset to x dst) else Ok dst.

(** The deletion of [meta.defaults] at the end of the defaults block is left
    out: nothing reads [meta.defaults] afterwards. *)
Definition setMiscMetaProperties (v2 : obj) (meta : value) : result obj :=
  title ← get meta "title";
  let v2 := aset "title" title v2 in
  let v2 := aset "version" (VStr "2.0-alpha.0") v2 in
  updated ← get meta "updated";
  let v2 := aset "updated" updated v2 in
  maintainer ← get meta "maintainer";
  v2 ← (if truthy maintainer then
          name ← get maintainer "0";
          url ← get maintainer "1";
          Ok (aset "maintainers"
                (VArr [VObj [("name", name); ("url", url)]]) v2)
        else Ok v2);
  v2 ← copyIfTruthy meta "annotations" "genome_annotations" v2;
  filters ← get meta "filters";
  v2 ← (if truthy filters then
          found ← includesMethod filters "authors";
          if found : bool then
            filters' ← spliceMethod filters "authors" "author";
            Ok (aset "filters" filters' v2)
          else Ok (aset "filters" filters v2)
        else Ok v2);
  v2 ← copyIfTruthy meta "panels" "panels" v2;
  defaults ← get meta "defaults";
  v2 ← (if truthy defaults then
          d ← copyIfTruthy defaults "geoResolution" "geo_resolution" [];
          d ← copyIfTruthy defaults "colorBy" "color_by" d;
          d ← copyIfTruthy defaults "distanceMeasure" "distance_measure" d;
          d ← copyIfTruthy defaults "mapTriplicate" "map_triplicate" d;
          Ok (aset "display_defaults" (VObj d) v2)
        else Ok v2);
  copyIfTruthy meta "geo" "geographic_info" v2.

(** *** Author info *)

(** The callback of [setAuthorInfo] on the properties of one node. *)
Definition authorCallback (author_info : value) (node : obj) : result obj :=
  let attr := prop "attr" node in
  if truthy attr then
    authors ← get attr "authors";
    if truthy authors then
      let v1author := authors in
      key ← toStr v1author;
      v1info ← get author_info key;
      let attr := deleteProp attr "authors" in
      if negb (truthy v1info) then Ok (aset "attr" attr node)
      else
        author ← copyIfTruthy v1info "title" "title" [];
        author ← copyIfTruthy v1info "journal" "journal" author;
        author ← copyIfTruthy v1info "paper_url" "paper_url" author;
        pretty ← prettyString v1author defaultOptions;
        let author := aset "author" pretty author in
        let author := aset "value" v1author author in
        attr ← setProp attr "author" (VObj author);
        Ok (aset "attr" attr node)
    else Ok node
  else Ok node.

Definition setAuthorInfo (meta : value) (tree : tnode) : result tnode :=
  author_info ← get meta "author_info";
  if negb (truthy author_info) then Ok tree
  else traverseTree (authorCallback author_info) tree.

(** *** Vaccine choices *)

Definition vaccineCallback (vaccine_choices : value) (n : obj) : result obj :=
  key ← toStr (prop "strain" n);
  choice ← get vaccine_choices key;
  if truthy choice
  then Ok (aset "vaccine" (VObj [("selection_date", choice)]) n)
  else Ok n.

Definition serumCallback (n : obj) : result obj :=
  if truthy (prop "serum" n) then
    let n := if negb (truthy (prop "vaccine" n))
             then aset "vaccine" (VObj []) n else n in
    vaccine ← setProp (prop "vaccine" n) "serum" (VBool true);
    Ok (aset "vaccine" vaccine n)
  else Ok n.

Definition setVaccineChoicesOnNodes (meta : value) (tree : tnode) : result tnode :=
  vaccine_choices ← get meta "vaccine_choices";
  tree ← (if truthy vaccine_choices
          then traverseTree (vaccineCallback vaccine_choices) tree
          else Ok tree);
  traverseTree serumCallback tree.

(** *** The per-node reshape *)

Definition allowedProperties : list string :=
  ["strain"; "div"; "num_date"; "vaccine"; "labels"; "hidden"; "mutations";
   "url"; "accession"; "traits"; "children"; "author"].

Definition attrsToIgnore : list string :=
  ["clock_length"; "date"; "raw_date"; "strain"].

(** [s.endsWith(suffix)] *)
Definition endsWith (suffix s : string) : bool :=
  (String.length suffix <=? String.length s)%nat &&
  String.eqb
    (substring (String.length s - String.length suffix)
       (String.length suffix) s) suffix.

(** While the callback runs, [node.attr] is held in a variable of its own;
    the entry of [node] is not kept up to date, the final pruning removes
    it. *)
Record reshape : Type := mkReshape { r_node : obj; r_attr : value }.

(** [if (node.attr.k) { node.k = node.attr.k; delete node.attr.k; }] *)
Definition moveToNode (k : string) (st : reshape) : result reshape :=
  x ← get (r_attr st) k;
  if truthy x
  then Ok {| r_node := aset k x (r_node st);
             r_attr := deleteProp (r_attr st) k |}
  else Ok st.

(** [if (!node.labels) node.labels = {}; node.labels.k = x;] *)
Definition setLabel (k : string) (x : value) (node : obj) : result obj :=
  let node := if negb (truthy (prop "labels" node))
              then aset "labels" (VObj []) node else node in
  labels ← setProp (prop "labels" node) k x;
  Ok (aset "labels" labels node).

Definition cladeLabel (st : reshape) : result reshape :=
  clade_name ← get (r_attr st) "clade_name";
  clade_annotation ← get (r_attr st) "clade_annotation";
  if truthy clade_name || truthy clade_annotation then
    node ← setLabel "clade" (orElse clade_annotation clade_name) (r_node st);
    Ok {| r_node := node;
          r_attr := deleteProp (deleteProp (r_attr st) "clade_name")
                      "clade_annotation" |}
  else Ok st.

(** Body of [for (const aa in node.aa_muts)]. *)
Definition aaMutStep (aa_muts : value) (muts : list string) (aa : string)
  : result (list string) :=
  m ← get aa_muts aa;
  len ← get m "length";
  if truthy len then
    joined ← joinValue m ", ";
    Ok (muts ++ [aa +:+ ": " +:+ joined])
  else Ok muts.

Definition aaLabel (node : obj) : result obj :=
  let aa_muts := prop "aa_muts" node in
  if truthy aa_muts then
    keys ← keysOf aa_muts;
    muts ← foldM (aaMutStep aa_muts) [] keys;
    if (0 <? length muts)%nat
    then setLabel "aa" (VStr (joinStrings "; " muts)) node
    else Ok node
  else Ok node.

Definition numDate (st : reshape) : result reshape :=
  num_date ← get (r_attr st) "num_date";
  if truthy num_date then
    let attr := deleteProp (r_attr st) "num_date" in
    confidence ← get attr "num_date_confidence";
    if truthy confidence then
      Ok {| r_node := aset "num_date"
                        (VObj [("value", num_date); ("confidence", confidence)])
                        (r_node st);
            r_attr := deleteProp attr "num_date_confidence" |}
    else
      Ok {| r_node := aset "num_date" (VObj [("value", num_date)]) (r_node st);
            r_attr := attr |}
  else Ok st.

Definition isUndefined (v : value) : bool :=
  match v with VUndef => true | _ => false end.

Definition divergence (st : reshape) : result reshape :=
  div ← get (r_attr st) "div";
  if negb (isUndefined div)
  then Ok {| r_node := aset "div" div (r_node st);
             r_attr := deleteProp (r_attr st) "div" |}
  else Ok st.

Definition isTraitKey (a : string) : bool :=
  negb (endsWith "_entropy" a) && negb (endsWith "_confidence" a)
  && negb (bool_decide (a ∈ attrsToIgnore)).

(** The data of one trait. *)
Definition traitData (attr : value) (trait : string) : result value :=
  x ← get attr trait;
  let data := [("value", x)] in
  confidence ← get attr (trait +:+ "_confidence");
  let data := if truthy confidence then aset "confidence" confidence data
              else data in
  entropy ← get attr (trait +:+ "_entropy");
  let data := if truthy entropy then aset "entropy" entropy data else data in
  Ok (VObj data).

(** Body of [for (const trait of traitKeys)]. *)
Definition traitStep (attr : value) (node : obj) (trait : string) : result obj :=
  data ← traitData attr trait;
  traits ← setProp (prop "traits" node) trait data;
  Ok (aset "traits" traits node).

Definition transferTraits (st : reshape) : result obj :=
  keys ← keysOf (r_attr st);
  let traitKeys := List.filter isTraitKey keys in
  let node := if (0 <? length traitKeys)%nat
              then aset "traits" (VObj []) (r_node st) else r_node st in
  foldM (traitStep (r_attr st)) node traitKeys.

(** The block guarded by [if (node.attr)]. *)
Definition attrBlock (node : obj) : result obj :=
  let st := {| r_node := node; r_attr := prop "attr" node |} in
  st ← moveToNode "author" st;
  st ← moveToNode "accession" st;
  st ← moveToNode "url" st;
  st ← cladeLabel st;
  node ← aaLabel (r_node st);
  st ← numDate {| r_node := node; r_attr := r_attr st |};
  st ← divergence st;
  transferTraits st.

Definition mutationsBlock (node : obj) : result obj :=
  let muts := prop "muts" node in
  let aa_muts := prop "aa_muts" node in
  if truthy muts || truthy aa_muts then
    let node := aset "mutations" (VObj []) node in
    let node := if truthy aa_muts then aset "mutations" aa_muts node else node in
    node ← (if truthy muts then
              mutations ← setProp (prop "mutations" node) "nuc" muts;
              Ok (aset "mutations" mutations node)
            else Ok node);
    Ok (adelete "aa_muts" (adelete "muts" node))
  else Ok node.

(** [Object.keys(node).filter(...).forEach((prop) => delete node[prop])];
    [children] is on the allow-list. *)
Definition pruneNode (node : obj) : obj :=
  List.filter (λ kv, bool_decide (kv.1 ∈ allowedProperties)) node.

(** The callback of [storeTreeAsV2] on the properties of one node. *)
Definition storeCallback (node : obj) : result obj :=
  node ← (if truthy (prop "attr" node) then attrBlock node else Ok node);
  node ← mutationsBlock node;
  Ok (pruneNode node).

Definition storeTreeAsV2 (tree : tnode) : result tnode :=
  traverseTree storeCallback tree.

(** *** The migration *)

Record document : Type := mkDocument {
  tree : tnode;
  meta : value;
  treeName : value }.

(** The new-schema document: its properties other than [tree], and [tree]. *)
Record documentV2 : Type := mkDocumentV2 {
  fields : obj;
  v2tree : tnode }.

Definition convertFromV1 (doc : document) : result documentV2 :=
  let v2 := [] in
  v2 ← setColorings v2 (meta doc);
  v2 ← setMiscMetaProperties v2 (meta doc);
  t ← setAuthorInfo (meta doc) (tree doc);
  t ← setVaccineChoicesOnNodes (meta doc) t;
  t ← storeTreeAsV2 t;
  let v2 := if truthy (treeName doc)
            then aset "tree_name" (treeName doc) v2 else v2 in
  Ok {| fields := v2; v2tree := t |}.

(** *** Nodes of a tree *)

Fixpoint nodesOf (t : tnode) : list tnode :=
  match t with
  | TNode p ks =>
      t :: match ks with
           | Some cs => concat (List.map nodesOf cs)
           | None => []
           end
  end.

(** [Object.keys(node)]: own properties, and [children] when present. *)
Definition nodeKeys (n : tnode) : list string :=
  map fst (props n) ++ match kids n with Some _ => ["children"] | None => [] end.

(** Two trees of the same shape whose nodes are related one by one. *)
Inductive TreeRel (R : obj → obj → Prop) : tnode → tnode → Prop :=
| TreeRel_tip p p' :
    R p p' → TreeRel R (TNode p None) (TNode p' None)
| TreeRel_inner p p' cs cs' :
    R p p' → Forall2 (TreeRel R) cs cs' →
    TreeRel R (TNode p (Some cs)) (TNode p' (Some cs')).

(** Every node of the second tree is the image of a node of the first. *)
Definition hasPreimage (R : obj → obj → Prop) (l : list tnode) (n' : tnode) : Prop :=
  ∃ n, n ∈ l ∧ R (props n) (props n') ∧
       (is_Some (kids n) ↔ is_Some (kids n')).

(** *** Documents the migration accepts *)

Definition isArray (v : value) : bool :=
  match v with VArr _ => true | _ => false end.

(** A value [toStr] converts. *)
Definition isKeyable (v : value) : bool :=
  match v with
  | VNum _ | VArr _ | VObj _ => false
  | _ => true
  end.

(** [meta] is an object (or any value other than [undefined] and [null])
    whose [color_options] is neither [undefined] nor [null], with no
    [undefined] or [null] entry, and whose [filters], when truthy, is an
    array. Nothing is asked of [title], [updated], [maintainer], [defaults]
    and the other optional fields. *)
Definition wfMeta (meta : value) : bool :=
  match get meta "color_options" with
  | Ok color_options =>
      match entriesOf color_options with
      | Ok entries => forallb (λ e, negb (isNullish e.2)) entries
      | _ => false
      end
  | _ => false
  end
  && match get meta "filters" with
     | Ok filters => negb (truthy filters) || isArray filters
     | _ => false
     end.

(** One value of [aa_muts]: not [undefined] or [null]; when its [length] is
    truthy, an array of strings, booleans, [undefined] or [null]. *)
Definition wfMutations (m : value) : bool :=
  match get m "length" with
  | Ok len =>
      negb (truthy len) ||
      match m with
      | VArr l => forallb isKeyable l
      | _ => false
      end
  | _ => false
  end.

Definition wfAaMuts (aa_muts : value) : bool :=
  negb (truthy aa_muts) ||
  (negb (isArray aa_muts) &&
   match keysOf aa_muts with
   | Ok keys =>
       forallb (λ k, match get aa_muts k with
                     | Ok m => wfMutations m
                     | _ => false
                     end) keys
   | _ => false
   end).

(** What the author pass needs of a node: a truthy [attr.authors] is a
    string. *)
Definition condAuthor (meta : value) (p : obj) : bool :=
  match get meta "author_info" with
  | Ok author_info =>
      negb (truthy author_info) ||
      match get (prop "attr" p) "authors" with
      | Ok authors => negb (truthy authors) || isString authors
      | _ => true
      end
  | _ => false
  end.

(** What the vaccine passes need: a [strain] that converts to a key, and no
    array as [vaccine] under a truthy [serum]. *)
Definition condVaccine (meta : value) (p : obj) : bool :=
  match get meta "vaccine_choices" with
  | Ok vaccine_choices =>
      negb (truthy vaccine_choices) || isKeyable (prop "strain" p)
  | _ => false
  end.

Definition condSerum (p : obj) : bool :=
  negb (truthy (prop "serum" p)) || negb (isArray (prop "vaccine" p)).

(** What the reshape needs: no array as [labels], well-formed [aa_muts]. *)
Definition condStore (p : obj) : bool :=
  negb (isArray (prop "labels" p)) && wfAaMuts (prop "aa_muts" p).

(** What the passes need of one node. Nothing is asked of [attr] beyond
    [attr.authors], of [num_date] or of any other attribute. *)
Definition wfNode (meta : value) (p : obj) : bool :=
  condAuthor meta p && condVaccine meta p && condSerum p && condStore p.

Fixpoint allNodes (P : obj → bool) (t : tnode) : bool :=
  match t with
  | TNode p ks =>
      P p && match ks with
             | Some cs => forallb (allNodes P) cs
             | None => true
             end
  end.

Definition wfDocument (doc : document) : bool :=
  wfMeta (meta doc) && allNodes (wfNode (meta doc)) (tree doc).

(** *** What the reshape leaves alone *)

(** [b] agrees with [a] on every key outside [W]. *)
Definition sameExcept (W : list string) (a b : obj) : Prop :=
  ∀ k, k ∉ W → alookup k b = alookup k a.

(** When [a] is an object, so is [a'], with the same entries outside [D]. *)
Definition attrFrame (D : list string) (a a' : value) : Prop :=
  ∀ kvs, a = VObj kvs →
    ∃ kvs', a' = VObj kvs' ∧ ∀ k, k ∉ D → alookup k kvs' = alookup k kvs.

Definition storeKeys : list string :=
  ["author"; "accession"; "url"; "labels"; "num_date"; "div"; "traits"].

Definition attrDeleted : list string :=
  ["author"; "accession"; "url"; "clade_name"; "clade_annotation";
   "num_date"; "num_date_confidence"; "div"].

(** The value [traitStep] stores for a trait with value [v], confidence [c]
    and entropy [e]. *)
Definition traitObject (v c e : value) : value :=
  VObj (let data := [("value", v)] in
        let data := if truthy c then aset "confidence" c data else data in
        if truthy e then aset "entropy" e data else data).

(** *** Sample documents *)

Definition sampleTip : tnode :=
  TNode [("strain", VStr "A/1");
         ("attr", VObj [("authors", VStr "smith_et_al");
                        ("num_date", VNum 2015.5); ("div", VNum 0);
                        ("country", VStr "usa");
                        ("country_confidence", VObj [("usa", VNum 1)]);
                        ("clade_name", VStr "3c")]);
         ("muts", VArr [VStr "A1G"]);
         ("aa_muts", VObj [("HA1", VArr [VStr "K1R"; VStr "T2S"]);
                           ("HA2", VArr [])]);
         ("yvalue", VNum 3)] None.

(** A tip with neither [attr] nor [num_date]. *)
Definition bareTip : tnode := TNode [("strain", VStr "A/2")] None.

Definition sampleRoot : tnode :=
  TNode [("strain", VStr "root"); ("attr", VObj [("div", VNum 0)]);
         ("serum", VBool true)] (Some [sampleTip; bareTip]).

(** No [updated], an author without an [author_info] entry. *)
Definition sampleMeta : value :=
  VObj [("title", VStr "flu");
        ("color_options",
         VObj [("authors", VObj [("menuItem", VStr "Authors");
                                 ("type", VStr "discrete")]);
               ("num_date", VObj [("legendTitle", VStr "Date");
                                  ("type", VStr "continuous")])]);
        ("filters", VArr [VStr "country"; VStr "authors"]);
        ("author_info", VObj [("jones_et_al", VObj [("title", VStr "A paper")])]);
        ("vaccine_choices", VObj [("A/1", VStr "2015-01-01")])].

Definition sampleDocument : document :=
  {| tree := sampleRoot; meta := sampleMeta; treeName := VUndef |}.

(** A [meta] without [color_options]. *)
Definition documentWithoutColorOptions : document :=
  {| tree := bareTip; meta := VObj [("title", VStr "flu")];
     treeName := VUndef |}.

(** No [author_info]; the node has [attr.authors] with a confidence, and an
    [author] of its own. *)
Definition documentWithoutAuthorInfo : document :=
  {| tree := TNode [("strain", VStr "A/3"); ("author", VStr "kept");
                    ("attr", VObj [("authors", VStr "smith_et_al");
                                   ("authors_confidence", VNum 1)])] None;
     meta := VObj [("color_options", VObj [])];
     treeName := VUndef |}.

(** *** Properties claimed of the migration *)

(** C4 as worded: the migration returns on every document. *)
Definition alwaysReturns (doc : document) : Prop :=
  ∃ v2, convertFromV1 doc = Ok v2.

Definition noAuthorInfo (meta : value) : bool :=
  match get meta "author_info" with
  | Ok author_info => negb (truthy author_info)
  | _ => false
  end.

(** C10 as worded: every node carrying [attr.authors] ends with
    [traits.authors = {value: authors}] and without [author]. *)
Definition authorsBecomeBareTrait (doc : document) (v2 : documentV2) : Prop :=
  TreeRel (λ p p', ∀ kvs v,
      alookup "attr" p = Some (VObj kvs) → alookup "authors" kvs = Some v →
      (∃ tr, alookup "traits" p' = Some (VObj tr) ∧
             alookup "authors" tr = Some (VObj [("value", v)])) ∧
      alookup "author" p' = None)
    (tree doc) (v2tree v2).

(** *** The passes over one node *)

(** What the author pass makes of the properties of a node. *)
Definition authorPass (meta : value) (p p1 : obj) : Prop :=
  ∃ info, get meta "author_info" = Ok info ∧
          if truthy info then authorCallback info p = Ok p1 else p1 = p.

(** What the first vaccine pass makes of them. *)
Definition vaccinePass (meta : value) (p p1 : obj) : Prop :=
  ∃ vc, get meta "vaccine_choices" = Ok vc ∧
        if truthy vc then vaccineCallback vc p = Ok p1 else p1 = p.

(** The four callbacks in the order [convertFromV1] runs them. *)
Definition nodePasses (meta : value) (p p' : obj) : Prop :=
  ∃ p1 p2 p3,
    authorPass meta p p1 ∧ vaccinePass meta p1 p2 ∧
    serumCallback p2 = Ok p3 ∧ storeCallback p3 = Ok p'.

(** The second object has no entry the first has not. *)
Definition attrShrinks (a a' : value) : Prop :=
  ∀ kvs, a = VObj kvs →
    ∃ kvs', a' = VObj kvs' ∧
            ∀ k v, alookup k kvs' = Some v → alookup k kvs = Some v.

(** [v.k] for a [v] that is neither [undefined] nor [null]. *)
Definition field (k : string) (v : value) : value :=
  match get v k with
  | Ok x => x
  | _ => VUndef
  end.

(** The value [numDate] stores under [num_date]. *)
Definition numDateObject (n c : value) : value :=
  VObj (("value", n) :: if truthy c then [("confidence", c)] else []).



(** The top-level keys [setMiscMetaProperties] may write. *)
Definition miscKeys : list string :=
  ["title"; "version"; "updated"; "maintainers"; "genome_annotations";
   "filters"; "panels"; "display_defaults"; "geographic_info"].

(** The first [x] of [l], if any, is at index [i]. *)
Definition firstAt (x : string) (l : list value) (i : nat) : bool :=
  isStr x (default VUndef (l !! i)) && forallb (λ v, negb (isStr x v)) (take i l).

(** A document whose [author_info] has an entry for the author of
    [sampleTip], and which names its tree. *)
Definition documentWithAuthorInfo : document :=
  {| tree := sampleRoot;
     meta := VObj [("color_options", VObj []);
                   ("maintainer", VArr [VStr "A. Maintainer";
                                        VStr "http://example.org"]);
                   ("defaults", VObj [("colorBy", VStr "num_date")]);
                   ("author_info",
                    VObj [("smith_et_al",
                           VObj [("title", VStr "A paper");
                                 ("journal", VStr "A journal")])])];
     treeName := VStr "flu" |}.

(** *** Reasoning about outcomes *)

Lemma bind_Ok {A B} (m : result A) (f : A → result B) (y : B) :
  (x ← m; f x) = Ok y → ∃ a, m = Ok a ∧ f a = Ok y.
Proof. destruct m as [a| |]; [|done..]. intros H. by exists a. Qed.

Ltac inv_bind H :=
  let a := fresh "a" in
  let Ha := fresh "H" a in
  apply bind_Ok in H as (a & Ha & H).

(** *** Facts about trees *)

Lemma tnode_induction (P : tnode → Prop) :
  (∀ p, P (TNode p None)) →
  (∀ p cs, Forall P cs → P (TNode p (Some cs))) →
  ∀ t, P t.
Proof.
  intros Htip Hinner. fix IH 1. intros [p [cs|]]; [|apply Htip].
  apply Hinner. induction cs as [|c cs IHcs]; constructor; [apply IH|apply IHcs].
Qed.

Lemma traverse_each_Ok (cb : obj → result obj) cs cs' :
  Forall (λ c, ∀ c', traverseTree cb c = Ok c' →
                     TreeRel (λ p p', cb p = Ok p') c c') cs →
  (fix each (l : list tnode) : result (list tnode) :=
     match l with
     | [] => Ok []
     | c :: l' => c' ← traverseTree cb c; r ← each l'; Ok (c' :: r)
     end) cs = Ok cs' →
  Forall2 (TreeRel (λ p p', cb p = Ok p')) cs cs'.
Proof.
  intros Hall. revert cs'. induction Hall as [|c cs Hc _ IH]; intros cs' H.
  - injection H as <-. constructor.
  - inv_bind H. inv_bind H. injection H as <-.
    constructor; [by apply Hc|by apply IH].
Qed.

Lemma traverse_rel (cb : obj → result obj) t t' :
  traverseTree cb t = Ok t' → TreeRel (λ p p', cb p = Ok p') t t'.
Proof.
  revert t'. induction t as [p|p cs IH] using tnode_induction; intros t' H.
  - simpl in H. inv_bind H. injection H as <-. by constructor.
  - simpl in H. inv_bind H. inv_bind H. injection H as <-.
    constructor; [done|]. by apply traverse_each_Ok.
Qed.

Lemma TreeRel_impl (R1 R2 : obj → obj → Prop) t t' :
  (∀ p p', R1 p p' → R2 p p') → TreeRel R1 t t' → TreeRel R2 t t'.
Proof.
  intros HR. revert t'.
  induction t as [p|p cs IH] using tnode_induction; intros t' H.
  - inversion H; subst. constructor. by apply HR.
  - inversion H as [|? p' ? cs' Hp Hcs]; subst. constructor; [by apply HR|].
    clear H. induction Hcs as [|c c' cs cs' Hc _ IHcs]; [constructor|].
    inversion IH; subst. constructor; [auto|auto].
Qed.

Lemma TreeRel_refl (R : obj → obj → Prop) t :
  (∀ p, R p p) → TreeRel R t t.
Proof.
  intros HR. induction t as [p|p cs IH] using tnode_induction.
  - by constructor.
  - constructor; [done|]. induction IH; by constructor.
Qed.

Lemma TreeRel_compose (R1 R2 : obj → obj → Prop) t1 t2 t3 :
  TreeRel R1 t1 t2 → TreeRel R2 t2 t3 →
  TreeRel (λ p p'', ∃ p', R1 p p' ∧ R2 p' p'') t1 t3.
Proof.
  revert t2 t3.
  induction t1 as [p|p cs IH] using tnode_induction; intros t2 t3 H12 H23.
  - inversion H12; subst. inversion H23; subst. constructor. eauto.
  - inversion H12 as [|? p2 ? cs2 Hp Hcs]; subst.
    inversion H23 as [|? p3 ? cs3 Hp' Hcs']; subst.
    constructor; [eauto|]. clear H12 H23 Hp Hp'.
    revert cs3 Hcs'. induction Hcs as [|c c2 cs cs2 Hc _ IHcs]; intros cs3 Hcs'.
    + inversion Hcs'. constructor.
    + inversion Hcs' as [|? c3 ? cs3' Hc3 Hcs3]; subst.
      inversion IH; subst. constructor; [eauto|auto].
Qed.

Lemma TreeRel_nodes_list (R : obj → obj → Prop) cs cs' n' :
  Forall2 (TreeRel R) cs cs' →
  Forall (λ c, ∀ c' n', TreeRel R c c' → n' ∈ nodesOf c' →
                        hasPreimage R (nodesOf c) n') cs →
  n' ∈ concat (List.map nodesOf cs') →
  hasPreimage R (concat (List.map nodesOf cs)) n'.
Proof.
  intros Hcs. revert n'.
  induction Hcs as [|c c' cs cs' Hc _ IHcs]; intros n' Hall Hn.
  - simpl in Hn. by apply elem_of_nil in Hn.
  - inversion Hall as [|?? Hc0 Hcs0]; subst. simpl in Hn.
    apply elem_of_app in Hn as [Hn|Hn].
    + destruct (Hc0 _ _ Hc Hn) as (n & Hin & HR).
      exists n. split; [|done]. simpl. apply elem_of_app. by left.
    + destruct (IHcs _ Hcs0 Hn) as (n & Hin & HR).
      exists n. split; [|done]. simpl. apply elem_of_app. by right.
Qed.

Lemma TreeRel_nodes (R : obj → obj → Prop) t t' n' :
  TreeRel R t t' → n' ∈ nodesOf t' → hasPreimage R (nodesOf t) n'.
Proof.
  revert t' n'.
  induction t as [p|p cs IH] using tnode_induction; intros t' n' H Hn.
  - inversion H; subst. simpl in Hn. apply list_elem_of_singleton in Hn as ->.
    exists (TNode p None). split; [simpl; by left|]. done.
  - inversion H as [|? p' ? cs' Hp Hcs]; subst. simpl in Hn.
    apply elem_of_cons in Hn as [->|Hn].
    { exists (TNode p (Some cs)). split; [simpl; by left|].
      split; [done|]. simpl. split; by eauto. }
    destruct (TreeRel_nodes_list R cs cs' n' Hcs IH Hn) as (n & Hin & HR).
    exists n. split; [|done]. simpl. by right.
Qed.

(** *** prettyString: the documented examples *)

Lemma mapString_empty f s : mapString f s = "" → s = "".
Proof. by destruct s. Qed.

Lemma capitalizeWords_empty b s : capitalizeWords b s = "" → s = "".
Proof.
  destruct s as [|c s]; [done|]. simpl.
  destruct b; [done|]. by destruct (isWordChar c).
Qed.

Lemma append_empty_r s1 s2 : s1 +:+ s2 = "" → s2 = "".
Proof. destruct s1; [done|]. by intros. Qed.

Lemma append_empty_l s1 s2 : s1 +:+ s2 = "" → s1 = "".
Proof. by destruct s1. Qed.

Lemma placePoint_nonempty f m : placePoint f m ≠ "".
Proof.
  unfold placePoint. intros Hs.
  destruct (f =? 0)%nat; [|by apply append_empty_r in Hs].
  destruct (String.length m <=? f)%nat eqn:E.
  - apply append_empty_l in Hs. apply Nat.leb_le in E.
    destruct (f + 1 - String.length m) eqn:E'; [lia|done].
  - by subst m.
Qed.

Lemma toFixed_nonempty q d s : toFixed q d = Ok s → s ≠ "".
Proof.
  unfold toFixed.
  destruct ((d <? 0)%Z || (100 <? d)%Z); [done|].
  destruct (Qle_bool _ _); [done|].
  intros H Hs. injection H as H. rewrite Hs in H.
  apply append_empty_r in H. by apply placePoint_nonempty in H.
Qed.

Lemma prettyString_default_string s :
  s ≠ "" →
  prettyString (VStr s) defaultOptions =
  Ok (VStr (if bool_decide (toLowerCase s ∈ ["usvi"; "usa"; "uk"])
            then toUpperCase s
            else capitalizeWords false (underscoresToSpaces s))).
Proof.
  intros Hs. destruct s as [|c s]; [done|].
  unfold prettyString.
  change (truthy (VStr (String c s))) with true.
  cbn [negb andb trim defaultOptions Nat.ltb Nat.leb camelCase removeComma
       stripEtAl].
  by destruct (bool_decide _).
Qed.

(** C8. [prettyString("hello_world")] is ["Hello World"],
    [prettyString("usa")] is ["USA"], [prettyString(3.14159, {})] shows five
    significant digits (["3.1416"]), [prettyString(0, {})] is not the empty
    string; with the default options the empty string comes back only for
    [undefined], [null], [false] and the empty string. Numbers are exact
    rationals here. *)
Theorem prettyString_examples :
  prettyString (VStr "hello_world") defaultOptions = Ok (VStr "Hello World") ∧
  prettyString (VStr "usa") defaultOptions = Ok (VStr "USA") ∧
  prettyString (VNum 3.14159) defaultOptions = Ok (VStr "3.1416") ∧
  prettyString (VNum 0) defaultOptions ≠ Ok (VStr "") ∧
  ∀ x, prettyString x defaultOptions = Ok (VStr "") ↔
       x = VUndef ∨ x = VNull ∨ x = VBool false ∨ x = VStr "".
Proof.
  split; [by vm_compute|]. split; [by vm_compute|].
  split; [by vm_compute|]. split; [by vm_compute|].
  intros x. split.
  - destruct x as [| |[]|q|s|l|kvs]; try by auto.
    + intros H. unfold prettyString in H. simpl in H.
      rewrite negb_involutive in H.
      destruct (isZero q) eqn:Ez; simpl in H.
      * inv_bind H. apply toFixed_nonempty in Ha. by injection H as ->.
      * inv_bind H. apply toFixed_nonempty in Ha. by injection H as ->.
    + intros H. destruct (decide (s = "")) as [->|Hne]; [by auto|].
      rewrite prettyString_default_string in H by done.
      destruct (bool_decide _) in H.
      * injection H as H. by apply mapString_empty in H.
      * injection H as H. apply capitalizeWords_empty in H.
        by apply mapString_empty in H.
  - by intros [-> | [-> | [-> | ->]]].
Qed.

(** *** The allow-list *)

Lemma pruneNode_keys node k :
  k ∈ map fst (pruneNode node) → k ∈ allowedProperties.
Proof.
  unfold pruneNode. rewrite list_elem_of_In, in_map_iff.
  intros ([k' v] & <- & Hin). apply filter_In in Hin as [_ Hk].
  by apply bool_decide_eq_true in Hk.
Qed.

Lemma storeCallback_keys p p' k :
  storeCallback p = Ok p' → k ∈ map fst p' → k ∈ allowedProperties.
Proof.
  unfold storeCallback. intros H. inv_bind H. inv_bind H.
  injection H as <-. apply pruneNode_keys.
Qed.

(** C5. Every own property key of every node of the tree returned by
    [convertFromV1] is on the allow-list; in particular no node keeps its
    [attr] bag. *)
Theorem migrated_node_keys doc v2 n k :
  convertFromV1 doc = Ok v2 →
  n ∈ nodesOf (v2tree v2) →
  k ∈ nodeKeys n →
  k ∈ allowedProperties ∧ k ≠ "attr".
Proof.
  intros H Hn Hk.
  assert (k ∈ allowedProperties) as Hal; [|split; [done|]].
  - unfold convertFromV1 in H.
    apply bind_Ok in H as (f1 & _ & H). apply bind_Ok in H as (f2 & _ & H).
    apply bind_Ok in H as (t1 & _ & H). apply bind_Ok in H as (t2 & _ & H).
    apply bind_Ok in H as (t3 & Hstore & H). injection H as <-.
    simpl in Hn. unfold storeTreeAsV2 in Hstore. apply traverse_rel in Hstore.
    destruct (TreeRel_nodes _ _ _ _ Hstore Hn) as (n0 & _ & Hcb & _).
    unfold nodeKeys in Hk. apply elem_of_app in Hk as [Hk|Hk].
    + by apply (storeCallback_keys _ _ _ Hcb).
    + destruct (kids n); [|by apply elem_of_nil in Hk].
      apply list_elem_of_singleton in Hk as ->.
      apply (bool_decide_unpack _). by vm_compute.
  - intros ->. apply (bool_decide_pack _) in Hal. by vm_compute in Hal.
Qed.

(** *** Totality of the metadata passes *)

Lemma truthy_not_nullish v : truthy v = true → isNullish v = false.
Proof. by destruct v. Qed.

Lemma get_Ok v k : isNullish v = false → ∃ x, get v k = Ok x.
Proof.
  destruct v as [| |b|q|s|l|kvs]; try done; intros _; simpl; eauto.
  - destruct (String.eqb k "length"); [eauto|]. destruct (parseIndex k); eauto.
  - destruct (String.eqb k "length"); [eauto|]. destruct (parseIndex k); eauto.
Qed.

Lemma get_Ok_inv v k x : get v k = Ok x → isNullish v = false.
Proof. by destruct v. Qed.

Lemma copyIfTruthy_Ok src from to dst :
  isNullish src = false → ∃ d, copyIfTruthy src from to dst = Ok d.
Proof.
  intros Hs. unfold copyIfTruthy.
  destruct (get_Ok src from Hs) as [x ->]. simpl. destruct (truthy x); eauto.
Qed.

Lemma coloringStep_Ok colorings kv :
  isNullish kv.2 = false → ∃ c, coloringStep colorings kv = Ok c.
Proof.
  intros Hv. unfold coloringStep.
  destruct (get_Ok kv.2 "menuItem" Hv) as [x1 ->].
  destruct (get_Ok kv.2 "legendTitle" Hv) as [x2 ->].
  destruct (get_Ok kv.2 "type" Hv) as [x3 ->].
  destruct (get_Ok kv.2 "color_map" Hv) as [x4 ->]. simpl.
  destruct (String.eqb kv.1 "authors"); eauto.
Qed.

Lemma foldM_Ok {S A} (f : S → A → result S) (P : A → Prop) l s :
  (∀ s x, P x → ∃ s', f s x = Ok s') → Forall P l → ∃ s', foldM f s l = Ok s'.
Proof.
  intros Hf Hl. revert s. induction Hl as [|x l Hx _ IH]; intros s.
  - by eexists.
  - simpl. destruct (Hf s x Hx) as [s' ->]. simpl. apply IH.
Qed.

Lemma setColorings_Ok v2 meta :
  wfMeta meta = true → ∃ v2', setColorings v2 meta = Ok v2'.
Proof.
  unfold wfMeta, setColorings. intros [H _]%andb_true_iff.
  destruct (get meta "color_options") as [co| |]; [|done..]. simpl.
  destruct (entriesOf co) as [es| |]; [|done..]. simpl.
  edestruct (foldM_Ok coloringStep (λ e, isNullish e.2 = false) es [])
    as [c ->].
  - intros s x Hx. by apply coloringStep_Ok.
  - apply Forall_forall. intros e He.
    rewrite forallb_forall in H. apply negb_true_iff, H.
    by apply list_elem_of_In.
  - simpl. eauto.
Qed.

Lemma setMiscMetaProperties_Ok v2 meta :
  wfMeta meta = true → ∃ v2', setMiscMetaProperties v2 meta = Ok v2'.
Proof.
  unfold wfMeta. intros [H1 H2]%andb_true_iff.
  assert (isNullish meta = false) as Hm.
  { destruct (get meta "color_options") eqn:E; [|done..].
    by apply get_Ok_inv in E. }
  unfold setMiscMetaProperties.
  destruct (get_Ok meta "title" Hm) as [title ->].
  destruct (get_Ok meta "updated" Hm) as [updated ->].
  destruct (get_Ok meta "maintainer" Hm) as [maintainer ->]. simpl.
  set (v2a := aset "updated" _ _).
  assert (∃ v2b, (if truthy maintainer
                  then name ← get maintainer "0"; url ← get maintainer "1";
                       Ok (aset "maintainers"
                             (VArr [VObj [("name", name); ("url", url)]]) v2a)
                  else Ok v2a) = Ok v2b) as [v2b ->].
  { destruct (truthy maintainer) eqn:Et; [|eauto].
    apply truthy_not_nullish in Et.
    destruct (get_Ok maintainer "0" Et) as [? ->].
    destruct (get_Ok maintainer "1" Et) as [? ->]. simpl. eauto. }
  simpl.
  destruct (copyIfTruthy_Ok meta "annotations" "genome_annotations" v2b Hm)
    as [v2c ->]. simpl.
  destruct (get meta "filters") as [filters| |]; [|done..]. simpl.
  assert (∃ v2d, (if truthy filters
                  then found ← includesMethod filters "authors";
                       if found : bool
                       then filters' ← spliceMethod filters "authors" "author";
                            Ok (aset "filters" filters' v2c)
                       else Ok (aset "filters" filters v2c)
                  else Ok v2c) = Ok v2d) as [v2d ->].
  { destruct (truthy filters); [|eauto]. simpl in H2.
    destruct filters; try done. simpl. destruct (existsb _ _); simpl; eauto. }
  simpl.
  destruct (copyIfTruthy_Ok meta "panels" "panels" v2d Hm) as [v2e ->]. simpl.
  destruct (get_Ok meta "defaults" Hm) as [defaults ->]. simpl.
  assert (∃ v2f, (if truthy defaults
                  then d ← copyIfTruthy defaults "geoResolution" "geo_resolution" [];
                       d ← copyIfTruthy defaults "colorBy" "color_by" d;
                       d ← copyIfTruthy defaults "distanceMeasure" "distance_measure" d;
                       d ← copyIfTruthy defaults "mapTriplicate" "map_triplicate" d;
                       Ok (aset "display_defaults" (VObj d) v2e)
                  else Ok v2e) = Ok v2f) as [v2f ->].
  { destruct (truthy defaults) eqn:Et; [|eauto].
    apply truthy_not_nullish in Et.
    destruct (copyIfTruthy_Ok defaults "geoResolution" "geo_resolution" [] Et)
      as [d1 ->]. simpl.
    destruct (copyIfTruthy_Ok defaults "colorBy" "color_by" d1 Et)
      as [d2 ->]. simpl.
    destruct (copyIfTruthy_Ok defaults "distanceMeasure" "distance_measure" d2 Et)
      as [d3 ->]. simpl.
    destruct (copyIfTruthy_Ok defaults "mapTriplicate" "map_triplicate" d3 Et)
      as [d4 ->]. simpl. eauto. }
  simpl. by apply copyIfTruthy_Ok.
Qed.

(** *** Totality of the callbacks *)

Lemma prettyString_string_Ok s o : ∃ r, prettyString (VStr s) o = Ok (VStr r).
Proof.
  unfold prettyString. destruct (_ && _); [by eexists|].
  destruct (bool_decide _); by eexists.
Qed.

Lemma setProp_Ok target k x :
  isNullish target = false → isArray target = false →
  ∃ v, setProp target k x = Ok v ∧ isArray v = false ∧ isNullish v = false.
Proof. destruct target; try done; intros _ _; by eexists. Qed.

Lemma authorCallback_Ok author_info p :
  truthy author_info = true →
  match get (prop "attr" p) "authors" with
  | Ok authors => negb (truthy authors) || isString authors
  | _ => true
  end = true →
  ∃ p', authorCallback author_info p = Ok p'.
Proof.
  intros Hinfo Hwf. unfold authorCallback.
  destruct (truthy (prop "attr" p)) eqn:Eattr; [|by eexists].
  pose proof (truthy_not_nullish _ Eattr) as Hattr.
  destruct (get_Ok (prop "attr" p) "authors" Hattr) as [authors Hget].
  rewrite Hget in Hwf |- *. simpl.
  destruct (truthy authors) eqn:Eauthors; [|by eexists].
  simpl in Hwf. destruct authors as [| | | |s| |]; try done. simpl.
  destruct (get_Ok author_info s (truthy_not_nullish _ Hinfo)) as [v1info ->].
  simpl. destruct (truthy v1info) eqn:Einfo; simpl; [|by eexists].
  apply truthy_not_nullish in Einfo.
  destruct (copyIfTruthy_Ok v1info "title" "title" [] Einfo) as [a1 ->]. simpl.
  destruct (copyIfTruthy_Ok v1info "journal" "journal" a1 Einfo) as [a2 ->].
  simpl.
  destruct (copyIfTruthy_Ok v1info "paper_url" "paper_url" a2 Einfo) as [a3 ->].
  simpl.
  destruct (prettyString_string_Ok s defaultOptions) as [r ->]. simpl.
  destruct (prop "attr" p) as [| |b|q|s0|l|kvs]; try done; simpl in *;
    try (by eexists).
Qed.

Lemma authorCallback_frame author_info p p' k :
  authorCallback author_info p = Ok p' → k ≠ "attr" →
  alookup k p' = alookup k p.
Proof.
  unfold authorCallback. intros H Hk.
  destruct (truthy (prop "attr" p)); [|by injection H as <-].
  inv_bind H. destruct (truthy a); [|by injection H as <-].
  inv_bind H. inv_bind H.
  destruct (negb (truthy a1)).
  - injection H as <-. by rewrite alookup_aset_ne.
  - do 5 inv_bind H. injection H as <-. by rewrite alookup_aset_ne.
Qed.

Lemma vaccineCallback_Ok vaccine_choices p :
  truthy vaccine_choices = true → isKeyable (prop "strain" p) = true →
  ∃ p', vaccineCallback vaccine_choices p = Ok p'.
Proof.
  intros Hv Hk. unfold vaccineCallback.
  assert (∃ key, toStr (prop "strain" p) = Ok key) as [key ->].
  { destruct (prop "strain" p) as [| |[]| | | |]; try done; by eexists. }
  simpl. destruct (get_Ok vaccine_choices key (truthy_not_nullish _ Hv))
    as [choice ->].
  simpl. destruct (truthy choice); by eexists.
Qed.

Lemma vaccineCallback_frame vaccine_choices p p' :
  vaccineCallback vaccine_choices p = Ok p' →
  (∀ k, k ≠ "vaccine" → alookup k p' = alookup k p) ∧
  (isArray (prop "vaccine" p) = false → isArray (prop "vaccine" p') = false).
Proof.
  unfold vaccineCallback. intros H. inv_bind H. inv_bind H.
  destruct (truthy a0); injection H as <-; [|done].
  split.
  - intros k Hk. by rewrite alookup_aset_ne.
  - intros _. unfold prop. by rewrite alookup_aset_eq.
Qed.

Lemma serumCallback_Ok p :
  negb (truthy (prop "serum" p)) || negb (isArray (prop "vaccine" p)) = true →
  ∃ p', serumCallback p = Ok p'.
Proof.
  intros Hwf. unfold serumCallback.
  destruct (truthy (prop "serum" p)); [|by eexists]. simpl in Hwf.
  apply negb_true_iff in Hwf.
  destruct (truthy (prop "vaccine" p)) eqn:Ev; simpl.
  - destruct (setProp_Ok (prop "vaccine" p) "serum" (VBool true))
      as (v & -> & _); [by apply truthy_not_nullish|done|]. by eexists.
  - unfold prop at 1. rewrite alookup_aset_eq. simpl. by eexists.
Qed.

Lemma serumCallback_frame p p' k :
  serumCallback p = Ok p' → k ≠ "vaccine" → alookup k p' = alookup k p.
Proof.
  unfold serumCallback. intros H Hk.
  destruct (truthy (prop "serum" p)); [|by injection H as <-].
  inv_bind H. injection H as <-. rewrite alookup_aset_ne by done.
  destruct (negb _); [|done]. by rewrite alookup_aset_ne.
Qed.

(** *** Facts about the frames *)

Lemma sameExcept_refl W a : sameExcept W a a.
Proof. by intros k _. Qed.

Lemma sameExcept_trans W a b c :
  sameExcept W a b → sameExcept W b c → sameExcept W a c.
Proof. intros Hab Hbc k Hk. by rewrite Hbc, Hab. Qed.

Lemma sameExcept_weaken W W' a b :
  W ⊆ W' → sameExcept W a b → sameExcept W' a b.
Proof. intros Hsub Hab k Hk. apply Hab. intros Hin. by apply Hk, Hsub. Qed.

Lemma sameExcept_aset W k v a : k ∈ W → sameExcept W a (aset k v a).
Proof.
  intros Hk k' Hk'. apply alookup_aset_ne. intros ->. by apply Hk'.
Qed.

Lemma sameExcept_adelete W k a : k ∈ W → sameExcept W a (adelete k a).
Proof.
  intros Hk k' Hk'. apply alookup_adelete_ne. intros ->. by apply Hk'.
Qed.

Lemma attrFrame_refl D a : attrFrame D a a.
Proof. intros kvs ->. by exists kvs. Qed.

Lemma attrFrame_trans D a b c :
  attrFrame D a b → attrFrame D b c → attrFrame D a c.
Proof.
  intros Hab Hbc kvs Ha. destruct (Hab kvs Ha) as (kvs1 & Hb & H1).
  destruct (Hbc kvs1 Hb) as (kvs2 & Hc & H2).
  exists kvs2. split; [done|]. intros k Hk. by rewrite H2, H1.
Qed.

Lemma attrFrame_weaken D D' a b :
  D ⊆ D' → attrFrame D a b → attrFrame D' a b.
Proof.
  intros Hsub Hab kvs Ha. destruct (Hab kvs Ha) as (kvs1 & Hb & H1).
  exists kvs1. split; [done|]. intros k Hk. apply H1.
  intros Hin. by apply Hk, Hsub.
Qed.

Lemma attrFrame_delete D k a : k ∈ D → attrFrame D a (deleteProp a k).
Proof.
  intros Hk kvs ->. exists (adelete k kvs). split; [done|].
  intros k' Hk'. apply alookup_adelete_ne. intros ->. by apply Hk'.
Qed.

Lemma deleteProp_nullish a k : isNullish (deleteProp a k) = isNullish a.
Proof. by destruct a. Qed.

Lemma moveToNode_inv k st st' :
  moveToNode k st = Ok st' →
  sameExcept [k] (r_node st) (r_node st') ∧
  attrFrame [k] (r_attr st) (r_attr st') ∧
  isNullish (r_attr st') = isNullish (r_attr st) ∧
  ∃ x, get (r_attr st) k = Ok x ∧
       alookup k (r_node st') =
       if truthy x then Some x else alookup k (r_node st).
Proof.
  unfold moveToNode. intros H. inv_bind H.
  destruct (truthy a) eqn:E; injection H as <-; simpl.
  - split; [apply sameExcept_aset; by left|].
    split; [apply attrFrame_delete; by left|].
    split; [apply deleteProp_nullish|].
    exists a. by rewrite E, alookup_aset_eq.
  - split; [apply sameExcept_refl|]. split; [apply attrFrame_refl|].
    split; [done|]. exists a. by rewrite E.
Qed.

Lemma setLabel_inv k x node node' :
  setLabel k x node = Ok node' → sameExcept ["labels"] node node'.
Proof.
  unfold setLabel. intros H. inv_bind H. injection H as <-.
  eapply sameExcept_trans; [|apply sameExcept_aset; by left].
  destruct (negb _); [apply sameExcept_aset; by left|apply sameExcept_refl].
Qed.

Lemma cladeLabel_inv st st' :
  cladeLabel st = Ok st' →
  sameExcept ["labels"] (r_node st) (r_node st') ∧
  attrFrame ["clade_name"; "clade_annotation"] (r_attr st) (r_attr st') ∧
  isNullish (r_attr st') = isNullish (r_attr st).
Proof.
  unfold cladeLabel. intros H. inv_bind H. inv_bind H.
  destruct (_ || _).
  - inv_bind H. injection H as <-. simpl.
    split; [by eapply setLabel_inv|]. split.
    + eapply attrFrame_trans; apply attrFrame_delete; set_solver.
    + by rewrite !deleteProp_nullish.
  - injection H as <-.
    split; [apply sameExcept_refl|]. split; [apply attrFrame_refl|done].
Qed.

Lemma aaLabel_inv node node' :
  aaLabel node = Ok node' → sameExcept ["labels"] node node'.
Proof.
  unfold aaLabel. intros H.
  destruct (truthy _); [|injection H as <-; apply sameExcept_refl].
  inv_bind H. inv_bind H.
  destruct (0 <? _)%nat; [by eapply setLabel_inv|].
  injection H as <-. apply sameExcept_refl.
Qed.

Lemma numDate_inv st st' :
  numDate st = Ok st' →
  sameExcept ["num_date"] (r_node st) (r_node st') ∧
  attrFrame ["num_date"; "num_date_confidence"] (r_attr st) (r_attr st') ∧
  isNullish (r_attr st') = isNullish (r_attr st).
Proof.
  unfold numDate. intros H. inv_bind H.
  destruct (truthy a).
  - inv_bind H. destruct (truthy a0); injection H as <-; simpl.
    + split; [apply sameExcept_aset; by left|]. split.
      * eapply attrFrame_trans; apply attrFrame_delete; set_solver.
      * by rewrite !deleteProp_nullish.
    + split; [apply sameExcept_aset; by left|]. split.
      * apply attrFrame_delete; set_solver.
      * by rewrite !deleteProp_nullish.
  - injection H as <-.
    split; [apply sameExcept_refl|]. split; [apply attrFrame_refl|done].
Qed.

Lemma divergence_inv st st' :
  divergence st = Ok st' →
  sameExcept ["div"] (r_node st) (r_node st') ∧
  attrFrame ["div"] (r_attr st) (r_attr st') ∧
  isNullish (r_attr st') = isNullish (r_attr st).
Proof.
  unfold divergence. intros H. inv_bind H.
  destruct (negb _); injection H as <-; simpl.
  - split; [apply sameExcept_aset; by left|].
    split; [apply attrFrame_delete; by left|apply deleteProp_nullish].
  - split; [apply sameExcept_refl|]. split; [apply attrFrame_refl|done].
Qed.

Lemma traitStep_inv attr node trait node' :
  traitStep attr node trait = Ok node' →
  ∀ tr, prop "traits" node = VObj tr →
    ∃ d, traitData attr trait = Ok d ∧
         node' = aset "traits" (VObj (aset trait d tr)) node.
Proof.
  unfold traitStep. intros H tr Htr. inv_bind H. inv_bind H.
  injection H as <-. rewrite Htr in Ha0. injection Ha0 as <-. by exists a.
Qed.

Lemma fold_traitStep_inv attr keys node node' tr :
  foldM (traitStep attr) node keys = Ok node' →
  prop "traits" node = VObj tr →
  sameExcept ["traits"] node node' ∧
  ∃ tr', prop "traits" node' = VObj tr' ∧
    (∀ k, k ∈ keys → ∃ d, traitData attr k = Ok d ∧ alookup k tr' = Some d) ∧
    (∀ k, k ∉ keys → alookup k tr' = alookup k tr).
Proof.
  revert node tr. induction keys as [|k0 keys IH]; intros node tr H Htr.
  - injection H as <-. split; [apply sameExcept_refl|].
    exists tr. split; [done|]. split; [|done].
    intros k Hk. by apply elem_of_nil in Hk.
  - simpl in H. inv_bind H.
    destruct (traitStep_inv _ _ _ _ Ha tr Htr) as (d0 & Hd0 & ->).
    destruct (IH _ (aset k0 d0 tr) H) as (Hsame & tr' & Htr' & Hin & Hout).
    { unfold prop. by rewrite alookup_aset_eq. }
    split.
    { eapply sameExcept_trans; [apply sameExcept_aset; by left|done]. }
    exists tr'. split; [done|]. split.
    + intros k Hk. destruct (decide (k ∈ keys)) as [Hk'|Hk']; [by apply Hin|].
      apply elem_of_cons in Hk as [->|Hk]; [|done].
      exists d0. split; [done|]. by rewrite Hout, alookup_aset_eq.
    + intros k Hk. apply not_elem_of_cons in Hk as [Hne Hk].
      by rewrite Hout, alookup_aset_ne.
Qed.

Lemma transferTraits_inv st node' :
  transferTraits st = Ok node' →
  sameExcept ["traits"] (r_node st) node' ∧
  ∀ kvs k, r_attr st = VObj kvs → k ∈ map fst kvs → isTraitKey k = true →
    ∃ tr d, alookup "traits" node' = Some (VObj tr) ∧
            traitData (VObj kvs) k = Ok d ∧ alookup k tr = Some d.
Proof.
  unfold transferTraits. intros H. inv_bind H.
  destruct (0 <? length (List.filter isTraitKey a))%nat eqn:E.
  - destruct (fold_traitStep_inv _ _ _ _ [] H) as (Hsame & tr' & Htr' & Hin & _).
    { unfold prop. by rewrite alookup_aset_eq. }
    split.
    { eapply sameExcept_trans; [apply sameExcept_aset; by left|done]. }
    intros kvs k Hattr Hk Htrait. rewrite Hattr in Ha, Hin.
    injection Ha as <-.
    destruct (Hin k) as (d & Hd & Hl).
    { apply list_elem_of_In, filter_In. split; [by apply list_elem_of_In|done]. }
    exists tr', d. split; [|done].
    unfold prop in Htr'. destruct (alookup "traits" node'); [|done].
    simpl in Htr'. by rewrite Htr'.
  - apply Nat.ltb_ge in E.
    destruct (List.filter isTraitKey a) as [|? ?] eqn:Ef; [|simpl in E; lia].
    injection H as <-. split; [apply sameExcept_refl|].
    intros kvs k Hattr Hk Htrait. rewrite Hattr in Ha. injection Ha as <-.
    assert (In k (List.filter isTraitKey (map fst kvs))) as Hin.
    { apply filter_In. split; [by apply list_elem_of_In|done]. }
    by rewrite Ef in Hin.
Qed.

Lemma traitData_obj kvs k :
  traitData (VObj kvs) k =
  Ok (traitObject (prop k kvs) (prop (k +:+ "_confidence") kvs)
        (prop (k +:+ "_entropy") kvs)).
Proof. done. Qed.

Lemma subset_by_compute (W W' : list string) :
  forallb (λ k, bool_decide (k ∈ W')) W = true → W ⊆ W'.
Proof.
  intros H k Hk. rewrite forallb_forall in H.
  apply list_elem_of_In, H in Hk. by apply bool_decide_eq_true in Hk.
Qed.

Ltac sub := apply subset_by_compute; by vm_compute.

Lemma not_elem_by_compute (k : string) (W : list string) :
  bool_decide (k ∈ W) = false → k ∉ W.
Proof. by intros H%bool_decide_eq_false. Qed.

Ltac notin := apply not_elem_by_compute; by vm_compute.

Lemma attrBlock_inv node node' :
  attrBlock node = Ok node' →
  sameExcept storeKeys node node' ∧
  ∀ kvs, prop "attr" node = VObj kvs →
    alookup "author" node' =
      (if truthy (prop "author" kvs) then Some (prop "author" kvs)
       else alookup "author" node) ∧
    ∀ k v, alookup k kvs = Some v → isTraitKey k = true →
      k ∉ attrDeleted → (k +:+ "_confidence") ∉ attrDeleted →
      (k +:+ "_entropy") ∉ attrDeleted →
      ∃ tr, alookup "traits" node' = Some (VObj tr) ∧
            alookup k tr =
            Some (traitObject v (prop (k +:+ "_confidence") kvs)
                    (prop (k +:+ "_entropy") kvs)).
Proof.
  unfold attrBlock. intros H.
  apply bind_Ok in H as (st1 & H1 & H). apply bind_Ok in H as (st2 & H2 & H).
  apply bind_Ok in H as (st3 & H3 & H). apply bind_Ok in H as (st4 & H4 & H).
  apply bind_Ok in H as (n5 & H5 & H). apply bind_Ok in H as (st6 & H6 & H).
  apply bind_Ok in H as (st7 & H7 & H).
  apply moveToNode_inv in H1 as (N1 & A1 & _ & x & Hx & Hauthor).
  apply moveToNode_inv in H2 as (N2 & A2 & _ & _).
  apply moveToNode_inv in H3 as (N3 & A3 & _ & _).
  apply cladeLabel_inv in H4 as (N4 & A4 & _).
  apply aaLabel_inv in H5 as N5.
  apply numDate_inv in H6 as (N6 & A6 & _).
  apply divergence_inv in H7 as (N7 & A7 & _).
  apply transferTraits_inv in H as (N8 & Htraits).
  simpl in *.
  set (W := ["accession"; "url"; "labels"; "num_date"; "div"]).
  assert (sameExcept W (r_node st1) (r_node st7)) as N17.
  { eapply sameExcept_trans; [eapply sameExcept_weaken; [|exact N2]; sub|].
    eapply sameExcept_trans; [eapply sameExcept_weaken; [|exact N3]; sub|].
    eapply sameExcept_trans; [eapply sameExcept_weaken; [|exact N4]; sub|].
    eapply sameExcept_trans; [eapply sameExcept_weaken; [|exact N5]; sub|].
    eapply sameExcept_trans; [eapply sameExcept_weaken; [|exact N6]; sub|].
    eapply sameExcept_weaken; [|exact N7]; sub. }
  assert (attrFrame attrDeleted (prop "attr" node) (r_attr st7)) as A17.
  { eapply attrFrame_trans; [eapply attrFrame_weaken; [|exact A1]; sub|].
    eapply attrFrame_trans; [eapply attrFrame_weaken; [|exact A2]; sub|].
    eapply attrFrame_trans; [eapply attrFrame_weaken; [|exact A3]; sub|].
    eapply attrFrame_trans; [eapply attrFrame_weaken; [|exact A4]; sub|].
    eapply attrFrame_trans; [eapply attrFrame_weaken; [|exact A6]; sub|].
    eapply attrFrame_weaken; [|exact A7]; sub. }
  split.
  { eapply sameExcept_trans; [eapply sameExcept_weaken; [|exact N1]; sub|].
    eapply sameExcept_trans; [eapply sameExcept_weaken; [|exact N17]; sub|].
    eapply sameExcept_weaken; [|exact N8]; sub. }
  intros kvs Hattr. split.
  - rewrite N8 by notin. rewrite N17 by notin. rewrite Hauthor.
    rewrite Hattr in Hx. simpl in Hx. by injection Hx as <-.
  - intros k v Hk Htrait Hd Hdc Hde.
    destruct (A17 kvs Hattr) as (kvs' & Hattr' & Hsame).
    destruct (Htraits kvs' k Hattr') as (tr & d & Htr & Hdata & Hl).
    { apply (alookup_Some_keys _ v). by rewrite Hsame. }
    { done. }
    exists tr. split; [done|]. rewrite Hl. f_equal.
    rewrite traitData_obj in Hdata. injection Hdata as <-.
    unfold prop. by rewrite !Hsame, Hk.
Qed.

Lemma mutationsBlock_inv node node' :
  mutationsBlock node = Ok node' →
  sameExcept ["mutations"; "muts"; "aa_muts"] node node'.
Proof.
  unfold mutationsBlock. intros H.
  destruct (_ || _); [|injection H as <-; apply sameExcept_refl].
  inv_bind H. injection H as <-.
  eapply sameExcept_trans; [|apply sameExcept_adelete; set_solver].
  eapply sameExcept_trans; [|apply sameExcept_adelete; set_solver].
  assert (sameExcept ["mutations"; "muts"; "aa_muts"] node
            (if truthy (prop "aa_muts" node)
             then aset "mutations" (prop "aa_muts" node)
                    (aset "mutations" (VObj []) node)
             else aset "mutations" (VObj []) node)) as Hn.
  { destruct (truthy (prop "aa_muts" node)).
    - eapply sameExcept_trans; apply sameExcept_aset; set_solver.
    - apply sameExcept_aset; set_solver. }
  destruct (truthy (prop "muts" node)).
  - inv_bind Ha. injection Ha as <-.
    eapply sameExcept_trans; [exact Hn|apply sameExcept_aset; set_solver].
  - by injection Ha as <-.
Qed.

Lemma pruneNode_lookup node k :
  k ∈ allowedProperties → alookup k (pruneNode node) = alookup k node.
Proof.
  intros Hk. unfold pruneNode. apply alookup_filter_keys.
  intros v. by apply bool_decide_eq_true.
Qed.

(** What [storeCallback] makes of [attr.authors] and of [author]. *)
Lemma storeCallback_authors p p' kvs v :
  storeCallback p = Ok p' →
  alookup "attr" p = Some (VObj kvs) →
  alookup "authors" kvs = Some v →
  (∃ tr, alookup "traits" p' = Some (VObj tr) ∧
         alookup "authors" tr =
         Some (traitObject v (prop "authors_confidence" kvs)
                 (prop "authors_entropy" kvs))) ∧
  alookup "author" p' =
    (if truthy (prop "author" kvs) then Some (prop "author" kvs)
     else alookup "author" p).
Proof.
  unfold storeCallback. intros H Hattr Hauthors.
  assert (prop "attr" p = VObj kvs) as Hprop by (unfold prop; by rewrite Hattr).
  rewrite Hprop in H. simpl in H.
  apply bind_Ok in H as (n1 & H1 & H). apply bind_Ok in H as (n2 & H2 & H).
  injection H as <-.
  apply attrBlock_inv in H1 as (_ & Hspec).
  destruct (Hspec kvs Hprop) as (Hauthor & Htraits).
  apply mutationsBlock_inv in H2.
  destruct (Htraits "authors" v Hauthors) as (tr & Htr & Hl);
    [by vm_compute|notin|notin|notin|].
  split.
  - exists tr. split; [|done].
    rewrite pruneNode_lookup by (apply (bool_decide_unpack _); by vm_compute).
    by rewrite H2 by notin.
  - rewrite pruneNode_lookup by (apply (bool_decide_unpack _); by vm_compute).
    by rewrite H2 by notin.
Qed.

(** *** Totality of the reshape *)

Lemma prop_aset_eq k v o : prop k (aset k v o) = v.
Proof. unfold prop. by rewrite alookup_aset_eq. Qed.

Lemma moveToNode_Ok k st :
  isNullish (r_attr st) = false → ∃ st', moveToNode k st = Ok st'.
Proof.
  intros Hn. unfold moveToNode. destruct (get_Ok _ k Hn) as [x ->]. simpl.
  destruct (truthy x); by eexists.
Qed.

Lemma setLabel_Ok k x node :
  isArray (prop "labels" node) = false →
  ∃ node', setLabel k x node = Ok node' ∧
           isArray (prop "labels" node') = false.
Proof.
  intros Hl. unfold setLabel.
  destruct (truthy (prop "labels" node)) eqn:Et; simpl.
  - destruct (setProp_Ok (prop "labels" node) k x) as (v & -> & Hv & _);
      [by apply truthy_not_nullish|done|].
    simpl. eexists. split; [done|]. unfold prop. by rewrite alookup_aset_eq.
  - unfold prop at 1. rewrite alookup_aset_eq. simpl.
    eexists. split; [done|]. unfold prop. by rewrite alookup_aset_eq.
Qed.

Lemma cladeLabel_Ok st :
  isNullish (r_attr st) = false →
  isArray (prop "labels" (r_node st)) = false →
  ∃ st', cladeLabel st = Ok st'.
Proof.
  intros Hn Hl. unfold cladeLabel.
  destruct (get_Ok _ "clade_name" Hn) as [x1 ->].
  destruct (get_Ok _ "clade_annotation" Hn) as [x2 ->]. simpl.
  destruct (_ || _); [|by eexists].
  destruct (setLabel_Ok "clade" (orElse x2 x1) _ Hl) as (node' & -> & _).
  by eexists.
Qed.

Lemma mapM_joinElement_Ok l :
  forallb isKeyable l = true → ∃ ss, mapM joinElement l = Ok ss.
Proof.
  induction l as [|v l IH]; [by eexists|]. simpl.
  intros [Hv Hl]%andb_true_iff. destruct (IH Hl) as [ss Hss].
  assert (∃ s, joinElement v = Ok s) as [s ->].
  { destruct v as [| |[]| | | |]; try done; by eexists. }
  simpl. rewrite Hss. by eexists.
Qed.

Lemma aaMutStep_Ok aa_muts muts aa :
  match get aa_muts aa with
  | Ok m => wfMutations m
  | _ => false
  end = true →
  ∃ muts', aaMutStep aa_muts muts aa = Ok muts'.
Proof.
  unfold aaMutStep, wfMutations.
  destruct (get aa_muts aa) as [m| |]; [|done..]. simpl.
  destruct (get m "length") as [len| |]; [|done..]. simpl.
  destruct (truthy len); [|by eexists]. simpl.
  destruct m; try done. intros Hl. simpl.
  destruct (mapM_joinElement_Ok _ Hl) as [ss ->]. by eexists.
Qed.

Lemma aaLabel_Ok node :
  wfAaMuts (prop "aa_muts" node) = true →
  isArray (prop "labels" node) = false →
  ∃ node', aaLabel node = Ok node'.
Proof.
  unfold wfAaMuts, aaLabel. intros Hwf Hl.
  destruct (truthy (prop "aa_muts" node)); [|by eexists]. simpl in Hwf.
  apply andb_true_iff in Hwf as [_ Hwf].
  destruct (keysOf (prop "aa_muts" node)) as [keys| |]; [|done..]. simpl.
  edestruct (foldM_Ok (aaMutStep (prop "aa_muts" node))
    (λ k, match get (prop "aa_muts" node) k with
          | Ok m => wfMutations m
          | _ => false
          end = true) keys []) as [muts ->].
  - intros s k Hk. by apply aaMutStep_Ok.
  - apply Forall_forall. intros k Hk. rewrite forallb_forall in Hwf.
    by apply Hwf, list_elem_of_In.
  - simpl. destruct (0 <? length muts)%nat; [|by eexists].
    destruct (setLabel_Ok "aa" (VStr (joinStrings "; " muts)) node Hl)
      as (node' & -> & _). by eexists.
Qed.

Lemma numDate_Ok st :
  isNullish (r_attr st) = false → ∃ st', numDate st = Ok st'.
Proof.
  intros Hn. unfold numDate. destruct (get_Ok _ "num_date" Hn) as [x ->].
  simpl. destruct (truthy x); [|by eexists].
  destruct (get_Ok (deleteProp (r_attr st) "num_date") "num_date_confidence")
    as [c ->]; [by rewrite deleteProp_nullish|].
  simpl. destruct (truthy c); by eexists.
Qed.

Lemma divergence_Ok st :
  isNullish (r_attr st) = false → ∃ st', divergence st = Ok st'.
Proof.
  intros Hn. unfold divergence. destruct (get_Ok _ "div" Hn) as [x ->].
  simpl. destruct (negb _); by eexists.
Qed.

Lemma entriesOf_Ok v : isNullish v = false → ∃ es, entriesOf v = Ok es.
Proof. destruct v; try done; intros _; by eexists. Qed.

Lemma traitData_Ok attr k :
  isNullish attr = false → ∃ d, traitData attr k = Ok d.
Proof.
  intros Hn. unfold traitData.
  destruct (get_Ok attr k Hn) as [x ->]. simpl.
  destruct (get_Ok attr (k +:+ "_confidence") Hn) as [c ->]. simpl.
  destruct (get_Ok attr (k +:+ "_entropy") Hn) as [e ->]. simpl.
  by eexists.
Qed.

Lemma fold_traitStep_Ok attr keys node tr :
  isNullish attr = false → prop "traits" node = VObj tr →
  ∃ node', foldM (traitStep attr) node keys = Ok node'.
Proof.
  intros Hn. revert node tr. induction keys as [|k keys IH]; intros node tr Htr.
  - by eexists.
  - destruct (traitData_Ok attr k Hn) as [d Hd].
    assert (traitStep attr node k
            = Ok (aset "traits" (VObj (aset k d tr)) node)) as Hs.
    { unfold traitStep. rewrite Hd. simpl. by rewrite Htr. }
    cbn [foldM]. rewrite Hs. simpl.
    apply (IH _ (aset k d tr)). unfold prop. by rewrite alookup_aset_eq.
Qed.

Lemma transferTraits_Ok st :
  isNullish (r_attr st) = false → ∃ node', transferTraits st = Ok node'.
Proof.
  intros Hn. unfold transferTraits, keysOf.
  destruct (entriesOf_Ok _ Hn) as [es ->]. simpl.
  destruct (0 <? length _)%nat eqn:E.
  - apply (fold_traitStep_Ok _ _ _ []); [done|].
    unfold prop. by rewrite alookup_aset_eq.
  - apply Nat.ltb_ge in E.
    destruct (List.filter isTraitKey (map fst es)); [|simpl in E; lia].
    by eexists.
Qed.

Lemma same_prop W a b k : sameExcept W a b → k ∉ W → prop k b = prop k a.
Proof. intros H Hk. unfold prop. by rewrite H. Qed.

Lemma attrBlock_Ok node :
  isNullish (prop "attr" node) = false →
  condStore node = true →
  ∃ node', attrBlock node = Ok node'.
Proof.
  intros Hn [Hl%negb_true_iff Haa]%andb_true_iff. unfold attrBlock.
  set (st0 := {| r_node := node; r_attr := prop "attr" node |}).
  destruct (moveToNode_Ok "author" st0 Hn) as [st1 H1]. rewrite H1. simpl.
  apply moveToNode_inv in H1 as (N1 & _ & E1 & _).
  destruct (moveToNode_Ok "accession" st1) as [st2 H2]; [by rewrite E1|].
  rewrite H2. simpl. apply moveToNode_inv in H2 as (N2 & _ & E2 & _).
  destruct (moveToNode_Ok "url" st2) as [st3 H3]; [by rewrite E2, E1|].
  rewrite H3. simpl. apply moveToNode_inv in H3 as (N3 & _ & E3 & _).
  assert (prop "labels" (r_node st3) = prop "labels" node) as L3.
  { rewrite (same_prop _ _ _ _ N3), (same_prop _ _ _ _ N2),
      (same_prop _ _ _ _ N1) by notin. done. }
  assert (prop "aa_muts" (r_node st3) = prop "aa_muts" node) as M3.
  { rewrite (same_prop _ _ _ _ N3), (same_prop _ _ _ _ N2),
      (same_prop _ _ _ _ N1) by notin. done. }
  destruct (cladeLabel_Ok st3) as [st4 H4];
    [by rewrite E3, E2, E1|by rewrite L3|].
  rewrite H4. simpl.
  assert (isArray (prop "labels" (r_node st4)) = false) as L4.
  { unfold cladeLabel in H4. inv_bind H4. inv_bind H4.
    destruct (_ || _).
    - inv_bind H4. injection H4 as <-. simpl.
      destruct (setLabel_Ok "clade" (orElse a0 a) (r_node st3)) as (n & Hn' & Hla);
        [by rewrite L3|]. rewrite Hn' in Ha1. by injection Ha1 as <-.
    - injection H4 as <-. by rewrite L3. }
  apply cladeLabel_inv in H4 as (N4 & _ & E4).
  destruct (aaLabel_Ok (r_node st4)) as [n5 H5]; [|done|].
  { rewrite (same_prop _ _ _ _ N4) by notin. by rewrite M3. }
  rewrite H5. simpl.
  destruct (numDate_Ok {| r_node := n5; r_attr := r_attr st4 |}) as [st6 H6];
    [simpl; by rewrite E4, E3, E2, E1|].
  rewrite H6. simpl. apply numDate_inv in H6 as (_ & _ & E6). simpl in E6.
  destruct (divergence_Ok st6) as [st7 H7]; [by rewrite E6, E4, E3, E2, E1|].
  rewrite H7. simpl. apply divergence_inv in H7 as (_ & _ & E7).
  apply transferTraits_Ok. by rewrite E7, E6, E4, E3, E2, E1.
Qed.

Lemma mutationsBlock_Ok node :
  wfAaMuts (prop "aa_muts" node) = true →
  ∃ node', mutationsBlock node = Ok node'.
Proof.
  intros Hwf. unfold mutationsBlock.
  destruct (_ || _); [|by eexists].
  destruct (truthy (prop "muts" node)); [|by eexists].
  destruct (truthy (prop "aa_muts" node)) eqn:Ea; cbv beta iota zeta.
  - unfold wfAaMuts in Hwf. rewrite Ea in Hwf. simpl in Hwf.
    apply andb_true_iff in Hwf as [Harr%negb_true_iff _].
    rewrite prop_aset_eq.
    destruct (setProp_Ok (prop "aa_muts" node) "nuc" (prop "muts" node))
      as (v & -> & _); [by apply truthy_not_nullish|done|].
    by eexists.
  - rewrite prop_aset_eq. by eexists.
Qed.

Lemma storeCallback_Ok p :
  condStore p = true → ∃ p', storeCallback p = Ok p'.
Proof.
  intros Hc. unfold storeCallback.
  destruct (truthy (prop "attr" p)) eqn:Ea.
  - destruct (attrBlock_Ok p) as [n1 H1];
      [by apply truthy_not_nullish|done|].
    rewrite H1. simpl. apply attrBlock_inv in H1 as [N1 _].
    destruct (mutationsBlock_Ok n1) as [n2 ->]; [|by eexists].
    rewrite (same_prop _ _ _ _ N1) by notin.
    by apply andb_true_iff in Hc as [_ ?].
  - simpl. destruct (mutationsBlock_Ok p) as [n2 ->]; [|by eexists].
    by apply andb_true_iff in Hc as [_ ?].
Qed.

(** *** Totality of the traversals *)

Lemma allNodes_spec P t n :
  allNodes P t = true → n ∈ nodesOf t → P (props n) = true.
Proof.
  revert n. induction t as [p|p cs IH] using tnode_induction; intros n H Hn.
  - simpl in *. apply list_elem_of_singleton in Hn as ->.
    by apply andb_true_iff in H as [? _].
  - simpl in *. apply andb_true_iff in H as [Hp Hcs].
    apply elem_of_cons in Hn as [->|Hn]; [done|].
    induction IH as [|c cs Hc _ IHcs]; [by apply elem_of_nil in Hn|].
    simpl in *. apply andb_true_iff in Hcs as [Hc' Hcs].
    apply elem_of_app in Hn as [Hn|Hn]; [by apply Hc|by apply IHcs].
Qed.

Lemma traverse_Ok_post cb (P Q : obj → Prop) t :
  (∀ p, P p → ∃ p', cb p = Ok p' ∧ Q p') →
  (∀ n, n ∈ nodesOf t → P (props n)) →
  ∃ t', traverseTree cb t = Ok t' ∧ ∀ n', n' ∈ nodesOf t' → Q (props n').
Proof.
  intros Hcb. induction t as [p|p cs IH] using tnode_induction; intros HP.
  - destruct (Hcb p) as (p' & Hp' & HQ); [apply (HP (TNode p None)); by left|].
    exists (TNode p' None). simpl. rewrite Hp'. simpl. split; [done|].
    intros n' Hn'. by apply list_elem_of_singleton in Hn' as ->.
  - destruct (Hcb p) as (p' & Hp' & HQ);
      [apply (HP (TNode p (Some cs))); by left|].
    assert (∃ cs',
      (fix each (l : list tnode) : result (list tnode) :=
         match l with
         | [] => Ok []
         | c :: l' => c' ← traverseTree cb c; r ← each l'; Ok (c' :: r)
         end) cs = Ok cs' ∧
      ∀ n', n' ∈ concat (List.map nodesOf cs') → Q (props n'))
      as (cs' & Hcs' & HQs).
    { assert (∀ n, n ∈ concat (List.map nodesOf cs) → P (props n)) as HPs.
      { intros n Hn. apply HP. simpl. by right. }
      clear HP Hp' HQ. induction IH as [|c cs Hc _ IHcs].
      - exists []. split; [done|]. intros n' Hn'. by apply elem_of_nil in Hn'.
      - destruct Hc as (c' & Hc' & HQc).
        { intros n Hn. apply HPs. simpl. apply elem_of_app. by left. }
        destruct IHcs as (cs' & Hcs' & HQcs).
        { intros n Hn. apply HPs. simpl. apply elem_of_app. by right. }
        exists (c' :: cs'). rewrite Hc'. simpl. rewrite Hcs'. simpl.
        split; [done|]. intros n' [Hn'|Hn']%elem_of_app; auto. }
    exists (TNode p' (Some cs')). simpl. rewrite Hp'. simpl. rewrite Hcs'.
    simpl. split; [done|].
    intros n' [->|Hn']%elem_of_cons; [done|by apply HQs].
Qed.

Lemma condStore_frame p p' :
  (∀ k, k ≠ "attr" → k ≠ "vaccine" → alookup k p' = alookup k p) →
  condStore p' = condStore p.
Proof.
  intros H. unfold condStore, prop. by rewrite !H.
Qed.

(** C4, as amended. For every legacy input document whose [meta] is an
    object with a [color_options] object without [null] entries and with
    [filters], when present, an array, and whose nodes are well formed where
    the passes look ([wfNode]), [convertFromV1] throws no exception and
    returns a new-schema document. Nothing is asked of [title] and
    [updated], of [author_info] entries, of [attr] or of [num_date]: a
    document without them is migrated all the same. *)
Theorem migration_returns doc :
  wfDocument doc = true → ∃ v2, convertFromV1 doc = Ok v2.
Proof.
  unfold wfDocument. intros [Hmeta Hnodes]%andb_true_iff.
  unfold convertFromV1.
  destruct (setColorings_Ok [] (meta doc) Hmeta) as [f1 ->]. simpl.
  destruct (setMiscMetaProperties_Ok f1 (meta doc) Hmeta) as [f2 ->]. simpl.
  assert (isNullish (meta doc) = false) as Hm.
  { unfold wfMeta in Hmeta. apply andb_true_iff in Hmeta as [H _].
    destruct (get (meta doc) "color_options") eqn:E; [|done..].
    by apply get_Ok_inv in E. }
  pose proof (λ n Hn, allNodes_spec _ _ n Hnodes Hn) as Hwf.
  (* the author pass *)
  assert (∃ t1, setAuthorInfo (meta doc) (tree doc) = Ok t1 ∧
    ∀ n, n ∈ nodesOf t1 →
      condVaccine (meta doc) (props n) = true ∧ condSerum (props n) = true ∧
      condStore (props n) = true) as (t1 & -> & H1).
  { unfold setAuthorInfo.
    destruct (get_Ok (meta doc) "author_info" Hm) as [info Hinfo].
    rewrite Hinfo. simpl. destruct (truthy info) eqn:Et; simpl.
    - apply (traverse_Ok_post _ (λ p, wfNode (meta doc) p = true)
               (λ p, condVaccine (meta doc) p = true ∧ condSerum p = true ∧
                     condStore p = true)); [|done].
      intros p Hp. unfold wfNode in Hp.
      apply andb_true_iff in Hp as [Hp Hst].
      apply andb_true_iff in Hp as [Hp Hse].
      apply andb_true_iff in Hp as [Hau Hva].
      unfold condAuthor in Hau. rewrite Hinfo, Et in Hau. simpl in Hau.
      destruct (authorCallback_Ok info p Et Hau) as [p' Hp'].
      exists p'. split; [done|].
      pose proof (λ k, authorCallback_frame _ _ _ k Hp') as Hf.
      unfold condVaccine, condSerum, condStore, prop in *.
      by rewrite !Hf by done.
    - exists (tree doc). split; [done|]. intros n Hn.
      specialize (Hwf n Hn). unfold wfNode in Hwf.
      apply andb_true_iff in Hwf as [Hp Hst].
      apply andb_true_iff in Hp as [Hp Hse].
      by apply andb_true_iff in Hp as [Hau Hva]. }
  simpl.
  (* the vaccine passes *)
  assert (∃ t2, setVaccineChoicesOnNodes (meta doc) t1 = Ok t2 ∧
    ∀ n, n ∈ nodesOf t2 → condStore (props n) = true) as (t2 & -> & H2).
  { unfold setVaccineChoicesOnNodes.
    destruct (get_Ok (meta doc) "vaccine_choices" Hm) as [vc Hvc].
    rewrite Hvc. simpl.
    assert (∃ t, (if truthy vc then traverseTree (vaccineCallback vc) t1
                  else Ok t1) = Ok t ∧
      ∀ n, n ∈ nodesOf t →
        condSerum (props n) = true ∧ condStore (props n) = true)
      as (t & -> & Ht).
    { destruct (truthy vc) eqn:Et.
      - apply (traverse_Ok_post _ (λ p,
          condVaccine (meta doc) p = true ∧ condSerum p = true ∧
          condStore p = true)
          (λ p, condSerum p = true ∧ condStore p = true)); [|done].
        intros p (Hva & Hse & Hst).
        unfold condVaccine in Hva. rewrite Hvc, Et in Hva. simpl in Hva.
        destruct (vaccineCallback_Ok vc p Et Hva) as [p' Hp'].
        exists p'. split; [done|].
        apply vaccineCallback_frame in Hp' as [Hf Harr].
        split.
        + unfold condSerum in *. unfold prop at 1. rewrite Hf by done.
          fold (prop "serum" p).
          destruct (truthy (prop "serum" p)); [|done]. simpl in *.
          apply negb_true_iff. apply Harr. by apply negb_true_iff.
        + unfold condStore, prop in *. by rewrite !Hf by done.
      - exists t1. split; [done|]. intros n Hn. by destruct (H1 n Hn) as (_ & ? & ?). }
    simpl.
    apply (traverse_Ok_post _ (λ p, condSerum p = true ∧ condStore p = true)
             (λ p, condStore p = true)); [|done].
    intros p [Hse Hst]. destruct (serumCallback_Ok p Hse) as [p' Hp'].
    exists p'. split; [done|].
    pose proof (λ k, serumCallback_frame _ _ k Hp') as Hf.
    unfold condStore, prop in *. by rewrite !Hf by done. }
  simpl.
  (* the reshape *)
  destruct (traverse_Ok_post storeCallback (λ p, condStore p = true)
              (λ _, True) t2) as (t3 & Ht3 & _); [|done|].
  { intros p Hp. destruct (storeCallback_Ok p Hp) as [p' ->]. by exists p'. }
  unfold storeTreeAsV2. rewrite Ht3. simpl. by eexists.
Qed.

(** *** The theorems on the sample documents *)

(** Against C4 as worded. [Object.entries(undefined)] throws on a [meta]
    without [color_options]. *)
Lemma missing_color_options_throws :
  convertFromV1 documentWithoutColorOptions = Throw TypeError ∧
  ¬ alwaysReturns documentWithoutColorOptions.
Proof.
  split; [by vm_compute|]. intros [v2 H]. by vm_compute in H.
Qed.

Lemma migration_returns_witness :
  ∃ v2, convertFromV1 sampleDocument = Ok v2.
Proof.
  apply migration_returns. vm_compute. reflexivity.
Defined.

Lemma migrated_node_keys_witness :
  ∃ v2, convertFromV1 sampleDocument = Ok v2 ∧
        v2tree v2 ∈ nodesOf (v2tree v2) ∧
        "strain" ∈ nodeKeys (v2tree v2) ∧
        "strain" ∈ allowedProperties ∧ "strain" ≠ "attr".
Proof.
  destruct (convertFromV1 sampleDocument) as [v2| |] eqn:E;
    [|vm_compute in E; discriminate E..].
  exists v2. split; [reflexivity|].
  assert (v2tree v2 ∈ nodesOf (v2tree v2)) as Hn.
  { destruct (v2tree v2). simpl. apply list_elem_of_here. }
  assert ("strain" ∈ nodeKeys (v2tree v2)) as Hk.
  { vm_compute in E. injection E as <-. apply (bool_decide_unpack _).
    vm_compute. exact I. }
  split; [exact Hn|]. split; [exact Hk|].
  exact (migrated_node_keys sampleDocument v2 (v2tree v2) "strain" E Hn Hk).
Defined.

(** C10, as amended. Without [meta.author_info] the author pass returns the
    tree as it is, and every node carrying [attr.authors] ends with
    [traits.authors] holding [value: authors], together with [confidence]
    and [entropy] when [attr.authors_confidence] and [attr.authors_entropy]
    are truthy; its top-level [author] is [attr.author] when that is truthy,
    the legacy node's own [author] otherwise, and absent when the node had
    neither. *)
Theorem authors_without_author_info doc v2 :
  convertFromV1 doc = Ok v2 →
  noAuthorInfo (meta doc) = true →
  setAuthorInfo (meta doc) (tree doc) = Ok (tree doc) ∧
  TreeRel (λ p p', ∀ kvs v,
      alookup "attr" p = Some (VObj kvs) → alookup "authors" kvs = Some v →
      (∃ tr, alookup "traits" p' = Some (VObj tr) ∧
             alookup "authors" tr =
             Some (traitObject v (prop "authors_confidence" kvs)
                     (prop "authors_entropy" kvs))) ∧
      alookup "author" p' =
        (if truthy (prop "author" kvs) then Some (prop "author" kvs)
         else alookup "author" p))
    (tree doc) (v2tree v2).
Proof.
  intros H Hno. unfold convertFromV1 in H.
  apply bind_Ok in H as (f1 & _ & H). apply bind_Ok in H as (f2 & _ & H).
  apply bind_Ok in H as (t1 & H1 & H). apply bind_Ok in H as (t2 & H2 & H).
  apply bind_Ok in H as (t3 & H3 & H). injection H as <-. simpl.
  assert (setAuthorInfo (meta doc) (tree doc) = Ok (tree doc)) as Hau.
  { unfold setAuthorInfo, noAuthorInfo in *.
    destruct (get (meta doc) "author_info") as [info| |]; [|done..].
    simpl. by rewrite Hno. }
  split; [done|]. rewrite Hau in H1. injection H1 as <-.
  unfold setVaccineChoicesOnNodes in H2.
  apply bind_Ok in H2 as (vc & _ & H2). apply bind_Ok in H2 as (tv & Hv & H2).
  assert (TreeRel (λ p p', ∀ k, k ≠ "vaccine" → alookup k p' = alookup k p)
            (tree doc) tv) as Rv.
  { destruct (truthy vc).
    - apply traverse_rel in Hv. eapply TreeRel_impl; [|exact Hv].
      intros p p' Hp. by apply vaccineCallback_frame in Hp as [? _].
    - injection Hv as <-. by apply TreeRel_refl. }
  apply traverse_rel in H2. apply traverse_rel in H3.
  pose proof (TreeRel_compose _ _ _ _ _ Rv H2) as R12.
  pose proof (TreeRel_compose _ _ _ _ _ R12 H3) as R13.
  eapply TreeRel_impl; [|exact R13].
  intros p p' (p2 & (p1 & Hf1 & Hs) & Hst) kvs v Hattr Hauthors.
  pose proof (λ k, serumCallback_frame _ _ k Hs) as Hf2.
  assert (alookup "attr" p2 = Some (VObj kvs)) as Hattr2.
  { by rewrite Hf2, Hf1. }
  destruct (storeCallback_authors _ _ _ _ Hst Hattr2 Hauthors) as [Htr Hauthor].
  split; [done|]. rewrite Hauthor. by rewrite Hf2, Hf1.
Qed.

(** Against C10 as worded. The node of [documentWithoutAuthorInfo] keeps
    the [author] it had, and its [traits.authors] carries a [confidence]. *)
Lemma authors_trait_with_confidence_and_author :
  ∃ v2, convertFromV1 documentWithoutAuthorInfo = Ok v2 ∧
        noAuthorInfo (meta documentWithoutAuthorInfo) = true ∧
        ¬ authorsBecomeBareTrait documentWithoutAuthorInfo v2.
Proof.
  destruct (convertFromV1 documentWithoutAuthorInfo) as [v2| |] eqn:E;
    [|vm_compute in E; discriminate E..].
  exists v2. split; [done|]. split; [by vm_compute|].
  vm_compute in E. injection E as <-.
  unfold authorsBecomeBareTrait. simpl. intros H.
  inversion H as [p p' HR|]; subst.
  destruct (HR [("authors", VStr "smith_et_al"); ("authors_confidence", VNum 1)]
              (VStr "smith_et_al") eq_refl eq_refl) as [_ Hauthor].
  by vm_compute in Hauthor.
Qed.

Lemma authors_without_author_info_witness :
  ∃ v2, convertFromV1 documentWithoutAuthorInfo = Ok v2 ∧
    setAuthorInfo (meta documentWithoutAuthorInfo)
      (tree documentWithoutAuthorInfo)
    = Ok (tree documentWithoutAuthorInfo) ∧
    TreeRel (λ p p', ∀ kvs v,
        alookup "attr" p = Some (VObj kvs) → alookup "authors" kvs = Some v →
        (∃ tr, alookup "traits" p' = Some (VObj tr) ∧
               alookup "authors" tr =
               Some (traitObject v (prop "authors_confidence" kvs)
                       (prop "authors_entropy" kvs))) ∧
        alookup "author" p' =
          (if truthy (prop "author" kvs) then Some (prop "author" kvs)
           else alookup "author" p))
      (tree documentWithoutAuthorInfo) (v2tree v2).
Proof.
  destruct (convertFromV1 documentWithoutAuthorInfo) as [v2| |] eqn:E;
    [|vm_compute in E; discriminate E..].
  exists v2. split; [reflexivity|].
  apply (authors_without_author_info documentWithoutAuthorInfo v2 E).
  vm_compute. reflexivity.
Defined.

(** *** prettyString on numbers *)

Lemma ceilLog10From_ge fuel m q : (m <= ceilLog10From fuel m q)%Z.
Proof.
  revert m. induction fuel as [|fuel IH]; intros m; simpl; [lia|].
  destruct (Qle_bool q (Qpower 10 m)); [lia|].
  specialize (IH (m + 1)%Z). lia.
Qed.

Lemma ceilLog10From_skip fuel m q :
  (Qpower 10 m < q)%Q →
  ceilLog10From (S fuel) m q = ceilLog10From fuel (m + 1) q.
Proof.
  intros Hlt. simpl. destruct (Qle_bool q (Qpower 10 m)) eqn:E; [|done].
  apply Qle_bool_iff in E. exfalso. revert E. by apply Qlt_not_le.
Qed.

Lemma ceilLog10From_le fuel m M q :
  (m <= M)%Z → (q <= Qpower 10 M)%Q → (M - m < Z.of_nat fuel)%Z →
  (ceilLog10From fuel m q <= M)%Z.
Proof.
  revert m. induction fuel as [|fuel IH]; intros m Hm Hq Hfuel; simpl; [lia|].
  destruct (Qle_bool q (Qpower 10 m)) eqn:E; [done|].
  destruct (decide (m = M)) as [->|Hne].
  - apply Qle_bool_iff in Hq. congruence.
  - apply IH; [lia|done|lia].
Qed.

Lemma prettyString_number q o :
  prettyString (VNum q) o =
  s ← toFixed q (5 - ceilLog10 (Qabs q + Qpower 10 (-10)));
  if multiplier o then Ok (VStr (s +:+ "×")) else Ok (VStr s).
Proof. unfold prettyString. simpl. by destruct (isZero q). Qed.

Lemma ceilLog10_large q : (100000 < q)%Q → (6 <= ceilLog10 q)%Z.
Proof.
  intros Hq. unfold ceilLog10.
  assert (4 ≤ Z.to_nat (Z.log2_up (Qceiling q))) as Hn.
  { assert (100000 <= Qceiling q)%Z as Hc.
    { rewrite Zle_Qle. eapply Qle_trans; [|apply Qle_ceiling].
      apply Qlt_le_weak. exact Hq. }
    apply Z.log2_up_le_mono in Hc.
    change (Z.log2_up 100000) with 17%Z in Hc. lia. }
  replace (12 + Z.to_nat (Z.log2_up (Qceiling q)))
    with (16 + (Z.to_nat (Z.log2_up (Qceiling q)) - 4)) by lia.
  cbn [Nat.add].
  do 16 (rewrite ceilLog10From_skip
           by (eapply Qle_lt_trans; [|exact Hq]; by vm_compute)).
  apply ceilLog10From_ge.
Qed.

Lemma ceilLog10_small q :
  (q <= 100000)%Q → (-10 <= ceilLog10 q <= 5)%Z.
Proof.
  intros Hq. unfold ceilLog10. split; [apply ceilLog10From_ge|].
  destruct (Qlt_le_dec 10 q) as [Hbig|Hsmall].
  - assert (4 ≤ Z.to_nat (Z.log2_up (Qceiling q))) as Hn.
    { assert (11 <= Qceiling q)%Z as Hc.
      { assert (10 < Qceiling q)%Z; [|lia].
        rewrite Zlt_Qlt. eapply Qlt_le_trans; [exact Hbig|apply Qle_ceiling]. }
      apply Z.log2_up_le_mono in Hc.
      change (Z.log2_up 11) with 4%Z in Hc. lia. }
    apply ceilLog10From_le; [lia| |lia].
    eapply Qle_trans; [exact Hq|by vm_compute].
  - etrans; [apply (ceilLog10From_le _ _ 1)|lia]; [lia| |lia].
    eapply Qle_trans; [exact Hsmall|by vm_compute].
Qed.

(** X13. On numbers [prettyString] asks [toFixed] for [5 - magnitude]
    digits: a number of absolute value 100001 or more makes that negative
    and the call raises a [RangeError]; a number of absolute value up to
    99999 gives a non-empty string. *)
Theorem prettyString_number_range q o :
  ((100001 <= Qabs q)%Q → prettyString (VNum q) o = Throw RangeError) ∧
  ((Qabs q <= 99999)%Q →
   ∃ s, prettyString (VNum q) o = Ok (VStr s) ∧ s ≠ "").
Proof.
  rewrite prettyString_number.
  assert (0 < Qpower 10 (-10) ∧ Qpower 10 (-10) <= 1)%Q as [Heps1 Heps2]
    by (split; by vm_compute).
  set (eps := Qpower 10 (-10)) in *.
  split.
  - intros Hq.
    assert (6 <= ceilLog10 (Qabs q + eps))%Z as HM by (apply ceilLog10_large; lra).
    unfold toFixed.
    assert ((5 - ceilLog10 (Qabs q + eps) <? 0)%Z = true) as ->
      by (apply Z.ltb_lt; lia).
    done.
  - intros Hq.
    assert (-10 <= ceilLog10 (Qabs q + eps) <= 5)%Z as HM
      by (apply ceilLog10_small; lra).
    destruct (toFixed q (5 - ceilLog10 (Qabs q + eps))) as [s|e|] eqn:E.
    + simpl. apply toFixed_nonempty in E.
      destruct (multiplier o).
      * eexists. split; [done|]. intros H. by apply append_empty_l in H.
      * by exists s.
    + exfalso. unfold toFixed in E.
      destruct (_ || _) eqn:Ed.
      * apply orb_true_iff in Ed as [Ed%Z.ltb_lt|Ed%Z.ltb_lt]; lia.
      * by destruct (Qle_bool (Qpower 10 21) (Qabs q)).
    + exfalso. unfold toFixed in E.
      destruct (_ || _) eqn:Ed; [done|].
      destruct (Qle_bool (Qpower 10 21) (Qabs q)) eqn:Eb; [|done].
      apply Qle_bool_iff in Eb.
      assert (Qpower 10 21 == 1000000000000000000000)%Q as Hp by (by vm_compute).
      rewrite Hp in Eb. lra.
Qed.

(** *** prettyString twice *)

Lemma toLower_toUpper c : toLowerChar (toUpperChar c) = toLowerChar c.
Proof. by destruct c as [[] [] [] [] [] [] [] []]. Qed.

Lemma toUpper_toUpper c : toUpperChar (toUpperChar c) = toUpperChar c.
Proof. by destruct c as [[] [] [] [] [] [] [] []]. Qed.

Lemma isWordChar_toUpper c : isWordChar (toUpperChar c) = isWordChar c.
Proof. by destruct c as [[] [] [] [] [] [] [] []]. Qed.

Lemma isSpaceChar_toUpper c : isSpaceChar (toUpperChar c) = isSpaceChar c.
Proof. by destruct c as [[] [] [] [] [] [] [] []]. Qed.

Lemma toLowerCase_toUpperCase s : toLowerCase (toUpperCase s) = toLowerCase s.
Proof.
  unfold toLowerCase, toUpperCase.
  induction s as [|c s IH]; [done|]. cbn [mapString].
  by rewrite toLower_toUpper, IH.
Qed.

Lemma toUpperCase_toUpperCase s : toUpperCase (toUpperCase s) = toUpperCase s.
Proof.
  unfold toUpperCase.
  induction s as [|c s IH]; [done|]. cbn [mapString].
  by rewrite toUpper_toUpper, IH.
Qed.

Lemma toLowerCase_capitalizeWords b s :
  toLowerCase (capitalizeWords b s) = toLowerCase s.
Proof.
  unfold toLowerCase.
  revert b. induction s as [|c s IH]; intros b; [done|].
  cbn [capitalizeWords].
  destruct b; cbn [mapString]; [by rewrite IH|].
  destruct (isWordChar c); cbn [mapString]; rewrite IH; [|done].
  by rewrite toLower_toUpper.
Qed.

Lemma capitalizeWords_twice b s :
  capitalizeWords b (capitalizeWords b s) = capitalizeWords b s.
Proof.
  revert b. induction s as [|c s IH]; intros b; [done|].
  cbn [capitalizeWords].
  destruct b; cbn [capitalizeWords]; [by rewrite IH|].
  destruct (isWordChar c) eqn:E; cbn [capitalizeWords].
  - by rewrite isWordChar_toUpper, E, toUpper_toUpper, IH.
  - by rewrite E, IH.
Qed.

(** No character of the string is [c]. *)
Lemma lacks_toLowerCase c s :
  toLowerChar c = c → (∀ c', toLowerChar c' = c → c' = c) →
  MapHelpers.hasChar c (toLowerCase s) = MapHelpers.hasChar c s.
Proof.
  intros Hc Hinj. unfold toLowerCase.
  induction s as [|c0 s IH]; [done|]. cbn [mapString MapHelpers.hasChar].
  rewrite IH. f_equal. apply bool_decide_ext. split.
  - apply Hinj.
  - by intros ->.
Qed.

Lemma underscoresToSpaces_id s :
  MapHelpers.hasChar "_" s = false → underscoresToSpaces s = s.
Proof.
  unfold underscoresToSpaces.
  induction s as [|c s IH]; [done|]. cbn [mapString MapHelpers.hasChar].
  intros [Hc Hs]%orb_false_iff. rewrite IH by done. f_equal.
  apply bool_decide_eq_false in Hc.
  destruct (nat_of_ascii c =? 95)%nat eqn:E; [|done].
  apply Nat.eqb_eq in E. exfalso. apply Hc.
  by rewrite <- (ascii_nat_embedding c), E.
Qed.

Lemma underscoresToSpaces_spaces s :
  MapHelpers.hasChar " " (underscoresToSpaces s) = false →
  MapHelpers.hasChar "_" s = false.
Proof.
  unfold underscoresToSpaces.
  induction s as [|c s IH]; [done|]. cbn [mapString MapHelpers.hasChar].
  intros [Hc Hs]%orb_false_iff. rewrite IH by done.
  rewrite orb_false_r. apply bool_decide_eq_false. intros ->.
  by vm_compute in Hc.
Qed.

Lemma underscoresToSpaces_lacks s :
  MapHelpers.hasChar "_" (underscoresToSpaces s) = false.
Proof.
  unfold underscoresToSpaces.
  induction s as [|c s IH]; [done|]. cbn [mapString MapHelpers.hasChar].
  rewrite IH, orb_false_r. apply bool_decide_eq_false.
  destruct (nat_of_ascii c =? 95)%nat eqn:E; [done|].
  intros ->. by vm_compute in E.
Qed.

Lemma capitalizeWords_lacks b s :
  MapHelpers.hasChar "_" (capitalizeWords b s) = MapHelpers.hasChar "_" s.
Proof.
  revert b. induction s as [|c s IH]; intros b; [done|].
  cbn [capitalizeWords].
  destruct b; cbn [MapHelpers.hasChar]; [by rewrite IH|].
  destruct (isWordChar c); cbn [MapHelpers.hasChar]; rewrite IH; [|done].
  f_equal. apply bool_decide_ext.
  by destruct c as [[] [] [] [] [] [] [] []].
Qed.

Lemma acronym_lacks_space s :
  s ∈ ["usvi"; "usa"; "uk"] → MapHelpers.hasChar " " s = false.
Proof.
  intros Hs. repeat (apply elem_of_cons in Hs as [->|Hs]; [done|]).
  by apply elem_of_nil in Hs.
Qed.

(** X14. With the default options [prettyString] is idempotent on strings:
    prettifying a prettified string changes nothing. *)
Theorem prettyString_idempotent s :
  ∃ r, prettyString (VStr s) defaultOptions = Ok (VStr r) ∧
       prettyString (VStr r) defaultOptions = Ok (VStr r).
Proof.
  destruct (decide (s = "")) as [->|Hs]; [by exists ""|].
  rewrite prettyString_default_string by done.
  case_bool_decide as Hacr.
  - exists (toUpperCase s). split; [done|].
    assert (toUpperCase s ≠ "") as Hne by (by intros ?%mapString_empty).
    rewrite prettyString_default_string by done.
    rewrite toLowerCase_toUpperCase, bool_decide_eq_true_2 by done.
    by rewrite toUpperCase_toUpperCase.
  - set (r := capitalizeWords false (underscoresToSpaces s)).
    exists r. split; [done|].
    assert (r ≠ "") as Hne.
    { intros H. apply capitalizeWords_empty in H.
      by apply mapString_empty in H. }
    rewrite prettyString_default_string by done.
    assert (MapHelpers.hasChar "_" r = false) as Hu.
    { unfold r. by rewrite capitalizeWords_lacks, underscoresToSpaces_lacks. }
    rewrite (underscoresToSpaces_id r) by done.
    rewrite bool_decide_eq_false_2.
    + unfold r. by rewrite capitalizeWords_twice.
    + intros Hin. apply Hacr. unfold r in Hin.
      rewrite toLowerCase_capitalizeWords in Hin.
      pose proof (acronym_lacks_space _ Hin) as Hsp.
      rewrite lacks_toLowerCase in Hsp;
        [|done|by intros [[] [] [] [] [] [] [] []]].
      apply underscoresToSpaces_spaces in Hsp.
      by rewrite underscoresToSpaces_id in Hin.
Qed.

(** *** The passes, node by node *)

Lemma convert_fields doc v2 :
  convertFromV1 doc = Ok v2 →
  ∃ f1 f2,
    setColorings [] (meta doc) = Ok f1 ∧
    setMiscMetaProperties f1 (meta doc) = Ok f2 ∧
    fields v2 = (if truthy (treeName doc)
                 then aset "tree_name" (treeName doc) f2 else f2).
Proof.
  unfold convertFromV1. intros H.
  apply bind_Ok in H as (f1 & H1 & H). apply bind_Ok in H as (f2 & H2 & H).
  do 3 inv_bind H. injection H as <-. by exists f1, f2.
Qed.

Lemma convert_nodes doc v2 :
  convertFromV1 doc = Ok v2 →
  TreeRel (nodePasses (meta doc)) (tree doc) (v2tree v2).
Proof.
  unfold convertFromV1. intros H.
  apply bind_Ok in H as (f1 & _ & H). apply bind_Ok in H as (f2 & _ & H).
  apply bind_Ok in H as (t1 & H1 & H). apply bind_Ok in H as (t2 & H2 & H).
  apply bind_Ok in H as (t3 & H3 & H). injection H as <-. simpl.
  assert (TreeRel (authorPass (meta doc)) (tree doc) t1) as R1.
  { unfold setAuthorInfo in H1. apply bind_Ok in H1 as (info & Hinfo & H1).
    destruct (truthy info) eqn:Et; simpl in H1.
    - apply traverse_rel in H1. eapply TreeRel_impl; [|exact H1].
      intros p p' Hp. exists info. by rewrite Et.
    - injection H1 as <-. apply TreeRel_refl.
      intros p. exists info. by rewrite Et. }
  unfold setVaccineChoicesOnNodes in H2.
  apply bind_Ok in H2 as (vc & Hvc & H2). apply bind_Ok in H2 as (tv & Hv & H2).
  assert (TreeRel (vaccinePass (meta doc)) t1 tv) as R2.
  { destruct (truthy vc) eqn:Et.
    - apply traverse_rel in Hv. eapply TreeRel_impl; [|exact Hv].
      intros p p' Hp. exists vc. by rewrite Et.
    - injection Hv as <-. apply TreeRel_refl.
      intros p. exists vc. by rewrite Et. }
  apply traverse_rel in H2. apply traverse_rel in H3.
  pose proof (TreeRel_compose _ _ _ _ _ R1 R2) as R12.
  pose proof (TreeRel_compose _ _ _ _ _ R12 H2) as R13.
  pose proof (TreeRel_compose _ _ _ _ _ R13 H3) as R14.
  eapply TreeRel_impl; [|exact R14].
  intros p p' (p3 & (p2 & (p1 & Ha & Hv') & Hs) & Hst).
  by exists p1, p2, p3.
Qed.

Lemma authorPass_frame meta p p1 k :
  authorPass meta p p1 → k ≠ "attr" → alookup k p1 = alookup k p.
Proof.
  intros (info & _ & H) Hk. destruct (truthy info); [|by subst].
  by eapply authorCallback_frame.
Qed.

Lemma vaccinePass_frame meta p p1 k :
  vaccinePass meta p p1 → k ≠ "vaccine" → alookup k p1 = alookup k p.
Proof.
  intros (vc & _ & H) Hk. destruct (truthy vc); [|by subst].
  apply vaccineCallback_frame in H as [H _]. by apply H.
Qed.

Lemma storeCallback_frame p p' k :
  storeCallback p = Ok p' →
  k ∈ allowedProperties → k ∉ storeKeys → k ≠ "mutations" →
  alookup k p' = alookup k p.
Proof.
  unfold storeCallback. intros H Hal Hst Hmu.
  apply bind_Ok in H as (n1 & H1 & H). apply bind_Ok in H as (n2 & H2 & H).
  injection H as <-. rewrite pruneNode_lookup by done.
  apply mutationsBlock_inv in H2. rewrite H2.
  - destruct (truthy (prop "attr" p)); [|by injection H1 as <-].
    apply attrBlock_inv in H1 as [H1 _]. by apply H1.
  - intros Hin. repeat (apply elem_of_cons in Hin as [->|Hin]; [|]);
      try done; try (by apply elem_of_nil in Hin);
      apply (bool_decide_pack _) in Hal; by vm_compute in Hal.
Qed.

Lemma nodePasses_frame meta p p' k :
  nodePasses meta p p' →
  k ∈ allowedProperties → k ∉ storeKeys → k ≠ "mutations" → k ≠ "vaccine" →
  alookup k p' = alookup k p.
Proof.
  intros (p1 & p2 & p3 & Ha & Hv & Hs & Hst) Hal Hsk Hmu Hva.
  rewrite (storeCallback_frame _ _ _ Hst) by done.
  rewrite (serumCallback_frame _ _ _ Hs) by done.
  rewrite (vaccinePass_frame _ _ _ _ Hv) by done.
  apply (authorPass_frame _ _ _ _ Ha).
  intros ->. apply (bool_decide_pack _) in Hal. by vm_compute in Hal.
Qed.

Lemma TreeRel_size (R : obj → obj → Prop) t t' :
  TreeRel R t t' → length (nodesOf t') = length (nodesOf t).
Proof.
  revert t'. induction t as [p|p cs IH] using tnode_induction; intros t' H.
  - by inversion H; subst.
  - inversion H as [|? p' ? cs' Hp Hcs]; subst. simpl. f_equal.
    clear H Hp. induction Hcs as [|c c' cs cs' Hc _ IHcs]; [done|].
    inversion IH as [|?? Hc0 Hcs0]; subst. simpl.
    rewrite !length_app. by rewrite (Hc0 _ Hc), IHcs.
Qed.

(** X15. The migration keeps the shape of the tree: the migrated tree has
    the same nodes in the same places, and every node keeps its [strain]
    and its [hidden] flag as they were. *)
Theorem migration_keeps_shape_and_strain doc v2 :
  convertFromV1 doc = Ok v2 →
  TreeRel (λ p p', alookup "strain" p' = alookup "strain" p ∧
                   alookup "hidden" p' = alookup "hidden" p)
    (tree doc) (v2tree v2) ∧
  length (nodesOf (v2tree v2)) = length (nodesOf (tree doc)).
Proof.
  intros H%convert_nodes. split; [|by eapply TreeRel_size].
  eapply TreeRel_impl; [|exact H]. intros p p' Hp.
  split; apply (nodePasses_frame _ _ _ _ Hp);
    try (apply (bool_decide_unpack _); by vm_compute);
    try notin; done.
Qed.

(** *** Vaccine choices and serum *)

(** X16. A node whose strain has a truthy entry in [meta.vaccine_choices]
    ends with [vaccine] holding that entry as [selection_date], replacing
    any [vaccine] it had, and [serum: true] besides when the node's [serum]
    is truthy. Without [vaccine_choices], a node with a truthy [serum] and
    no [vaccine] ends with [vaccine = {serum: true}]. *)
Theorem vaccine_choice_and_serum doc v2 vc :
  convertFromV1 doc = Ok v2 →
  get (meta doc) "vaccine_choices" = Ok vc →
  TreeRel (λ p p',
      (truthy vc = true → ∀ s choice,
         alookup "strain" p = Some (VStr s) → get vc s = Ok choice →
         truthy choice = true →
         alookup "vaccine" p' =
         Some (VObj (("selection_date", choice) ::
                     if truthy (prop "serum" p)
                     then [("serum", VBool true)] else []))) ∧
      (truthy vc = false → truthy (prop "serum" p) = true →
       alookup "vaccine" p = None →
       alookup "vaccine" p' = Some (VObj [("serum", VBool true)])))
    (tree doc) (v2tree v2).
Proof.
  intros H%convert_nodes Hvc. eapply TreeRel_impl; [|exact H].
  intros p p' (p1 & p2 & p3 & Ha & (vc' & Hvc' & Hv) & Hs & Hst).
  rewrite Hvc in Hvc'. injection Hvc' as <-.
  rewrite (storeCallback_frame _ _ _ Hst);
    [|apply (bool_decide_unpack _); by vm_compute|notin|done].
  assert (prop "serum" p2 = prop "serum" p) as Hserum.
  { unfold prop. rewrite <- (authorPass_frame _ _ _ "serum" Ha) by done.
    destruct (truthy vc); [|by subst].
    apply vaccineCallback_frame in Hv as [Hv _]. by rewrite Hv. }
  unfold serumCallback in Hs. rewrite Hserum in Hs.
  split.
  - intros Et s choice Hstrain Hchoice Hc. rewrite Et in Hv.
    unfold vaccineCallback in Hv. unfold prop in Hv.
    rewrite (authorPass_frame _ _ _ "strain" Ha), Hstrain in Hv by done.
    simpl in Hv. rewrite Hchoice in Hv. simpl in Hv. rewrite Hc in Hv.
    injection Hv as <-.
    destruct (truthy (prop "serum" p)).
    + rewrite !prop_aset_eq in Hs. simpl in Hs.
      rewrite ?prop_aset_eq in Hs. simpl in Hs. injection Hs as <-.
      by rewrite alookup_aset_eq.
    + injection Hs as <-. by rewrite alookup_aset_eq.
  - intros Et Hse Hnone. rewrite Et in Hv. subst p2. rewrite Hse in Hs.
    assert (prop "vaccine" p1 = VUndef) as Hva.
    { unfold prop. by rewrite (authorPass_frame _ _ _ "vaccine" Ha), Hnone. }
    rewrite Hva in Hs. simpl in Hs. rewrite prop_aset_eq in Hs. simpl in Hs.
    injection Hs as <-. by rewrite alookup_aset_eq.
Qed.

(** *** Mutations *)

Lemma storeCallback_mutations p p' n1 :
  (if truthy (prop "attr" p) then attrBlock p else Ok p) = Ok n1 →
  storeCallback p = Ok p' →
  prop "muts" n1 = prop "muts" p ∧ prop "aa_muts" n1 = prop "aa_muts" p ∧
  alookup "mutations" n1 = alookup "mutations" p ∧
  ∃ n2, mutationsBlock n1 = Ok n2 ∧
        alookup "mutations" p' = alookup "mutations" n2.
Proof.
  intros H1 H. unfold storeCallback in H. rewrite H1 in H. simpl in H.
  apply bind_Ok in H as (n2 & H2 & H). injection H as <-.
  assert (sameExcept storeKeys p n1) as Hsame.
  { destruct (truthy (prop "attr" p)); [|injection H1 as <-; apply sameExcept_refl].
    by apply attrBlock_inv in H1 as [? _]. }
  unfold prop. rewrite !Hsame by notin. repeat split.
  exists n2. split; [done|].
  apply pruneNode_lookup. apply (bool_decide_unpack _). by vm_compute.
Qed.

(** X17. A node's [muts] and [aa_muts] are merged into [mutations] and
    removed: with an object as [aa_muts], [mutations] holds its genes and,
    when [muts] is truthy, [muts] under [nuc] (in place of a gene named
    [nuc]); without [aa_muts], a truthy [muts] alone gives
    [mutations = {nuc: muts}], and a node with neither keeps the
    [mutations] it had. *)
Theorem mutations_are_merged doc v2 :
  convertFromV1 doc = Ok v2 →
  TreeRel (λ p p',
      (∀ genes, prop "aa_muts" p = VObj genes →
         ∃ m, alookup "mutations" p' = Some (VObj m) ∧
              (∀ g, g ≠ "nuc" → alookup g m = alookup g genes) ∧
              alookup "nuc" m =
              (if truthy (prop "muts" p) then Some (prop "muts" p)
               else alookup "nuc" genes)) ∧
      (truthy (prop "aa_muts" p) = false →
       alookup "mutations" p' =
       (if truthy (prop "muts" p) then Some (VObj [("nuc", prop "muts" p)])
        else alookup "mutations" p)))
    (tree doc) (v2tree v2).
Proof.
  intros H%convert_nodes. eapply TreeRel_impl; [|exact H].
  intros p p' (p1 & p2 & p3 & Ha & Hv & Hs & Hst).
  assert (∀ k, k ≠ "attr" → k ≠ "vaccine" → alookup k p3 = alookup k p) as Hf.
  { intros k Hk1 Hk2. rewrite (serumCallback_frame _ _ _ Hs) by done.
    rewrite (vaccinePass_frame _ _ _ _ Hv) by done.
    by apply (authorPass_frame _ _ _ _ Ha). }
  pose proof Hst as Hst'. unfold storeCallback in Hst'.
  apply bind_Ok in Hst' as (n1 & H1 & _).
  destruct (storeCallback_mutations _ _ _ H1 Hst)
    as (Hm & Haa & Hmu & n2 & H2 & ->).
  assert (prop "muts" p3 = prop "muts" p) as E1
    by (unfold prop; by rewrite Hf).
  assert (prop "aa_muts" p3 = prop "aa_muts" p) as E2
    by (unfold prop; by rewrite Hf).
  rewrite E1 in Hm. rewrite E2 in Haa. rewrite Hf in Hmu by done.
  unfold mutationsBlock in H2. rewrite Hm, Haa in H2.
  split.
  - intros genes Hg. rewrite Hg in H2. rewrite orb_true_r in H2. simpl in H2.
    destruct (truthy (prop "muts" p)) eqn:Et.
    + rewrite prop_aset_eq in H2. simpl in H2. injection H2 as <-.
      rewrite !alookup_adelete_ne, alookup_aset_eq by done.
      eexists. split; [done|]. split; [|apply alookup_aset_eq].
      intros g Hne. by apply alookup_aset_ne.
    + injection H2 as <-.
      rewrite !alookup_adelete_ne, alookup_aset_eq by done.
      by exists genes.
  - intros Hno. rewrite Hno in H2.
    destruct (truthy (prop "muts" p)) eqn:Et; simpl in H2.
    + rewrite prop_aset_eq in H2. simpl in H2. injection H2 as <-.
      by rewrite !alookup_adelete_ne, alookup_aset_eq by done.
    + by injection H2 as <-.
Qed.

(** *** The moves of the reshape *)

Lemma get_obj kvs k : get (VObj kvs) k = Ok (prop k kvs).
Proof. done. Qed.

Lemma numDate_spec st st' kvs :
  numDate st = Ok st' → r_attr st = VObj kvs →
  alookup "num_date" (r_node st') =
  (if truthy (prop "num_date" kvs)
   then Some (numDateObject (prop "num_date" kvs)
                (prop "num_date_confidence" kvs))
   else alookup "num_date" (r_node st)).
Proof.
  unfold numDate. intros H Hattr. rewrite Hattr in H.
  rewrite get_obj in H. simpl in H.
  destruct (truthy (prop "num_date" kvs)); [|by injection H as <-].
  unfold prop at 1 in H. rewrite alookup_adelete_ne in H by done.
  fold (prop "num_date_confidence" kvs) in H. unfold numDateObject.
  destruct (truthy (prop "num_date_confidence" kvs)); injection H as <-;
    simpl; by rewrite alookup_aset_eq.
Qed.

Lemma divergence_spec st st' kvs :
  divergence st = Ok st' → r_attr st = VObj kvs →
  alookup "div" (r_node st') =
  (if isUndefined (prop "div" kvs) then alookup "div" (r_node st)
   else Some (prop "div" kvs)).
Proof.
  unfold divergence. intros H Hattr. rewrite Hattr in H.
  rewrite get_obj in H. simpl in H.
  destruct (isUndefined (prop "div" kvs)); injection H as <-; simpl; [done|].
  by rewrite alookup_aset_eq.
Qed.

Lemma attrBlock_div_num_date node node' kvs :
  attrBlock node = Ok node' → prop "attr" node = VObj kvs →
  alookup "div" node' =
    (if isUndefined (prop "div" kvs) then alookup "div" node
     else Some (prop "div" kvs)) ∧
  alookup "num_date" node' =
    (if truthy (prop "num_date" kvs)
     then Some (numDateObject (prop "num_date" kvs)
                  (prop "num_date_confidence" kvs))
     else alookup "num_date" node).
Proof.
  unfold attrBlock. intros H Hattr.
  apply bind_Ok in H as (st1 & H1 & H). apply bind_Ok in H as (st2 & H2 & H).
  apply bind_Ok in H as (st3 & H3 & H). apply bind_Ok in H as (st4 & H4 & H).
  apply bind_Ok in H as (n5 & H5 & H). apply bind_Ok in H as (st6 & H6 & H).
  apply bind_Ok in H as (st7 & H7 & H).
  apply moveToNode_inv in H1 as (N1 & A1 & _).
  apply moveToNode_inv in H2 as (N2 & A2 & _).
  apply moveToNode_inv in H3 as (N3 & A3 & _).
  apply cladeLabel_inv in H4 as (N4 & A4 & _).
  apply aaLabel_inv in H5 as N5.
  pose proof (numDate_inv _ _ H6) as (N6 & A6 & _).
  pose proof (divergence_inv _ _ H7) as (N7 & _).
  apply transferTraits_inv in H as (N8 & _).
  simpl in *.
  assert (sameExcept ["author"; "accession"; "url"; "labels"] node n5) as N15.
  { eapply sameExcept_trans; [eapply sameExcept_weaken; [|exact N1]; sub|].
    eapply sameExcept_trans; [eapply sameExcept_weaken; [|exact N2]; sub|].
    eapply sameExcept_trans; [eapply sameExcept_weaken; [|exact N3]; sub|].
    eapply sameExcept_trans; [eapply sameExcept_weaken; [|exact N4]; sub|].
    eapply sameExcept_weaken; [|exact N5]; sub. }
  assert (attrFrame ["author"; "accession"; "url"; "clade_name";
                     "clade_annotation"] (prop "attr" node) (r_attr st4))
    as A14.
  { eapply attrFrame_trans; [eapply attrFrame_weaken; [|exact A1]; sub|].
    eapply attrFrame_trans; [eapply attrFrame_weaken; [|exact A2]; sub|].
    eapply attrFrame_trans; [eapply attrFrame_weaken; [|exact A3]; sub|].
    eapply attrFrame_weaken; [|exact A4]; sub. }
  destruct (A14 kvs Hattr) as (kvs4 & Hattr4 & Hk4).
  destruct (A6 kvs4 Hattr4) as (kvs6 & Hattr6 & Hk6).
  pose proof (numDate_spec _ _ kvs4 H6 Hattr4) as Hnum. simpl in Hnum.
  pose proof (divergence_spec _ _ kvs6 H7 Hattr6) as Hdiv.
  split.
  - rewrite N8 by notin. rewrite Hdiv. unfold prop.
    rewrite Hk6, Hk4 by notin. rewrite N6, N15 by notin. done.
  - rewrite N8, N7 by notin. rewrite Hnum. unfold prop.
    rewrite !Hk4 by notin. by rewrite N15 by notin.
Qed.

Lemma copyIfTruthy_spec src from to dst :
  isNullish src = false →
  copyIfTruthy src from to dst =
  Ok (if truthy (field from src) then aset to (field from src) dst else dst).
Proof.
  intros Hsrc. unfold copyIfTruthy, field.
  destruct (get_Ok src from Hsrc) as [x ->]. simpl. by destruct (truthy x).
Qed.

Lemma authorCallback_attr info p p1 kvs :
  authorCallback info p = Ok p1 → alookup "attr" p = Some (VObj kvs) →
  ∃ kvs1, alookup "attr" p1 = Some (VObj kvs1) ∧
    (∀ k, k ≠ "authors" → k ≠ "author" → alookup k kvs1 = alookup k kvs) ∧
    (∀ k, is_Some (alookup k kvs1) → is_Some (alookup k kvs) ∨ k = "author").
Proof.
  unfold authorCallback. intros H Hattr.
  assert (prop "attr" p = VObj kvs) as Hprop by (unfold prop; by rewrite Hattr).
  rewrite Hprop in H. simpl in H.
  set (authors := default VUndef (alookup "authors" kvs)) in H.
  destruct (truthy authors).
  2:{ injection H as <-. exists kvs. split; [done|]. split; [done|]. by left. }
  inv_bind H. inv_bind H.
  assert (∀ k, is_Some (alookup k (adelete "authors" kvs)) →
               is_Some (alookup k kvs)) as Hdel.
  { intros k Hk. destruct (decide (k = "authors")) as [->|Hne].
    - rewrite alookup_adelete_eq in Hk. by destruct Hk.
    - by rewrite alookup_adelete_ne in Hk. }
  destruct (negb (truthy a0)).
  - injection H as <-. rewrite alookup_aset_eq. eexists. split; [done|].
    split; [|by left; apply Hdel].
    intros k Hk _. by apply alookup_adelete_ne.
  - do 4 inv_bind H. simpl in H.
    injection H as <-.
    rewrite alookup_aset_eq. eexists. split; [done|]. split.
    + intros k Hk1 Hk2. rewrite alookup_aset_ne by done.
      by apply alookup_adelete_ne.
    + intros k Hk. destruct (decide (k = "author")) as [->|Hne]; [by right|].
      left. rewrite alookup_aset_ne in Hk by done. by apply Hdel.
Qed.

Lemma authorPass_attr meta p p1 kvs :
  authorPass meta p p1 → alookup "attr" p = Some (VObj kvs) →
  ∃ kvs1, alookup "attr" p1 = Some (VObj kvs1) ∧
    (∀ k, k ≠ "authors" → k ≠ "author" → alookup k kvs1 = alookup k kvs) ∧
    (∀ k, is_Some (alookup k kvs1) → is_Some (alookup k kvs) ∨ k = "author").
Proof.
  intros (info & _ & H) Hattr. destruct (truthy info).
  - by eapply authorCallback_attr.
  - subst. exists kvs. split; [done|]. split; [done|]. by left.
Qed.

Lemma nodePasses_attr meta p p' kvs :
  nodePasses meta p p' → alookup "attr" p = Some (VObj kvs) →
  ∃ p3 kvs3,
    storeCallback p3 = Ok p' ∧ alookup "attr" p3 = Some (VObj kvs3) ∧
    (∀ k, k ≠ "attr" → k ≠ "vaccine" → alookup k p3 = alookup k p) ∧
    (∀ k, k ≠ "authors" → k ≠ "author" → alookup k kvs3 = alookup k kvs) ∧
    (∀ k, is_Some (alookup k kvs3) → is_Some (alookup k kvs) ∨ k = "author").
Proof.
  intros (p1 & p2 & p3 & Ha & Hv & Hs & Hst) Hattr.
  destruct (authorPass_attr _ _ _ _ Ha Hattr) as (kvs1 & Hattr1 & Hk1 & Hk1').
  exists p3, kvs1. split; [done|]. split; [|split; [|done]].
  - rewrite (serumCallback_frame _ _ _ Hs) by done.
    by rewrite (vaccinePass_frame _ _ _ _ Hv).
  - intros k Hk Hk'. rewrite (serumCallback_frame _ _ _ Hs) by done.
    rewrite (vaccinePass_frame _ _ _ _ Hv) by done.
    by apply (authorPass_frame _ _ _ _ Ha).
Qed.

Lemma nodePasses_no_attr meta p p' k :
  nodePasses meta p p' → truthy (prop "attr" p) = false →
  k ∈ allowedProperties → k ≠ "mutations" → k ≠ "vaccine" →
  alookup k p' = alookup k p.
Proof.
  intros (p1 & p2 & p3 & Ha & Hv & Hs & Hst) Hno Hal Hmu Hva.
  assert (k ≠ "attr") as Hat.
  { intros ->. apply (bool_decide_pack _) in Hal. by vm_compute in Hal. }
  assert (p1 = p) as ->.
  { destruct Ha as (info & _ & Ha). destruct (truthy info); [|done].
    unfold authorCallback in Ha. rewrite Hno in Ha. by injection Ha. }
  assert (prop "attr" p3 = prop "attr" p) as Hattr.
  { unfold prop. rewrite (serumCallback_frame _ _ _ Hs) by done.
    by rewrite (vaccinePass_frame _ _ _ _ Hv). }
  unfold storeCallback in Hst. rewrite Hattr, Hno in Hst. simpl in Hst.
  apply bind_Ok in Hst as (n2 & H2 & Hst). injection Hst as <-.
  rewrite pruneNode_lookup by done.
  apply mutationsBlock_inv in H2. rewrite H2.
  - rewrite (serumCallback_frame _ _ _ Hs) by done.
    by rewrite (vaccinePass_frame _ _ _ _ Hv).
  - intros Hin. repeat (apply elem_of_cons in Hin as [->|Hin]; [|]);
      try done; try (by apply elem_of_nil in Hin);
      apply (bool_decide_pack _) in Hal; by vm_compute in Hal.
Qed.

(** X18. The reshape moves [attr.div] to the node whenever it is defined,
    zero and [null] included, and [attr.num_date] only when it is truthy,
    as [num_date = {value}] with [confidence] added when
    [attr.num_date_confidence] is truthy; a node without [attr], or whose
    [attr] lacks them, keeps the [div] and the [num_date] it had. *)
Theorem div_and_num_date_move_to_the_node doc v2 :
  convertFromV1 doc = Ok v2 →
  TreeRel (λ p p',
      (∀ kvs, alookup "attr" p = Some (VObj kvs) →
         alookup "div" p' =
           (if isUndefined (prop "div" kvs) then alookup "div" p
            else Some (prop "div" kvs)) ∧
         alookup "num_date" p' =
           (if truthy (prop "num_date" kvs)
            then Some (numDateObject (prop "num_date" kvs)
                         (prop "num_date_confidence" kvs))
            else alookup "num_date" p)) ∧
      (truthy (prop "attr" p) = false →
       alookup "div" p' = alookup "div" p ∧
       alookup "num_date" p' = alookup "num_date" p))
    (tree doc) (v2tree v2).
Proof.
  intros H%convert_nodes. eapply TreeRel_impl; [|exact H].
  intros p p' Hp. split.
  - intros kvs Hattr.
    destruct (nodePasses_attr _ _ _ _ Hp Hattr)
      as (p3 & kvs3 & Hst & Hattr3 & Hf & Hk & _).
    assert (prop "attr" p3 = VObj kvs3) as Hprop
      by (unfold prop; by rewrite Hattr3).
    unfold storeCallback in Hst. rewrite Hprop in Hst. simpl in Hst.
    apply bind_Ok in Hst as (n1 & H1 & Hst).
    apply bind_Ok in Hst as (n2 & H2 & Hst). injection Hst as <-.
    apply mutationsBlock_inv in H2.
    destruct (attrBlock_div_num_date _ _ _ H1 Hprop) as [Hdiv Hnum].
    rewrite !pruneNode_lookup by (apply (bool_decide_unpack _); by vm_compute).
    rewrite !H2 by notin. rewrite Hdiv, Hnum. unfold prop.
    by rewrite !Hk, !Hf by done.
  - intros Hno.
    split; apply (nodePasses_no_attr _ _ _ _ Hp Hno);
      try (apply (bool_decide_unpack _); by vm_compute); done.
Qed.

(** *** Where the traits come from *)

Lemma attrShrinks_refl a : attrShrinks a a.
Proof. intros kvs ->. by exists kvs. Qed.

Lemma attrShrinks_trans a b c :
  attrShrinks a b → attrShrinks b c → attrShrinks a c.
Proof.
  intros Hab Hbc kvs Ha. destruct (Hab kvs Ha) as (kvs1 & Hb & H1).
  destruct (Hbc kvs1 Hb) as (kvs2 & Hc & H2).
  exists kvs2. split; [done|]. intros k v Hk. by apply H1, H2.
Qed.

Lemma attrShrinks_delete a k : attrShrinks a (deleteProp a k).
Proof.
  intros kvs ->. exists (adelete k kvs). split; [done|].
  intros k' v Hk'. destruct (decide (k' = k)) as [->|Hne].
  - by rewrite alookup_adelete_eq in Hk'.
  - by rewrite alookup_adelete_ne in Hk'.
Qed.

Lemma moveToNode_shrinks k st st' :
  moveToNode k st = Ok st' → attrShrinks (r_attr st) (r_attr st').
Proof.
  unfold moveToNode. intros H. inv_bind H.
  destruct (truthy a); injection H as <-; simpl.
  - apply attrShrinks_delete.
  - apply attrShrinks_refl.
Qed.

Lemma cladeLabel_shrinks st st' :
  cladeLabel st = Ok st' → attrShrinks (r_attr st) (r_attr st').
Proof.
  unfold cladeLabel. intros H. inv_bind H. inv_bind H.
  destruct (_ || _).
  - inv_bind H. injection H as <-. simpl.
    eapply attrShrinks_trans; apply attrShrinks_delete.
  - injection H as <-. apply attrShrinks_refl.
Qed.

Lemma numDate_shrinks st st' :
  numDate st = Ok st' → attrShrinks (r_attr st) (r_attr st').
Proof.
  unfold numDate. intros H. inv_bind H.
  destruct (truthy a); [|injection H as <-; apply attrShrinks_refl].
  inv_bind H. destruct (truthy a0); injection H as <-; simpl.
  - eapply attrShrinks_trans; apply attrShrinks_delete.
  - apply attrShrinks_delete.
Qed.

Lemma divergence_shrinks st st' :
  divergence st = Ok st' → attrShrinks (r_attr st) (r_attr st').
Proof.
  unfold divergence. intros H. inv_bind H.
  destruct (negb _); injection H as <-; simpl.
  - apply attrShrinks_delete.
  - apply attrShrinks_refl.
Qed.

Lemma transferTraits_keys st node' kvs :
  transferTraits st = Ok node' → r_attr st = VObj kvs →
  alookup "traits" (r_node st) = None →
  ∀ tr k, alookup "traits" node' = Some (VObj tr) → is_Some (alookup k tr) →
          isTraitKey k = true ∧ is_Some (alookup k kvs).
Proof.
  unfold transferTraits. intros H Hattr Hnone tr k Htr Hk.
  rewrite Hattr in H. simpl in H.
  destruct (0 <? length (List.filter isTraitKey (map fst kvs)))%nat eqn:El.
  - destruct (fold_traitStep_inv _ _ _ _ [] H) as (_ & tr' & Htr' & _ & Hout).
    { unfold prop. by rewrite alookup_aset_eq. }
    unfold prop in Htr'. rewrite Htr in Htr'. simpl in Htr'.
    injection Htr' as <-.
    destruct (decide (k ∈ List.filter isTraitKey (map fst kvs))) as [Hin|Hin].
    + apply list_elem_of_In, filter_In in Hin as [Hin Ht].
      split; [done|]. by apply alookup_keys_Some, list_elem_of_In.
    + rewrite (Hout k Hin) in Hk. by destruct Hk.
  - destruct (List.filter isTraitKey (map fst kvs)); [|done].
    simpl in H. injection H as <-. congruence.
Qed.

Lemma attrBlock_traits_keys node node' kvs :
  attrBlock node = Ok node' → prop "attr" node = VObj kvs →
  alookup "traits" node = None →
  ∀ tr k, alookup "traits" node' = Some (VObj tr) → is_Some (alookup k tr) →
          isTraitKey k = true ∧ is_Some (alookup k kvs).
Proof.
  unfold attrBlock. intros H Hattr Hnone tr k Htr Hk.
  apply bind_Ok in H as (st1 & H1 & H). apply bind_Ok in H as (st2 & H2 & H).
  apply bind_Ok in H as (st3 & H3 & H). apply bind_Ok in H as (st4 & H4 & H).
  apply bind_Ok in H as (n5 & H5 & H). apply bind_Ok in H as (st6 & H6 & H).
  apply bind_Ok in H as (st7 & H7 & H).
  pose proof (moveToNode_shrinks _ _ _ H1) as S1.
  pose proof (moveToNode_shrinks _ _ _ H2) as S2.
  pose proof (moveToNode_shrinks _ _ _ H3) as S3.
  pose proof (cladeLabel_shrinks _ _ H4) as S4.
  pose proof (numDate_shrinks _ _ H6) as S6.
  pose proof (divergence_shrinks _ _ H7) as S7.
  apply moveToNode_inv in H1 as (N1 & _).
  apply moveToNode_inv in H2 as (N2 & _).
  apply moveToNode_inv in H3 as (N3 & _).
  apply cladeLabel_inv in H4 as (N4 & _).
  apply aaLabel_inv in H5 as N5.
  apply numDate_inv in H6 as (N6 & _).
  apply divergence_inv in H7 as (N7 & _).
  simpl in *.
  assert (attrShrinks (VObj kvs) (r_attr st7)) as S17.
  { rewrite <- Hattr.
    eapply attrShrinks_trans; [exact S1|].
    eapply attrShrinks_trans; [exact S2|].
    eapply attrShrinks_trans; [exact S3|].
    eapply attrShrinks_trans; [exact S4|].
    eapply attrShrinks_trans; [exact S6|exact S7]. }
  destruct (S17 kvs eq_refl) as (kvs7 & Hattr7 & Hsub).
  assert (alookup "traits" (r_node st7) = None) as Hnone7.
  { rewrite N7, N6, N5, N4, N3, N2, N1 by notin. done. }
  destruct (transferTraits_keys _ _ _ H Hattr7 Hnone7 tr k Htr Hk)
    as [Ht [v Hv]].
  split; [done|]. exists v. by apply Hsub.
Qed.

Lemma storeCallback_traits_keys p p' kvs :
  storeCallback p = Ok p' → alookup "attr" p = Some (VObj kvs) →
  alookup "traits" p = None →
  ∀ tr k, alookup "traits" p' = Some (VObj tr) → is_Some (alookup k tr) →
          isTraitKey k = true ∧ is_Some (alookup k kvs).
Proof.
  unfold storeCallback. intros H Hattr Hnone tr k Htr Hk.
  assert (prop "attr" p = VObj kvs) as Hprop by (unfold prop; by rewrite Hattr).
  rewrite Hprop in H. simpl in H.
  apply bind_Ok in H as (n1 & H1 & H). apply bind_Ok in H as (n2 & H2 & H).
  injection H as <-.
  rewrite pruneNode_lookup in Htr
    by (apply (bool_decide_unpack _); by vm_compute).
  apply mutationsBlock_inv in H2. rewrite H2 in Htr by notin.
  by eapply attrBlock_traits_keys.
Qed.

Lemma storeCallback_author p p' kvs :
  storeCallback p = Ok p' → alookup "attr" p = Some (VObj kvs) →
  alookup "author" p' =
  (if truthy (prop "author" kvs) then Some (prop "author" kvs)
   else alookup "author" p).
Proof.
  unfold storeCallback. intros H Hattr.
  assert (prop "attr" p = VObj kvs) as Hprop by (unfold prop; by rewrite Hattr).
  rewrite Hprop in H. simpl in H.
  apply bind_Ok in H as (n1 & H1 & H). apply bind_Ok in H as (n2 & H2 & H).
  injection H as <-.
  apply attrBlock_inv in H1 as (_ & Hspec).
  destruct (Hspec kvs Hprop) as (Hauthor & _).
  apply mutationsBlock_inv in H2.
  rewrite pruneNode_lookup by (apply (bool_decide_unpack _); by vm_compute).
  by rewrite H2 by notin.
Qed.

(** X19. In the tree [storeTreeAsV2] returns, the traits of a node that had
    no [traits] of its own all come from its [attr]: every trait is a key
    of the legacy [attr] that neither ends in [_entropy] or [_confidence]
    nor is one of [clock_length], [date], [raw_date] and [strain]. *)
Theorem traits_come_from_attr t t' :
  storeTreeAsV2 t = Ok t' →
  TreeRel (λ p p', ∀ kvs tr k,
      alookup "attr" p = Some (VObj kvs) → alookup "traits" p = None →
      alookup "traits" p' = Some (VObj tr) → is_Some (alookup k tr) →
      is_Some (alookup k kvs) ∧
      endsWith "_entropy" k = false ∧ endsWith "_confidence" k = false ∧
      k ∉ attrsToIgnore)
    t t'.
Proof.
  unfold storeTreeAsV2. intros H%traverse_rel.
  eapply TreeRel_impl; [|exact H].
  intros p p' Hst kvs tr k Hattr Hnone Htr Hk.
  destruct (storeCallback_traits_keys _ _ _ Hst Hattr Hnone tr k Htr Hk)
    as [Ht Hin].
  split; [done|]. unfold isTraitKey in Ht.
  apply andb_true_iff in Ht as [Ht H3]. apply andb_true_iff in Ht as [H1 H2].
  apply negb_true_iff in H1, H2, H3.
  split; [done|]. split; [done|]. by apply bool_decide_eq_false in H3.
Qed.

(** *** Authors with author_info *)

Lemma authorCallback_found info p p1 kvs a :
  authorCallback info p = Ok p1 → truthy info = true →
  alookup "attr" p = Some (VObj kvs) →
  alookup "authors" kvs = Some (VStr a) → a ≠ "" →
  ∃ v1info, get info a = Ok v1info ∧
    (truthy v1info = false →
     alookup "attr" p1 = Some (VObj (adelete "authors" kvs))) ∧
    (truthy v1info = true →
     ∃ pretty author,
       prettyString (VStr a) defaultOptions = Ok (VStr pretty) ∧
       alookup "attr" p1 =
         Some (VObj (aset "author" (VObj author) (adelete "authors" kvs))) ∧
       alookup "author" author = Some (VStr pretty) ∧
       alookup "value" author = Some (VStr a) ∧
       ∀ k, k ∈ ["title"; "journal"; "paper_url"] →
            alookup k author =
            if truthy (field k v1info) then Some (field k v1info) else None).
Proof.
  unfold authorCallback. intros H Hinfo Hattr Hauthors Ha.
  assert (prop "attr" p = VObj kvs) as Hprop by (unfold prop; by rewrite Hattr).
  rewrite Hprop in H. simpl in H. rewrite Hauthors in H. simpl in H.
  apply String.eqb_neq in Ha. rewrite Ha in H. simpl in H.
  destruct (get_Ok info a (truthy_not_nullish _ Hinfo)) as [v1info Hget].
  rewrite Hget in H. simpl in H.
  exists v1info. split; [done|].
  destruct (truthy v1info) eqn:Et; simpl in H.
  - split; [done|]. intros _.
    pose proof (truthy_not_nullish _ Et) as Hn.
    rewrite (copyIfTruthy_spec v1info) in H by done. simpl in H.
    rewrite (copyIfTruthy_spec v1info) in H by done. simpl in H.
    rewrite (copyIfTruthy_spec v1info) in H by done. simpl in H.
    destruct (prettyString_string_Ok a defaultOptions) as [r Hr].
    rewrite ?Hr in H. simpl in H. injection H as <-.
    exists r. eexists. split; [done|].
    rewrite alookup_aset_eq. split; [done|].
    split; [by rewrite alookup_aset_ne, alookup_aset_eq|].
    split; [by rewrite alookup_aset_eq|].
    intros k Hk. rewrite !alookup_aset_ne
      by (intros ->; repeat (apply elem_of_cons in Hk as [Hk|Hk]; [done|]);
          by apply elem_of_nil in Hk).
    repeat (apply elem_of_cons in Hk as [->|Hk]);
      [..|by apply elem_of_nil in Hk];
      destruct (truthy (field "title" v1info)),
               (truthy (field "journal" v1info)),
               (truthy (field "paper_url" v1info)); done.
  - split; [|done]. intros _. injection H as <-. by rewrite alookup_aset_eq.
Qed.

(** X20. With an object as [meta.author_info], a node whose [attr.authors]
    is a key of it ends with [author] holding the title, journal and
    paper_url of the entry that are truthy, the prettified key as [author]
    and the key as [value]; a node whose key has no entry, and is not a
    name that objects inherit, loses the key and gets no [author] from it.
    Either way the key no longer becomes a trait. *)
Theorem authors_with_author_info doc v2 o :
  convertFromV1 doc = Ok v2 →
  get (meta doc) "author_info" = Ok (VObj o) →
  TreeRel (λ p p', ∀ kvs a,
      alookup "attr" p = Some (VObj kvs) →
      alookup "authors" kvs = Some (VStr a) → a ≠ "" →
      a ∉ objectPrototypeNames →
      ∃ v1info, get (VObj o) a = Ok v1info ∧
        (truthy v1info = true →
         ∃ pretty author,
           prettyString (VStr a) defaultOptions = Ok (VStr pretty) ∧
           alookup "author" p' = Some (VObj author) ∧
           alookup "author" author = Some (VStr pretty) ∧
           alookup "value" author = Some (VStr a) ∧
           ∀ k, k ∈ ["title"; "journal"; "paper_url"] →
                alookup k author =
                if truthy (field k v1info) then Some (field k v1info)
                else None) ∧
        (truthy v1info = false →
         alookup "author" p' =
         (if truthy (prop "author" kvs) then Some (prop "author" kvs)
          else alookup "author" p)) ∧
        (alookup "traits" p = None → ∀ tr,
           alookup "traits" p' = Some (VObj tr) →
           alookup "authors" tr = None))
    (tree doc) (v2tree v2).
Proof.
  intros H%convert_nodes Hinfo. eapply TreeRel_impl; [|exact H].
  intros p p' (p1 & p2 & p3 & (info' & Hinfo' & Ha) & Hv & Hs & Hst)
    kvs a Hattr Hauthors Hne _.
  rewrite Hinfo in Hinfo'. injection Hinfo' as <-.
  set (info := VObj o) in *.
  assert (truthy info = true) as Ht by done. rewrite Ht in Ha.
  assert (∀ k, k ≠ "vaccine" → alookup k p3 = alookup k p1) as Hf.
  { intros k Hk. rewrite (serumCallback_frame _ _ _ Hs) by done.
    by rewrite (vaccinePass_frame _ _ _ _ Hv). }
  pose proof (λ k, authorCallback_frame _ _ _ k Ha) as Hfa.
  destruct (authorCallback_found _ _ _ _ _ Ha Ht Hattr Hauthors Hne)
    as (v1info & Hget & Hmiss & Hfound).
  exists v1info. split; [done|].
  assert (∃ kvs1, alookup "attr" p3 = Some (VObj kvs1) ∧
                  alookup "authors" kvs1 = None ∧
                  (truthy v1info = false →
                   prop "author" kvs1 = prop "author" kvs)) as
    (kvs1 & Hattr1 & Hno & Hsame).
  { destruct (truthy v1info) eqn:Et.
    - destruct (Hfound eq_refl) as (pretty & author & _ & Hattr1 & _).
      eexists. split; [by rewrite Hf|]. split; [|done].
      by rewrite alookup_aset_ne, alookup_adelete_eq.
    - eexists. split; [rewrite Hf by done; by apply Hmiss|].
      split; [by rewrite alookup_adelete_eq|].
      intros _. unfold prop. by rewrite alookup_adelete_ne. }
  pose proof (storeCallback_author _ _ _ Hst Hattr1) as Hauthor.
  split; [|split].
  - intros Et. destruct (Hfound Et) as (pretty & author & Hp & Hattr1' & Hrest).
    exists pretty, author. split; [done|]. split; [|done].
    rewrite Hf, Hattr1' in Hattr1 by done. injection Hattr1 as <-.
    rewrite Hauthor. unfold prop. by rewrite alookup_aset_eq.
  - intros Et. rewrite Hauthor, (Hsame Et).
    by rewrite Hf, Hfa by done.
  - intros Hnone tr Htr.
    destruct (alookup "authors" tr) as [x|] eqn:Ex; [|done].
    assert (alookup "traits" p3 = None) as Hnone3
      by (by rewrite Hf, Hfa by done).
    destruct (storeCallback_traits_keys _ _ _ Hst Hattr1 Hnone3 tr "authors" Htr)
      as [_ [y Hy]]; [by rewrite Ex|]. congruence.
Qed.

(** *** Colorings *)

Lemma field_get v k x : get v k = Ok x → field k v = x.
Proof. unfold field. by intros ->. Qed.




Lemma copyIfTruthy_frame src from to dst dst' :
  copyIfTruthy src from to dst = Ok dst' →
  ∀ k, k ≠ to → alookup k dst' = alookup k dst.
Proof.
  unfold copyIfTruthy. intros H k Hk. apply bind_Ok in H as (x & _ & H).
  destruct (truthy x); injection H as <-; [|done].
  by rewrite alookup_aset_ne.
Qed.

Lemma copyIfTruthy_lookup src from to dst dst' :
  copyIfTruthy src from to dst = Ok dst' →
  alookup to dst' =
  (if truthy (field from src) then Some (field from src) else alookup to dst).
Proof.
  unfold copyIfTruthy. intros H. apply bind_Ok in H as (x & Hx & H).
  rewrite (field_get _ _ _ Hx).
  destruct (truthy x); injection H as <-; [|done].
  by rewrite alookup_aset_eq.
Qed.

Lemma replaceFirstStr_length x y l :
  length (replaceFirstStr x y l) = length l.
Proof.
  induction l as [|v l IH]; [done|]. simpl.
  destruct (isStr x v); simpl; by rewrite ?IH.
Qed.

Lemma replaceFirstStr_lookup x y l i v :
  l !! i = Some v →
  replaceFirstStr x y l !! i = Some (if firstAt x l i then VStr y else v).
Proof.
  unfold firstAt. revert i. induction l as [|v0 l IH]; intros i Hi; [done|].
  simpl. destruct i as [|i]; simpl in *.
  - injection Hi as ->. rewrite andb_true_r. by destruct (isStr x v).
  - destruct (isStr x v0) eqn:E; simpl.
    + by rewrite andb_false_r.
    + by apply IH.
Qed.

Lemma replaceFirstStr_absent x y l :
  existsb (isStr x) l = false → replaceFirstStr x y l = l.
Proof.
  induction l as [|v l IH]; [done|]. simpl.
  intros [-> H]%orb_false_iff. by rewrite IH.
Qed.

(** What [setMiscMetaProperties] leaves under each top-level key. *)
Lemma setMisc_spec v2 meta v2' :
  setMiscMetaProperties v2 meta = Ok v2' →
  (∀ k, k ∉ miscKeys → alookup k v2' = alookup k v2) ∧
  alookup "title" v2' = Some (field "title" meta) ∧
  alookup "version" v2' = Some (VStr "2.0-alpha.0") ∧
  alookup "updated" v2' = Some (field "updated" meta) ∧
  alookup "maintainers" v2' =
    (let m := field "maintainer" meta in
     if truthy m
     then Some (VArr [VObj [("name", field "0" m); ("url", field "1" m)]])
     else alookup "maintainers" v2) ∧
  (∀ from to, (from, to) ∈ [("annotations", "genome_annotations");
                            ("panels", "panels"); ("geo", "geographic_info")] →
     alookup to v2' = if truthy (field from meta) then Some (field from meta)
                      else alookup to v2) ∧
  (truthy (field "filters" meta) = false →
     alookup "filters" v2' = alookup "filters" v2) ∧
  (∀ l, field "filters" meta = VArr l →
     alookup "filters" v2' = Some (VArr (replaceFirstStr "authors" "author" l))) ∧
  (let d := field "defaults" meta in
   if truthy d then
     ∃ dd, alookup "display_defaults" v2' = Some (VObj dd) ∧
       ∀ from to, (from, to) ∈ [("geoResolution", "geo_resolution");
                                ("colorBy", "color_by");
                                ("distanceMeasure", "distance_measure");
                                ("mapTriplicate", "map_triplicate")] →
         alookup to dd = if truthy (field from d) then Some (field from d)
                         else None
   else alookup "display_defaults" v2' = alookup "display_defaults" v2).
Proof.
  unfold setMiscMetaProperties. intros H.
  apply bind_Ok in H as (title & Htitle & H).
  apply bind_Ok in H as (updated & Hupdated & H).
  apply bind_Ok in H as (maintainer & Hmaintainer & H).
  apply bind_Ok in H as (a1 & H1 & H).
  apply bind_Ok in H as (a2 & H2 & H).
  apply bind_Ok in H as (filters & Hfilters & H).
  apply bind_Ok in H as (a3 & H3 & H).
  apply bind_Ok in H as (a4 & H4 & H).
  apply bind_Ok in H as (defaults & Hdefaults & H).
  apply bind_Ok in H as (a5 & H5 & H).
  apply field_get in Htitle, Hupdated, Hmaintainer, Hfilters, Hdefaults.
  rewrite Htitle, Hupdated, Hmaintainer, Hdefaults. clear Htitle Hupdated.
  pose proof (copyIfTruthy_frame _ _ _ _ _ H2) as F2.
  pose proof (copyIfTruthy_lookup _ _ _ _ _ H2) as L2.
  pose proof (copyIfTruthy_frame _ _ _ _ _ H4) as F4.
  pose proof (copyIfTruthy_lookup _ _ _ _ _ H4) as L4.
  pose proof (copyIfTruthy_frame _ _ _ _ _ H) as F6.
  pose proof (copyIfTruthy_lookup _ _ _ _ _ H) as L6.
  clear H2 H4 H.
  set (v0 := aset "updated" updated
               (aset "version" (VStr "2.0-alpha.0") (aset "title" title v2)))
    in *.
  assert (∀ k, k ≠ "title" → k ≠ "version" → k ≠ "updated" →
               alookup k v0 = alookup k v2) as F0.
  { intros k ???. unfold v0. by rewrite !alookup_aset_ne. }
  assert ((∀ k, k ≠ "maintainers" → alookup k a1 = alookup k v0) ∧
          alookup "maintainers" a1 =
          (if truthy maintainer
           then Some (VArr [VObj [("name", field "0" maintainer);
                                  ("url", field "1" maintainer)]])
           else alookup "maintainers" v0)) as [F1 L1].
  { destruct (truthy maintainer).
    - apply bind_Ok in H1 as (name & Hname & H1).
      apply bind_Ok in H1 as (url & Hurl & H1). injection H1 as <-.
      apply field_get in Hname, Hurl. rewrite Hname, Hurl.
      split; [|by rewrite alookup_aset_eq].
      intros k Hk. by rewrite alookup_aset_ne.
    - by injection H1 as <-. }
  clear H1.
  assert ((∀ k, k ≠ "filters" → alookup k a3 = alookup k a2) ∧
          (truthy filters = false → alookup "filters" a3 = alookup "filters" a2) ∧
          (∀ l, filters = VArr l →
             alookup "filters" a3 =
             Some (VArr (replaceFirstStr "authors" "author" l)))) as (F3 & L3 & L3').
  { destruct (truthy filters) eqn:Et.
    - apply bind_Ok in H3 as (found & Hfound & H3).
      split; [|split; [done|]].
      + intros k Hk. destruct found.
        * apply bind_Ok in H3 as (f' & _ & H3). injection H3 as <-.
          by rewrite alookup_aset_ne.
        * injection H3 as <-. by rewrite alookup_aset_ne.
      + intros l ->. simpl in Hfound. injection Hfound as <-.
        destruct (existsb (isStr "authors") l) eqn:Ex.
        * simpl in H3. injection H3 as <-. by rewrite alookup_aset_eq.
        * injection H3 as <-. rewrite alookup_aset_eq.
          by rewrite replaceFirstStr_absent.
    - injection H3 as <-. split; [done|]. split; [done|]. by intros l ->. }
  clear H3.
  assert ((∀ k, k ≠ "display_defaults" → alookup k a5 = alookup k a4) ∧
          (if truthy defaults then
             ∃ dd, alookup "display_defaults" a5 = Some (VObj dd) ∧
               ∀ from to, (from, to) ∈ [("geoResolution", "geo_resolution");
                                        ("colorBy", "color_by");
                                        ("distanceMeasure", "distance_measure");
                                        ("mapTriplicate", "map_triplicate")] →
                 alookup to dd =
                 if truthy (field from defaults) then Some (field from defaults)
                 else None
           else alookup "display_defaults" a5 = alookup "display_defaults" a4))
    as [F5 L5].
  { destruct (truthy defaults).
    - apply bind_Ok in H5 as (d1 & D1 & H5). apply bind_Ok in H5 as (d2 & D2 & H5).
      apply bind_Ok in H5 as (d3 & D3 & H5). apply bind_Ok in H5 as (d4 & D4 & H5).
      injection H5 as <-.
      split; [intros k Hk; by rewrite alookup_aset_ne|].
      exists d4. split; [by rewrite alookup_aset_eq|].
      pose proof (copyIfTruthy_lookup _ _ _ _ _ D1) as M1.
      pose proof (copyIfTruthy_lookup _ _ _ _ _ D2) as M2.
      pose proof (copyIfTruthy_lookup _ _ _ _ _ D3) as M3.
      pose proof (copyIfTruthy_lookup _ _ _ _ _ D4) as M4.
      pose proof (copyIfTruthy_frame _ _ _ _ _ D2) as G2.
      pose proof (copyIfTruthy_frame _ _ _ _ _ D3) as G3.
      pose proof (copyIfTruthy_frame _ _ _ _ _ D4) as G4.
      intros from to Hin.
      repeat (apply elem_of_cons in Hin as [Hin|Hin]; [injection Hin as -> ->|]);
        [..|by apply elem_of_nil in Hin].
      + by rewrite G4, G3, G2, M1.
      + by rewrite G4, G3, M2, (copyIfTruthy_frame _ _ _ _ _ D1).
      + rewrite G4, M3, G2 by done.
        by rewrite (copyIfTruthy_frame _ _ _ _ _ D1).
      + rewrite M4, G3, G2 by done.
        by rewrite (copyIfTruthy_frame _ _ _ _ _ D1).
    - by injection H5 as <-. }
  clear H5.
  split.
  { intros k Hk.
    assert (∀ x, x ∈ miscKeys → k ≠ x) as Hne by (by intros x Hx ->).
    rewrite F6, F5, F4, F3, F2, F1, F0; [done|apply Hne; unfold miscKeys..];
      apply (bool_decide_unpack _); by vm_compute. }
  split.
  { rewrite F6, F5, F4, F3, F2, F1 by done. unfold v0.
    rewrite 2!alookup_aset_ne by done. by rewrite alookup_aset_eq. }
  split.
  { rewrite F6, F5, F4, F3, F2, F1 by done. unfold v0.
    rewrite alookup_aset_ne by done. by rewrite alookup_aset_eq. }
  split.
  { rewrite F6, F5, F4, F3, F2, F1 by done. unfold v0.
    by rewrite alookup_aset_eq. }
  split.
  { simpl. rewrite F6, F5, F4, F3, F2, L1 by done.
    destruct (truthy maintainer); [done|]. by apply F0. }
  split.
  { intros from to Hin.
    repeat (apply elem_of_cons in Hin as [Hin|Hin]; [injection Hin as -> ->|]);
      [..|by apply elem_of_nil in Hin].
    - rewrite F6, F5, F4, F3, L2 by done.
      destruct (truthy (field "annotations" meta)); [done|].
      rewrite F1 by done. by apply F0.
    - rewrite F6, F5, L4 by done.
      destruct (truthy (field "panels" meta)); [done|].
      rewrite F3, F2, F1 by done. by apply F0.
    - rewrite L6. destruct (truthy (field "geo" meta)); [done|].
      rewrite F5, F4, F3, F2, F1 by done. by apply F0. }
  split.
  { intros Et. rewrite Hfilters in Et.
    rewrite F6, F5, F4, (L3 Et), F2, F1 by done. by apply F0. }
  split.
  { intros l Hl. rewrite Hfilters in Hl.
    by rewrite F6, F5, F4, (L3' l Hl) by done. }
  simpl. destruct (truthy defaults).
  - destruct L5 as (dd & Hdd & Hrest). exists dd. split; [|done].
    by rewrite F6.
  - rewrite F6, L5, F4, F3, F2, F1 by done. by apply F0.
Qed.

Lemma convert_top doc v2 :
  convertFromV1 doc = Ok v2 →
  ∃ c m, setColorings [] (meta doc) = Ok c ∧
         setMiscMetaProperties c (meta doc) = Ok m ∧
         fields v2 = (if truthy (treeName doc)
                      then aset "tree_name" (treeName doc) m else m).
Proof.
  unfold convertFromV1. intros H.
  apply bind_Ok in H as (c & Hc & H). apply bind_Ok in H as (m & Hm & H).
  apply bind_Ok in H as (t1 & _ & H). apply bind_Ok in H as (t2 & _ & H).
  apply bind_Ok in H as (t3 & _ & H). injection H as <-. simpl.
  by exists c, m.
Qed.

Lemma setColorings_keys v2 meta v2' :
  setColorings v2 meta = Ok v2' →
  ∀ k, k ≠ "colorings" → alookup k v2' = alookup k v2.
Proof.
  unfold setColorings. intros H k Hk.
  apply bind_Ok in H as (co & _ & H). apply bind_Ok in H as (e & _ & H).
  apply bind_Ok in H as (c & _ & H). injection H as <-.
  by rewrite alookup_aset_ne.
Qed.

Lemma tree_name_frame (name : value) (m : obj) k :
  k ≠ "tree_name" →
  alookup k (if truthy name then aset "tree_name" name m else m) = alookup k m.
Proof. intros Hk. destruct (truthy name); [|done]. by rewrite alookup_aset_ne. Qed.


(** X22. The top-level fields of the migrated document: [title] and
    [updated] are those of [meta] ([undefined] when missing), [version] is
    2.0-alpha.0, and each of [maintainers], [genome_annotations],
    [panels], [geographic_info], [display_defaults] and [tree_name] is
    present only when its source is truthy. *)
Theorem top_level_fields doc v2 :
  convertFromV1 doc = Ok v2 →
  let m := meta doc in
  let f := fields v2 in
  alookup "title" f = Some (field "title" m) ∧
  alookup "version" f = Some (VStr "2.0-alpha.0") ∧
  alookup "updated" f = Some (field "updated" m) ∧
  alookup "maintainers" f =
    (if truthy (field "maintainer" m)
     then Some (VArr [VObj [("name", field "0" (field "maintainer" m));
                            ("url", field "1" (field "maintainer" m))]])
     else None) ∧
  (∀ from to, (from, to) ∈ [("annotations", "genome_annotations");
                            ("panels", "panels"); ("geo", "geographic_info")] →
     alookup to f = if truthy (field from m) then Some (field from m) else None) ∧
  alookup "tree_name" f =
    (if truthy (treeName doc) then Some (treeName doc) else None) ∧
  (if truthy (field "defaults" m) then
     ∃ dd, alookup "display_defaults" f = Some (VObj dd) ∧
       ∀ from to, (from, to) ∈ [("geoResolution", "geo_resolution");
                                ("colorBy", "color_by");
                                ("distanceMeasure", "distance_measure");
                                ("mapTriplicate", "map_triplicate")] →
         alookup to dd =
         if truthy (field from (field "defaults" m))
         then Some (field from (field "defaults" m)) else None
   else alookup "display_defaults" f = None).
Proof.
  intros H m f. destruct (convert_top _ _ H) as (c & v & Hc & Hm & Hf).
  subst f m. rewrite Hf.
  destruct (setMisc_spec _ _ _ Hm)
    as (Hframe & Ht & Hv & Hu & Hmt & Hcopy & _ & _ & Hd).
  pose proof (setColorings_keys _ _ _ Hc) as Hk. simpl in Hk.
  rewrite !tree_name_frame by done.
  split; [done|]. split; [done|]. split; [done|].
  split; [by rewrite Hmt, Hk by done|].
  split.
  { intros from to Hin. rewrite tree_name_frame.
    - rewrite (Hcopy from to Hin).
      destruct (truthy (field from (meta doc))); [done|].
      apply Hk. intros ->.
      repeat (apply elem_of_cons in Hin as [Hin|Hin]; [done|]).
      by apply elem_of_nil in Hin.
    - intros ->.
      repeat (apply elem_of_cons in Hin as [Hin|Hin]; [done|]).
      by apply elem_of_nil in Hin. }
  split.
  { destruct (truthy (treeName doc)); [by rewrite alookup_aset_eq|].
    rewrite Hframe by notin. by apply Hk. }
  simpl in Hd. destruct (truthy (field "defaults" (meta doc))).
  - destruct Hd as (dd & Hdd & Hrest). exists dd.
    by rewrite tree_name_frame.
  - rewrite tree_name_frame, Hd by done. by apply Hk.
Qed.

(** X23. An array [meta.filters] is kept, with the same length, as the
    [filters] of the migrated document, except that its first [authors]
    becomes [author]; a later [authors] stays as it is. *)
Theorem filters_rename_first_authors doc v2 l :
  convertFromV1 doc = Ok v2 →
  field "filters" (meta doc) = VArr l →
  ∃ l', alookup "filters" (fields v2) = Some (VArr l') ∧
        length l' = length l ∧
        ∀ i x, l !! i = Some x →
               l' !! i = Some (if firstAt "authors" l i then VStr "author"
                               else x).
Proof.
  intros H Hl. destruct (convert_top _ _ H) as (c & v & Hc & Hm & ->).
  destruct (setMisc_spec _ _ _ Hm) as (_ & _ & _ & _ & _ & _ & _ & Hf & _).
  exists (replaceFirstStr "authors" "author" l).
  split; [rewrite tree_name_frame by done; by apply Hf|].
  split; [apply replaceFirstStr_length|].
  intros i x Hi. by apply replaceFirstStr_lookup.
Qed.

(** *** The attributes that become traits *)









(** *** Branch labels *)

Lemma setLabel_spec k x node node' ls :
  setLabel k x node = Ok node' →
  alookup "labels" node = Some (VObj ls) ∨
  (alookup "labels" node = None ∧ ls = []) →
  alookup "labels" node' = Some (VObj (aset k x ls)).
Proof.
  unfold setLabel. intros H [Hl|[Hl ->]]; unfold prop in H; rewrite Hl in H;
    simpl in H.
  - rewrite Hl in H. simpl in H. injection H as <-.
    by rewrite alookup_aset_eq.
  - rewrite alookup_aset_eq in H. simpl in H. injection H as <-.
    by rewrite alookup_aset_eq.
Qed.

Lemma cladeLabel_spec st st' kvs :
  cladeLabel st = Ok st' → r_attr st = VObj kvs →
  alookup "labels" (r_node st) = None →
  alookup "labels" (r_node st') =
  (let clade := orElse (prop "clade_annotation" kvs) (prop "clade_name" kvs) in
   if truthy clade then Some (VObj [("clade", clade)]) else None).
Proof.
  unfold cladeLabel. intros H Hattr Hl. rewrite Hattr in H. simpl in H.
  fold (prop "clade_name" kvs) in H. fold (prop "clade_annotation" kvs) in H.
  unfold orElse in *.
  destruct (truthy (prop "clade_annotation" kvs)) eqn:Ea;
    destruct (truthy (prop "clade_name" kvs)) eqn:En; simpl in H |- *;
    rewrite ?Ea, ?En;
    first [by injection H as <-
          |apply bind_Ok in H as (n & Hn & H); injection H as <-; simpl;
           by apply (setLabel_spec _ _ _ _ [] Hn); right].
Qed.

Lemma aaLabel_spec node node' :
  aaLabel node = Ok node' →
  (truthy (prop "aa_muts" node) = false → node' = node) ∧
  (node' = node ∨ ∃ x, setLabel "aa" x node = Ok node').
Proof.
  unfold aaLabel. intros H. destruct (truthy (prop "aa_muts" node)).
  - split; [done|]. apply bind_Ok in H as (keys & _ & H).
    apply bind_Ok in H as (muts & _ & H).
    destruct (0 <? length muts)%nat; [right; by eexists|].
    left. by injection H.
  - injection H as <-. split; [done|]. by left.
Qed.

Lemma attrBlock_labels node node' kvs :
  attrBlock node = Ok node' → prop "attr" node = VObj kvs →
  alookup "labels" node = None →
  let clade := orElse (prop "clade_annotation" kvs) (prop "clade_name" kvs) in
  (truthy clade = true →
   ∃ labels, alookup "labels" node' = Some (VObj labels) ∧
             alookup "clade" labels = Some clade) ∧
  (truthy clade = false → ∀ labels,
     alookup "labels" node' = Some (VObj labels) →
     alookup "clade" labels = None) ∧
  (truthy clade = false → truthy (prop "aa_muts" node) = false →
   alookup "labels" node' = None).
Proof.
  intros H Hattr Hnone clade. unfold attrBlock in H.
  apply bind_Ok in H as (st1 & H1 & H). apply bind_Ok in H as (st2 & H2 & H).
  apply bind_Ok in H as (st3 & H3 & H). apply bind_Ok in H as (st4 & H4 & H).
  apply bind_Ok in H as (n5 & H5 & H). apply bind_Ok in H as (st6 & H6 & H).
  apply bind_Ok in H as (st7 & H7 & H).
  apply moveToNode_inv in H1 as (N1 & A1 & _).
  apply moveToNode_inv in H2 as (N2 & A2 & _).
  apply moveToNode_inv in H3 as (N3 & A3 & _).
  apply numDate_inv in H6 as (N6 & _).
  apply divergence_inv in H7 as (N7 & _).
  apply transferTraits_inv in H as (N8 & _).
  simpl in *.
  assert (attrFrame ["author"; "accession"; "url"] (VObj kvs) (r_attr st3))
    as A13.
  { rewrite <- Hattr.
    eapply attrFrame_trans; [eapply attrFrame_weaken; [|exact A1]; sub|].
    eapply attrFrame_trans; [eapply attrFrame_weaken; [|exact A2]; sub|].
    eapply attrFrame_weaken; [|exact A3]; sub. }
  destruct (A13 kvs eq_refl) as (kvs3 & Hattr3 & Hsame).
  assert (alookup "labels" (r_node st3) = None) as Hnone3.
  { rewrite N3, N2, N1 by notin. done. }
  pose proof (cladeLabel_spec _ _ _ H4 Hattr3 Hnone3) as Hclade.
  unfold prop in Hclade. rewrite !Hsame in Hclade by notin.
  fold (prop "clade_annotation" kvs) in Hclade.
  fold (prop "clade_name" kvs) in Hclade. simpl in Hclade. fold clade in Hclade.
  assert (alookup "aa_muts" (r_node st4) = alookup "aa_muts" node) as Haa.
  { apply cladeLabel_inv in H4 as (N4 & _).
    rewrite N4, N3, N2, N1 by notin. done. }
  assert (alookup "labels" node' = alookup "labels" n5) as Hfinal.
  { rewrite N8, N7, N6 by notin. done. }
  rewrite Hfinal.
  destruct (aaLabel_spec _ _ H5) as [Hkeep [->|[x Hx]]].
  - rewrite Hclade. destruct (truthy clade).
    + split; [intros _; by eexists|]. split; [done|done].
    + split; [done|]. split; [|done]. by intros _ labels.
  - destruct (truthy clade) eqn:Ec.
    + rewrite (setLabel_spec _ _ _ _ [("clade", clade)] Hx) by (by left).
      split; [|split; done]. intros _. eexists. split; [done|].
      by rewrite alookup_aset_ne.
    + pose proof (setLabel_spec _ _ _ _ [] Hx (or_intror (conj Hclade eq_refl)))
        as Hl5.
      split; [done|]. split.
      * intros _ labels Hl. rewrite Hl5 in Hl. by injection Hl as <-.
      * intros _ Hno. rewrite Hkeep in Hl5 by (unfold prop; by rewrite Haa).
        congruence.
Qed.

(** X25. Branch labels of a node that had no [labels]. With an [attr],
    the node gets [labels.clade] exactly when [attr.clade_annotation] or
    [attr.clade_name] is truthy, the annotation winning, and gets no
    [labels] at all when neither is and it has no [aa_muts]. Without an
    [attr] the node gets no [labels], whatever its [aa_muts]. *)
Theorem clade_labels t t' :
  storeTreeAsV2 t = Ok t' →
  TreeRel (λ p p',
      alookup "labels" p = None →
      (∀ kvs, alookup "attr" p = Some (VObj kvs) →
         let clade :=
           orElse (prop "clade_annotation" kvs) (prop "clade_name" kvs) in
         (truthy clade = true →
          ∃ labels, alookup "labels" p' = Some (VObj labels) ∧
                    alookup "clade" labels = Some clade) ∧
         (truthy clade = false → ∀ labels,
            alookup "labels" p' = Some (VObj labels) →
            alookup "clade" labels = None) ∧
         (truthy clade = false → truthy (prop "aa_muts" p) = false →
          alookup "labels" p' = None)) ∧
      (truthy (prop "attr" p) = false → alookup "labels" p' = None))
    t t'.
Proof.
  unfold storeTreeAsV2. intros H%traverse_rel.
  eapply TreeRel_impl; [|exact H].
  intros p p' Hst Hnone.
  assert (∀ n1 n2, mutationsBlock n1 = Ok n2 →
            alookup "labels" (pruneNode n2) = alookup "labels" n1) as Hend.
  { intros n1 n2 H2%mutationsBlock_inv.
    rewrite pruneNode_lookup by (apply (bool_decide_unpack _); by vm_compute).
    by rewrite H2 by notin. }
  split.
  - intros kvs Hattr.
    assert (prop "attr" p = VObj kvs) as Hprop
      by (unfold prop; by rewrite Hattr).
    unfold storeCallback in Hst. rewrite Hprop in Hst. simpl in Hst.
    apply bind_Ok in Hst as (n1 & H1 & Hst).
    apply bind_Ok in Hst as (n2 & H2 & Hst). injection Hst as <-.
    rewrite (Hend _ _ H2). by apply attrBlock_labels.
  - intros Hno. unfold storeCallback in Hst. rewrite Hno in Hst. simpl in Hst.
    apply bind_Ok in Hst as (n2 & H2 & Hst). injection Hst as <-.
    by rewrite (Hend _ _ H2).
Qed.

(** *** The theorems on the sample documents *)

Lemma migration_keeps_shape_and_strain_witness :
  ∃ v2, convertFromV1 sampleDocument = Ok v2 ∧
  (TreeRel (λ p p', alookup "strain" p' = alookup "strain" p ∧
                   alookup "hidden" p' = alookup "hidden" p)
    (tree sampleDocument) (v2tree v2) ∧
  length (nodesOf (v2tree v2)) = length (nodesOf (tree sampleDocument))).
Proof.
  destruct (convertFromV1 sampleDocument) as [v2| |] eqn:E;
    [|vm_compute in E; discriminate E..].
  exists v2. split; [reflexivity|].
  exact (migration_keeps_shape_and_strain sampleDocument v2 E).
Defined.

Lemma vaccine_choice_and_serum_witness :
  ∃ v2, convertFromV1 sampleDocument = Ok v2 ∧
  get (meta sampleDocument) "vaccine_choices"
    = Ok (VObj [("A/1", VStr "2015-01-01")]) ∧
  (TreeRel (λ p p',
      (truthy (VObj [("A/1", VStr "2015-01-01")]) = true → ∀ s choice,
         alookup "strain" p = Some (VStr s) →
         get (VObj [("A/1", VStr "2015-01-01")]) s = Ok choice →
         truthy choice = true →
         alookup "vaccine" p' =
         Some (VObj (("selection_date", choice) ::
                     if truthy (prop "serum" p)
                     then [("serum", VBool true)] else []))) ∧
      (truthy (VObj [("A/1", VStr "2015-01-01")]) = false →
       truthy (prop "serum" p) = true →
       alookup "vaccine" p = None →
       alookup "vaccine" p' = Some (VObj [("serum", VBool true)])))
    (tree sampleDocument) (v2tree v2)).
Proof.
  destruct (convertFromV1 sampleDocument) as [v2| |] eqn:E;
    [|vm_compute in E; discriminate E..].
  exists v2. split; [reflexivity|]. split; [reflexivity|].
  exact (vaccine_choice_and_serum sampleDocument v2 _ E eq_refl).
Defined.

Lemma mutations_are_merged_witness :
  ∃ v2, convertFromV1 sampleDocument = Ok v2 ∧
  (TreeRel (λ p p',
      (∀ genes, prop "aa_muts" p = VObj genes →
         ∃ m, alookup "mutations" p' = Some (VObj m) ∧
              (∀ g, g ≠ "nuc" → alookup g m = alookup g genes) ∧
              alookup "nuc" m =
              (if truthy (prop "muts" p) then Some (prop "muts" p)
               else alookup "nuc" genes)) ∧
      (truthy (prop "aa_muts" p) = false →
       alookup "mutations" p' =
       (if truthy (prop "muts" p) then Some (VObj [("nuc", prop "muts" p)])
        else alookup "mutations" p)))
    (tree sampleDocument) (v2tree v2)).
Proof.
  destruct (convertFromV1 sampleDocument) as [v2| |] eqn:E;
    [|vm_compute in E; discriminate E..].
  exists v2. split; [reflexivity|].
  exact (mutations_are_merged sampleDocument v2 E).
Defined.

Lemma div_and_num_date_move_to_the_node_witness :
  ∃ v2, convertFromV1 sampleDocument = Ok v2 ∧
  (TreeRel (λ p p',
      (∀ kvs, alookup "attr" p = Some (VObj kvs) →
         alookup "div" p' =
           (if isUndefined (prop "div" kvs) then alookup "div" p
            else Some (prop "div" kvs)) ∧
         alookup "num_date" p' =
           (if truthy (prop "num_date" kvs)
            then Some (numDateObject (prop "num_date" kvs)
                         (prop "num_date_confidence" kvs))
            else alookup "num_date" p)) ∧
      (truthy (prop "attr" p) = false →
       alookup "div" p' = alookup "div" p ∧
       alookup "num_date" p' = alookup "num_date" p))
    (tree sampleDocument) (v2tree v2)).
Proof.
  destruct (convertFromV1 sampleDocument) as [v2| |] eqn:E;
    [|vm_compute in E; discriminate E..].
  exists v2. split; [reflexivity|].
  exact (div_and_num_date_move_to_the_node sampleDocument v2 E).
Defined.

Lemma top_level_fields_witness :
  ∃ v2, convertFromV1 documentWithAuthorInfo = Ok v2 ∧
  (let m := meta documentWithAuthorInfo in
  let f := fields v2 in
  alookup "title" f = Some (field "title" m) ∧
  alookup "version" f = Some (VStr "2.0-alpha.0") ∧
  alookup "updated" f = Some (field "updated" m) ∧
  alookup "maintainers" f =
    (if truthy (field "maintainer" m)
     then Some (VArr [VObj [("name", field "0" (field "maintainer" m));
                            ("url", field "1" (field "maintainer" m))]])
     else None) ∧
  (∀ from to, (from, to) ∈ [("annotations", "genome_annotations");
                            ("panels", "panels"); ("geo", "geographic_info")] →
     alookup to f = if truthy (field from m) then Some (field from m) else None) ∧
  alookup "tree_name" f =
    (if truthy (treeName documentWithAuthorInfo)
     then Some (treeName documentWithAuthorInfo) else None) ∧
  (if truthy (field "defaults" m) then
     ∃ dd, alookup "display_defaults" f = Some (VObj dd) ∧
       ∀ from to, (from, to) ∈ [("geoResolution", "geo_resolution");
                                ("colorBy", "color_by");
                                ("distanceMeasure", "distance_measure");
                                ("mapTriplicate", "map_triplicate")] →
         alookup to dd =
         if truthy (field from (field "defaults" m))
         then Some (field from (field "defaults" m)) else None
   else alookup "display_defaults" f = None)).
Proof.
  destruct (convertFromV1 documentWithAuthorInfo) as [v2| |] eqn:E;
    [|vm_compute in E; discriminate E..].
  exists v2. split; [reflexivity|].
  exact (top_level_fields documentWithAuthorInfo v2 E).
Defined.

Lemma traits_come_from_attr_witness :
  ∃ t', storeTreeAsV2 sampleRoot = Ok t' ∧
  (TreeRel (λ p p', ∀ kvs tr k,
      alookup "attr" p = Some (VObj kvs) → alookup "traits" p = None →
      alookup "traits" p' = Some (VObj tr) → is_Some (alookup k tr) →
      is_Some (alookup k kvs) ∧
      endsWith "_entropy" k = false ∧ endsWith "_confidence" k = false ∧
      k ∉ attrsToIgnore)
    sampleRoot t').
Proof.
  destruct (storeTreeAsV2 sampleRoot) as [t'| |] eqn:E;
    [|vm_compute in E; discriminate E..].
  exists t'. split; [reflexivity|].
  exact (traits_come_from_attr sampleRoot t' E).
Defined.


Lemma clade_labels_witness :
  ∃ t', storeTreeAsV2 sampleRoot = Ok t' ∧
  (TreeRel (λ p p',
      alookup "labels" p = None →
      (∀ kvs, alookup "attr" p = Some (VObj kvs) →
         let clade :=
           orElse (prop "clade_annotation" kvs) (prop "clade_name" kvs) in
         (truthy clade = true →
          ∃ labels, alookup "labels" p' = Some (VObj labels) ∧
                    alookup "clade" labels = Some clade) ∧
         (truthy clade = false → ∀ labels,
            alookup "labels" p' = Some (VObj labels) →
            alookup "clade" labels = None) ∧
         (truthy clade = false → truthy (prop "aa_muts" p) = false →
          alookup "labels" p' = None)) ∧
      (truthy (prop "attr" p) = false → alookup "labels" p' = None))
    sampleRoot t').
Proof.
  destruct (storeTreeAsV2 sampleRoot) as [t'| |] eqn:E;
    [|vm_compute in E; discriminate E..].
  exists t'. split; [reflexivity|].
  exact (clade_labels sampleRoot t' E).
Defined.

Lemma authors_with_author_info_witness :
  ∃ v2, convertFromV1 documentWithAuthorInfo = Ok v2 ∧
  get (meta documentWithAuthorInfo) "author_info"
    = Ok (VObj [("smith_et_al", VObj [("title", VStr "A paper");
                                  ("journal", VStr "A journal")])]) ∧
  (TreeRel (λ p p', ∀ kvs a,
      alookup "attr" p = Some (VObj kvs) →
      alookup "authors" kvs = Some (VStr a) → a ≠ "" →
      a ∉ objectPrototypeNames →
      ∃ v1info,
        get (VObj [("smith_et_al", VObj [("title", VStr "A paper");
                                  ("journal", VStr "A journal")])]) a
          = Ok v1info ∧
        (truthy v1info = true →
         ∃ pretty author,
           prettyString (VStr a) defaultOptions = Ok (VStr pretty) ∧
           alookup "author" p' = Some (VObj author) ∧
           alookup "author" author = Some (VStr pretty) ∧
           alookup "value" author = Some (VStr a) ∧
           ∀ k, k ∈ ["title"; "journal"; "paper_url"] →
                alookup k author =
                if truthy (field k v1info) then Some (field k v1info)
                else None) ∧
        (truthy v1info = false →
         alookup "author" p' =
         (if truthy (prop "author" kvs) then Some (prop "author" kvs)
          else alookup "author" p)) ∧
        (alookup "traits" p = None → ∀ tr,
           alookup "traits" p' = Some (VObj tr) →
           alookup "authors" tr = None))
    (tree documentWithAuthorInfo) (v2tree v2)).
Proof.
  destruct (convertFromV1 documentWithAuthorInfo) as [v2| |] eqn:E;
    [|vm_compute in E; discriminate E..].
  exists v2. split; [reflexivity|]. split; [reflexivity|].
  exact (authors_with_author_info documentWithAuthorInfo v2 _ E eq_refl).
Defined.


Lemma filters_rename_first_authors_witness :
  ∃ v2, convertFromV1 sampleDocument = Ok v2 ∧
  field "filters" (meta sampleDocument)
    = VArr [VStr "country"; VStr "authors"] ∧
  (∃ l', alookup "filters" (fields v2) = Some (VArr l') ∧
        length l' = length [VStr "country"; VStr "authors"] ∧
        ∀ i x, [VStr "country"; VStr "authors"] !! i = Some x →
               l' !! i
               = Some (if firstAt "authors" [VStr "country"; VStr "authors"] i
                       then VStr "author" else x)).
Proof.
  destruct (convertFromV1 sampleDocument) as [v2| |] eqn:E;
    [|vm_compute in E; discriminate E..].
  exists v2. split; [reflexivity|]. split; [reflexivity|].
  exact (filters_rename_first_authors sampleDocument v2 _ E eq_refl).
Defined.

End Convert.
